(** * bandstop.py: detection and removal of persistent narrow-band interference

    A shallow embedding of [bandstop.py] and the properties of its
    detection-and-removal pipeline.

    Conventions of the embedding.
    - NumPy [int64] values are integers of [Z] with the wrap-around of every
      operation written out ([wrap64]); Python integers are plain [Z].
    - NumPy [float64] values are the rationals of [Q] that are float64
      numbers.  The aggregator computes them from integers, by conversion,
      division and subtraction, and each of these operations is rounded to
      the nearest float64 ([round64]); doing so it stays far inside the
      range of float64, so that no infinity, NaN or subnormal number arises.
      The arithmetic of [bandstop] on a band (centre, [w0], [Q]) is embedded
      as the exact formula: the properties about it are about which formula
      is evaluated.
    - An exception is a value of [exn]; code that may raise returns a
      [result].
    - SciPy's and NumPy's numerical routines ([fft], [argpartition],
      [iirnotch], [filtfilt]) and the [Sound] class of [sound.py] are not part
      of [bandstop.py]: they are the variables of the sections below.
    - Output on [stdout] is recorded for [process] and the main loop only;
      the diagnostic output and the plots produced inside [parse] do not
      influence any value and are left out. *)

From Stdlib Require Import ZArith QArith Qabs Qminmax Qround Qreduction Qpower.
From Stdlib Require Import List Lia Lqa String Ascii Bool.
From stdpp Require Import base option list gmap strings.
Import ListNotations.

Local Open Scope Z_scope.

(** ** Exceptions and results *)

Inductive exn : Type :=
| ValueError
| IndexError
| ZeroDivisionError
| IOError
| DepthException (msg : string).

Inductive result (A : Type) : Type :=
| Ok (a : A)
| Raise (e : exn).
Arguments Ok {A} a.
Arguments Raise {A} e.

#[export] Instance result_ret : MRet result := fun A a => Ok a.

#[export] Instance result_bind : MBind result := fun A B k r =>
  match r with
  | Ok a => k a
  | Raise e => Raise e
  end.

(** ** 64-bit integers *)

Module Int64.

Definition wrap64 (z : Z) : Z := (z + 2 ^ 63) mod 2 ^ 64 - 2 ^ 63.

Definition add64 (a b : Z) : Z := wrap64 (a + b).
Definition sub64 (a b : Z) : Z := wrap64 (a - b).
Definition mul64 (a b : Z) : Z := wrap64 (a * b).
Definition abs64 (a : Z) : Z := wrap64 (Z.abs a).

(** [numpy.floor_divide] on integers: floor division, and [0] (with a
    warning) for a zero divisor. *)
Definition floordiv64 (a b : Z) : Z :=
  if b =? 0 then 0 else wrap64 (a / b).

Definition in_int64 (z : Z) : Prop := - 2 ^ 63 <= z < 2 ^ 63.

End Int64.
Import Int64.

(** ** float64 numbers *)

Module Float64.

(** The integer nearest to [x]; of two integers equally near, the even
    one. *)
Definition round_half_even (x : Q) : Z :=
  let f := Qfloor x in
  match (x - inject_Z f ?= 1 # 2)%Q with
  | Lt => f
  | Gt => f + 1
  | Eq => if Z.even f then f else f + 1
  end.

(** The exponent of a positive [x]: the [e] with [2^e <= x < 2^(e+1)]. *)
Definition exponent (x : Q) : Z :=
  let k := Z.log2 (Qnum x) - Z.log2 (QDen x) in
  if Qle_bool (2 ^ k) x then k else k - 1.

(** The float64 number nearest to [x] (round to nearest, ties to even): [x]
    is rounded to 53 significant bits.  float64 also bounds the exponent,
    which changes nothing for magnitudes between [2^-1022] and [2^1023];
    the numbers rounded in this program, quotients and differences made
    from 64-bit integers, are zero or lie there. *)
Definition round64 (x : Q) : Q :=
  let x := Qred x in
  if Qeq_bool x 0 then 0%Q
  else
    let ulp := (2 ^ (exponent (Qabs x) - 52))%Q in
    Qred (inject_Z (round_half_even (x / ulp)) * ulp).

(** The conversion of an integer to float64. *)
Definition of_int64 (z : Z) : Q := round64 (inject_Z z).

(** Division and subtraction of float64 numbers. *)
Definition fdiv (a b : Q) : Q := round64 (a / b).
Definition fsub (a b : Q) : Q := round64 (a - b).

End Float64.
Import Float64.

(** ** Rational comparisons *)

Definition Qltb (x y : Q) : bool :=
  (Qnum x * QDen y <? Qnum y * QDen x)%Z.

(** ** Python and NumPy sequence operations *)

(** [a[k:]] *)
Definition py_drop {A} (k : Z) (a : list A) : list A :=
  if k <? 0
  then skipn (length a - Z.to_nat (- k)) a
  else skipn (Z.to_nat k) a.

(** [a[:k]] *)
Definition py_take {A} (k : Z) (a : list A) : list A :=
  if k <? 0
  then firstn (length a - Z.to_nat (- k)) a
  else firstn (Z.to_nat k) a.

(** [a[i:j]] *)
Definition py_index (len k : Z) : Z :=
  if k <? 0 then Z.max 0 (len + k) else Z.min k len.

Definition py_slice {A} (i j : Z) (a : list A) : list A :=
  let len := Z.of_nat (length a) in
  let lo := py_index len i in
  let hi := py_index len j in
  firstn (Z.to_nat (hi - lo)) (skipn (Z.to_nat lo) a).

(** [numpy.diff]: [a[1:] - a[:-1]]. *)
Fixpoint np_diff (a : list Q) : list Q :=
  match a with
  | x :: (y :: _) as t => (y - x)%Q :: np_diff t
  | _ => []
  end.

(** The elements of [range(0, stop, step)] for a non-zero [step]. *)
Definition py_range (stop step : Z) : list Z :=
  let n :=
    if 0 <? step then (stop + step - 1) / step
    else (stop + step + 1) / step in
  map (fun k => Z.of_nat k * step) (seq 0 (Z.to_nat n)).

(** ** Configuration constants *)

Definition FFT_SAMPLE_SIZE : Z := 10000.
Definition FREQUENCY_MAXIMUM_DIFFERENTIATING_DIFFERENCE : Z := 50.
Definition FREQUENCY_BANDSTOP_MARGIN : Z := 50.
Definition FREQUENCY_MINIMUM_COUNT : Z := 20.

(** ** [find_outstanding_frequencies] *)

Section Extractor.

(** [numpy.argpartition(a, kth)] for an in-range, non-negative [kth]: a
    permutation of the indices of [a] that puts the [kth] smallest element
    in its sorted place, smaller ones before it and larger ones after it.
    The order among equal elements is the library's. *)
Variable argpartition : list Q -> nat -> list nat.

(** NumPy checks [kth] against the bounds of a non-empty array only: of an
    empty array the result is empty, whatever [kth] is. *)
Definition np_argpartition (a : list Q) (kth : Z) : result (list Z) :=
  match a with
  | [] => Ok []
  | _ =>
      let n := Z.of_nat (length a) in
      let k := if kth <? 0 then kth + n else kth in
      if (k <? 0) || (n <=? k) then Raise ValueError
      else Ok (map Z.of_nat (argpartition a (Z.to_nat k)))
  end.

Definition num_outstanding : Z := 3.

(** Lines 65-74: the bins of the three largest and of the three most
    negative differences above the low band. *)
Definition select_outstanding (data : list Q) (points_per_sample : Z)
  : result (list Z * list Z) :=
  let diff_data := np_diff data in
  let low_band := points_per_sample / 4 in
  p ← np_argpartition (py_drop low_band diff_data) (- num_outstanding);
  let low_ind := map (fun i => add64 i low_band) (py_drop (- num_outstanding) p) in
  p' ← np_argpartition (map Qopp (py_drop low_band diff_data)) (- num_outstanding);
  let high_ind := map (fun i => add64 i low_band) (py_drop (- num_outstanding) p') in
  Ok (low_ind, high_ind).

(** Lines 77-78: [(ind * sndobj.fs) // points_per_sample]. *)
Definition normalize (fs points_per_sample : Z) (ind : Z) : Z :=
  floordiv64 (mul64 ind fs) points_per_sample.

(** Lines 99-100: the body of the inner loop. *)
Definition pair_step (ind1 : Z) (ret : list (Z * Z)) (ind2 : Z) : list (Z * Z) :=
  if abs64 (sub64 ind1 ind2) <? FREQUENCY_MAXIMUM_DIFFERENTIATING_DIFFERENCE
  then ret ++ [if ind1 <? ind2 then (ind1, ind2) else (ind2, ind1)]
  else ret.

(** Lines 96-102: the two nested loops. *)
Definition pair_loop (high_ind low_ind : list Z) : list (Z * Z) :=
  fold_left (fun ret ind1 => fold_left (pair_step ind1) low_ind ret) high_ind [].

(** Lines 76-102: what the function does with the selected bins. *)
Definition pair_outstanding (fs points_per_sample : Z) (low_ind high_ind : list Z)
  : list (Z * Z) :=
  let low_ind := map (normalize fs points_per_sample) low_ind in
  let high_ind := map (normalize fs points_per_sample) high_ind in
  pair_loop high_ind low_ind.

Definition find_outstanding_frequencies (data : list Q) (fs points_per_sample : Z)
  : result (list (Z * Z)) :=
  '(low_ind, high_ind) ← select_outstanding data points_per_sample;
  Ok (pair_outstanding fs points_per_sample low_ind high_ind).

End Extractor.

(** ** [extract_bandstop_frequencies] *)

Module Aggregator.

(** A row of the two-column [int64] array of candidates. *)
Definition row : Type := Z * Z.

(** The rows are read at indices of the array only. *)
#[export] Instance row_inhabited : Inhabited row := populate (0, 0).

(** An entry of [final].  Iterating over a two-dimensional array yields
    views of its rows, so the ["data"] of an entry is a row of the array
    the loop runs over: [data] is the index of that row, and [+=] on it
    writes into the array. *)
Record cluster : Type := { data : nat; count : Z }.

(** Lines 105-107: [candidates[:,1] += MARGIN; candidates[:,0] -= MARGIN]. *)
Definition expand (cand : list row) : list row :=
  let candidates := map (fun c : row => (c.1, add64 c.2 FREQUENCY_BANDSTOP_MARGIN)) cand in
  map (fun c : row => (sub64 c.1 FREQUENCY_BANDSTOP_MARGIN, c.2)) candidates.

(** Line 111: [(c[0] + c[1])/2], the [int64] sum divided in float64. *)
Definition avg_of (c : row) : Q := fdiv (of_int64 (add64 c.1 c.2)) 2.

(** Line 114: [(f["data"][0] + f["data"][1])/(2 * f["count"])]. *)
Definition favg_of (arr : list row) (f : cluster) : Q :=
  let d := arr !!! data f in
  fdiv (of_int64 (add64 d.1 d.2)) (of_int64 (2 * count f)).

(** Line 115: [abs(avg - favg) < 50]. *)
Definition close_to (avg favg : Q) : bool :=
  Qltb (Qabs (fsub avg favg)) (inject_Z FREQUENCY_MAXIMUM_DIFFERENTIATING_DIFFERENCE).

(** Lines 113-119: the scan of [final] for row [j]; [None] when the loop
    ends with [placed] still false. *)
Fixpoint place (arr : list row) (j : nat) (avg : Q) (final : list cluster)
  : option (list row * list cluster) :=
  match final with
  | [] => None
  | f :: rest =>
      if close_to avg (favg_of arr f)
      then
        let d := arr !!! data f in
        let c := arr !!! j in
        Some (<[data f := (add64 d.1 c.1, add64 d.2 c.2)]> arr,
              {| data := data f; count := count f + 1 |} :: rest)
      else
        '(arr', rest') ← place arr j avg rest;
        Some (arr', f :: rest')
  end.

(** Lines 110-124: one iteration of the outer loop, at row [j]. *)
Definition cluster_step (st : list row * list cluster) (j : nat)
  : list row * list cluster :=
  let '(arr, final) := st in
  match place arr j (avg_of (arr !!! j)) final with
  | Some st' => st'
  | None => (arr, final ++ [{| data := j; count := 1 |}])
  end.

Definition cluster_loop (candidates : list row) : list row * list cluster :=
  fold_left cluster_step (seq 0 (length candidates)) (candidates, []).

(** Line 131: [f["data"]/f["count"]], the division of an [int64] array by
    an integer: both are converted to float64 and divided there.  The count
    of an entry is never zero. *)
Definition band (arr : list row) (f : cluster) : Q * Q :=
  let d := arr !!! data f in
  (fdiv (of_int64 d.1) (of_int64 (count f)),
   fdiv (of_int64 d.2) (of_int64 (count f))).

(** Lines 130-131. *)
Definition confirm_step (arr : list row) (ret : list (Q * Q)) (f : cluster)
  : list (Q * Q) :=
  if FREQUENCY_MINIMUM_COUNT <? count f then ret ++ [band arr f] else ret.

(** Lines 126-133: the bands of the entries of [final], as the array
    stands after the loop. *)
Definition confirmed (st : list row * list cluster) : list (Q * Q) :=
  fold_left (confirm_step st.1) st.2 [].

(** An empty [cand] makes [np.array(cand)] one-dimensional, and
    [candidates[:,1]] raises [IndexError]. *)
Definition extract_bandstop_frequencies (cand : list row) : result (list (Q * Q)) :=
  match cand with
  | [] => Raise IndexError
  | _ => Ok (confirmed (cluster_loop (expand cand)))
  end.

End Aggregator.
Import Aggregator.

(** ** [bandstop] *)

(** What [bandstop] computes for one band. *)
Record notch : Type := {
  center : Q;
  w0 : Q;
  dist_raw : Q;     (* line 145 *)
  q_raw : Q;        (* line 146: computed, never used *)
  dist : Q;         (* after lines 147-148 *)
  quality : Q       (* the second argument of [iirnotch], line 151 *)
}.

Definition notch_of (fs : Z) (ft : Q * Q) : notch :=
  let center := ((ft.1 + ft.2) / 2)%Q in
  let w0 := (center / (inject_Z fs / 2))%Q in
  let dist := Qabs (ft.1 - ft.2) in
  let q := (2 * center / dist)%Q in
  let dist' := if Qltb dist 10 then 10%Q else dist in
  {| center := center; w0 := w0; dist_raw := dist; q_raw := q;
     dist := dist'; quality := (2 * center / dist')%Q |}.

(** The fields of a [Sound] object that [bandstop.py] reads. *)
Record Sound : Type := {
  fs : Z;
  samples : Z;
  channels : Z;
  duration : Q;
  depth : Z
}.

Section Pipeline.

(** The type of a sample: [parse] slices the signal and hands it to the
    libraries, and does no arithmetic on it. *)
Context {sample : Type}.
(** The pair of coefficient arrays of a filter. *)
Context {coeffs : Type}.

Variable argpartition : list Q -> nat -> list nat.
(** [abs(fft(x))], bin by bin; [fft] refuses an empty [x]. *)
Variable fft_abs : list sample -> list Q.
(** [signal.iirnotch(w0, Q)] *)
Variable iirnotch : Q -> Q -> result coeffs.
(** [signal.filtfilt(b, a, x)] *)
Variable filtfilt : coeffs -> list sample -> result (list sample).

Definition bandstop_step (sndobj : Sound) (sound_data : list sample) (ft : Q * Q)
  : result (list sample) :=
  let n := notch_of (fs sndobj) ft in
  c ← iirnotch (w0 n) (quality n);
  filtfilt c sound_data.

Fixpoint bandstop (frequencies : list (Q * Q)) (sound_data : list sample)
  (sndobj : Sound) : result (list sample) :=
  match frequencies with
  | [] => Ok sound_data
  | ft :: rest =>
      sound_data ← bandstop_step sndobj sound_data ft;
      bandstop rest sound_data sndobj
  end.

(** Line 167: [sound_data[i:(i+points_per_sample)]]. *)
Definition window (sound_data : list sample) (points_per_sample i : Z)
  : list sample :=
  py_slice i (i + points_per_sample) sound_data.

(** Lines 167-170: [abs(fft_data[:(real_length-1)])]. *)
Definition spectrum (w : list sample) : result (list Q) :=
  match w with
  | [] => Raise ValueError
  | _ =>
      let fft_data := fft_abs w in
      let real_length := Z.of_nat (length fft_data) / 2 in
      Ok (py_take (real_length - 1) fft_data)
  end.

(** Lines 165-181: the body of the loop of [parse]. *)
Definition parse_step (sound_data : list sample) (sndobj : Sound)
  (points_per_sample : Z) (candidate_frequencies : list (Z * Z)) (i : Z)
  : result (list (Z * Z)) :=
  real_data ← spectrum (window sound_data points_per_sample i);
  sample_freqs ← find_outstanding_frequencies argpartition real_data
                   (fs sndobj) points_per_sample;
  Ok (candidate_frequencies ++ sample_freqs).

Fixpoint parse_loop (sound_data : list sample) (sndobj : Sound)
  (points_per_sample : Z) (candidate_frequencies : list (Z * Z)) (starts : list Z)
  : result (list (Z * Z)) :=
  match starts with
  | [] => Ok candidate_frequencies
  | i :: rest =>
      candidate_frequencies ←
        parse_step sound_data sndobj points_per_sample candidate_frequencies i;
      parse_loop sound_data sndobj points_per_sample candidate_frequencies rest
  end.

Definition parse (sound_data : list sample) (sndobj : Sound)
  : result (list sample) :=
  let points_per_sample := FFT_SAMPLE_SIZE * fs sndobj / 1000 in
  if points_per_sample =? 0 then Raise ValueError (* range() arg 3 *)
  else
    candidate_frequencies ←
      parse_loop sound_data sndobj points_per_sample []
        (py_range (samples sndobj) points_per_sample);
    bandstop_frequencies ← extract_bandstop_frequencies candidate_frequencies;
    match bandstop_frequencies with
    | [] => Ok sound_data
    | _ => bandstop bandstop_frequencies sound_data sndobj
    end.

End Pipeline.

(** ** [gen_output_filename] *)

(** The match of [\.[^.]+$] in a file name, read from its end: the text
    before the last dot, when at least one character follows that dot. *)
Fixpoint match_extension (reversed : list ascii) (passed : nat)
  : option (list ascii) :=
  match reversed with
  | [] => None
  | c :: before =>
      if Ascii.eqb c "."
      then (if Nat.eqb passed 0 then None else Some before)
      else match_extension before (S passed)
  end.

Definition gen_output_filename (filename : string) : string :=
  match match_extension (rev (list_ascii_of_string filename)) 0 with
  | Some before => string_of_list_ascii (rev before) +:+ "-out.wav"
  | None => filename
  end.

(** ** [process] and the main loop *)

Section Orchestrator.

Context {sample : Type}.
Context {coeffs : Type}.

Variable argpartition : list Q -> nat -> list nat.
Variable fft_abs : list sample -> list Q.
Variable iirnotch : Q -> Q -> result coeffs.
Variable filtfilt : coeffs -> list sample -> result (list sample).

(** A sound file: its rate and its channels. *)
Definition wav : Type := Z * list (list sample).

(** The data that [wavfile.read] returns: a one-dimensional array of
    samples for a file of one channel, and otherwise a two-dimensional
    array, one row per sample and one column per channel, held here by its
    columns ([snd.T]). *)
Inductive ndarray : Type :=
| Array1 (data : list sample)
| Array2 (columns : list (list sample)).

Definition read_data (columns : list (list sample)) : ndarray :=
  match columns with
  | [data] => Array1 data
  | _ => Array2 columns
  end.

(** [Sound(fs, snd)], of [sound.py]: the object, or the exception its
    constructor raises. *)
Variable Sound_new : Z -> ndarray -> result Sound.

(** [snd.T[c]]: a column of a two-dimensional array.  A one-dimensional
    array is its own transpose, and indexing it yields a sample. *)
Inductive item : Type :=
| Channel (sound_data : list sample)
| Sample (x : sample).

Definition transposed_item (snd : ndarray) (c : Z) : result item :=
  match snd with
  | Array1 data =>
      match data !! Z.to_nat c with
      | Some x => Ok (Sample x)
      | None => Raise IndexError
      end
  | Array2 columns =>
      match columns !! Z.to_nat c with
      | Some sound_data => Ok (Channel sound_data)
      | None => Raise IndexError
      end
  end.

(** [parse] given a sample where it expects a channel: [range] refuses a
    window length of zero ([ValueError]); the slice of line 167 cannot be
    taken of a NumPy scalar ([IndexError]); and when the loop has no window
    to go through, line 106 raises [IndexError] on the empty list of
    candidates.  [parse] never returns. *)
Definition parse_sample (sndobj : Sound) : exn :=
  if FFT_SAMPLE_SIZE * fs sndobj / 1000 =? 0 then ValueError else IndexError.

Inductive line : Type :=
| PrintExn (msg : string)
| PrintStr (s : string)
| PrintInfo (filename : string) (sndobj : Sound)
| PrintChannel (c : Z)
| PrintSignals (signals_to_save : list (list sample))
| PrintSaving (output_filename : string).

Record World : Type := {
  files : gmap string wav;
  stdout : list line
}.

Definition print (l : line) (w : World) : World :=
  {| files := files w; stdout := stdout w ++ [l] |}.

Definition wavfile_write (name : string) (rate : Z)
  (signals : list (list sample)) (w : World) : World :=
  {| files := <[name := (rate, signals)]> (files w); stdout := stdout w |}.

(** Lines 51-56.  [np.column_stack] refuses a column whose length is not
    [sndobj.samples]. *)
Fixpoint channel_loop (snd : ndarray) (sndobj : Sound)
  (cs : list Z) (signals_to_save : list (list sample)) (w : World)
  : World * result (list (list sample)) :=
  match cs with
  | [] => (w, Ok signals_to_save)
  | c :: rest =>
      let w := print (PrintChannel c) w in
      match transposed_item snd c with
      | Raise e => (w, Raise e)
      | Ok (Sample _) => (w, Raise (parse_sample sndobj))
      | Ok (Channel sound_data) =>
          match parse argpartition fft_abs iirnotch filtfilt sound_data sndobj with
          | Raise e => (w, Raise e)
          | Ok cleaned_signal =>
              if Z.of_nat (length cleaned_signal) =? samples sndobj
              then
                let signals_to_save := signals_to_save ++ [cleaned_signal] in
                channel_loop snd sndobj rest signals_to_save
                  (print (PrintSignals signals_to_save) w)
              else (w, Raise ValueError)
          end
      end
  end.

(** [process(filename)]: the world it leaves, and the exception that
    escapes it, if any. *)
Definition process (filename : string) (w : World) : World * option exn :=
  match files w !! filename with
  | None => (w, Some IOError)
  | Some (rate, columns) =>
      let snd := read_data columns in
      match Sound_new rate snd with
      | Raise (DepthException msg) =>
          (print (PrintStr "Skipping...") (print (PrintExn msg) w), None)
      | Raise e => (w, Some e)
      | Ok sndobj =>
          let w := print (PrintInfo filename sndobj) w in
          if samples sndobj <? 0 then (w, Some ValueError) (* reshape *)
          else
            match channel_loop snd sndobj (py_range (channels sndobj) 1) [] w with
            | (w, Raise e) => (w, Some e)
            | (w, Ok signals_to_save) =>
                let output_filename := gen_output_filename filename in
                let w := print (PrintSaving output_filename) w in
                (wavfile_write output_filename (fs sndobj) signals_to_save w, None)
            end
      end
  end.

(** Lines 195-196: [for filename in sys.argv[1:]: process(filename)]. *)
Fixpoint run (filenames : list string) (w : World) : World * option exn :=
  match filenames with
  | [] => (w, None)
  | filename :: rest =>
      match process filename w with
      | (w, Some e) => (w, Some e)
      | (w, None) => run rest w
      end
  end.

(** Lines 4-6 and 195-196: the script, with its exit status.  An exception
    that escapes [process] ends the run with status 1. *)
Definition main (argv : list string) (w : World) : World * Z :=
  if Nat.eqb (length argv) 1
  then (print (PrintStr "usage: ./bandstop.py <files>") w, 1)
  else
    match run (py_drop 1 argv) w with
    | (w, None) => (w, 0)
    | (w, Some _) => (w, 1)
    end.

End Orchestrator.

(** ** Instances of the libraries' routines, to run the code on inputs *)

Module Reference.

(** An [argpartition]: the indices of [a] sorted by value, equal values in
    index order.  A full sort puts every element in its sorted place. *)
Fixpoint insert_by (a : list Q) (i : nat) (sorted : list nat) : list nat :=
  match sorted with
  | [] => [i]
  | j :: rest =>
      if Qltb (nth i a 0%Q) (nth j a 0%Q) then i :: j :: rest
      else j :: insert_by a i rest
  end.

Definition argsort (a : list Q) (kth : nat) : list nat :=
  fold_left (fun sorted i => insert_by a i sorted) (seq 0 (length a)) [].

(** The magnitude of the transform of a window whose samples are all
    equal: the sum in the first bin, nothing in the others. *)
Definition constant_fft_abs (w : list Z) : list Q :=
  match w with
  | [] => []
  | _ :: t => inject_Z (Z.abs (fold_right Z.add 0 w)) :: repeat 0%Q (length t)
  end.

(** A filter that leaves the signal as it is. *)
Definition allpass_iirnotch (w0 q : Q) : result unit := Ok tt.
Definition allpass_filtfilt (c : unit) (x : list Z) : result (list Z) := Ok x.

(** An [iirnotch] with the checks of SciPy's: a [w0] below 0 or above 1 is
    refused, and the bandwidth [w0/Q] divides by zero when [Q] is zero. *)
Definition checked_iirnotch (w0 q : Q) : result unit :=
  if Qltb w0 0 || Qltb 1 w0 then Raise ValueError
  else if Qeq_bool q 0 then Raise ZeroDivisionError
  else Ok tt.

(** A filter that turns every sample into its opposite. *)
Definition opposite_filtfilt (c : unit) (x : list Z) : result (list Z) :=
  Ok (map Z.opp x).

(** Sixty samples of silence at 2 Hz: three windows of twenty samples. *)
Definition silence_60 : list Z := repeat 0 60.
Definition sound_60 : Sound :=
  {| fs := 2; samples := 60; channels := 1; duration := 30; depth := 16 |}.

(** A sound at 2000 Hz. *)
Definition sound_2000 : Sound :=
  {| fs := 2000; samples := 60; channels := 1; duration := 3 # 100; depth := 16 |}.

(** Forty samples of silence at 2 Hz: two windows. *)
Definition silence_40 : list Z := repeat 0 40.
Definition sound_40 : Sound :=
  {| fs := 2; samples := 40; channels := 1; duration := 20; depth := 16 |}.

(** A [Sound] that takes 16-bit samples only. *)
Definition is_16_bit (x : Z) : bool := (- 2 ^ 15 <=? x) && (x <? 2 ^ 15).

Definition Sound_16 (rate : Z) (snd : @ndarray Z) : result Sound :=
  let columns :=
    match snd with
    | Array1 data => [data]
    | Array2 columns => columns
    end in
  if forallb (forallb is_16_bit) columns
  then
    let n := Z.of_nat (length (hd [] columns)) in
    Ok {| fs := rate; samples := n; channels := Z.of_nat (length columns);
          duration := inject_Z n / inject_Z rate; depth := 16 |}
  else Raise (DepthException "unsupported bit depth").

(** A directory with a file of samples beyond 16 bits and a file of
    silence in two channels. *)
Definition two_files : @World Z :=
  {| files := <["a.wav" := (2, [[100000; -100000]])]>
                {["b.wav" := (2, [silence_40; silence_40])]};
     stdout := [] |}.

(** A spectrum with one plateau, over bins 300..399 of 499. *)
Definition plateau : list Q :=
  repeat 0%Q 300 ++ repeat 5%Q 100 ++ repeat 0%Q 99.

End Reference.

(** ** Definitions the properties are stated with *)

(** What one (falling, rising) pair contributes to [ret]. *)
Definition pair_emit (ind1 ind2 : Z) : list (Z * Z) :=
  if abs64 (sub64 ind1 ind2) <? FREQUENCY_MAXIMUM_DIFFERENTIATING_DIFFERENCE
  then [if ind1 <? ind2 then (ind1, ind2) else (ind2, ind1)]
  else [].

(** The Hz value of a bin and the band of a pair of Hz values, as the
    amended claim C1 words them. *)
Definition hz_of_bin (fs points_per_sample index : Z) : Z :=
  index * fs / points_per_sample.

Definition band_within_50_hz (hz1 hz2 : Z) : list (Z * Z) :=
  if Z.abs (hz1 - hz2) <? 50 then [(Z.min hz1 hz2, Z.max hz1 hz2)] else [].

(** *** The aggregator on values

    [final] read through the array: every entry with the contents of its row. *)
Definition view (arr : list row) (final : list cluster) : list (row * Z) :=
  map (fun f => (arr !!! data f, count f)) final.

Definition value_favg (v : row * Z) : Q :=
  fdiv (of_int64 (add64 v.1.1 v.1.2)) (of_int64 (2 * v.2)).

(** [place] on values: the first entry close to [avg] takes the row [c]. *)
Fixpoint value_place (c : row) (avg : Q) (final : list (row * Z))
  : option (list (row * Z)) :=
  match final with
  | [] => None
  | v :: rest =>
      if close_to avg (value_favg v)
      then Some ((add64 v.1.1 c.1, add64 v.1.2 c.2, v.2 + 1) :: rest)
      else rest' ← value_place c avg rest; Some (v :: rest')
  end.

Definition value_step (final : list (row * Z)) (c : row) : list (row * Z) :=
  match value_place c (avg_of c) final with
  | Some final' => final'
  | None => final ++ [(c, 1)]
  end.

Definition value_band (v : row * Z) : Q * Q :=
  (fdiv (of_int64 v.1.1) (of_int64 v.2), fdiv (of_int64 v.1.2) (of_int64 v.2)).

Definition value_confirm_step (ret : list (Q * Q)) (v : row * Z) : list (Q * Q) :=
  if FREQUENCY_MINIMUM_COUNT <? v.2 then ret ++ [value_band v] else ret.

(** Sums and means of the bounds of a group of candidates: the mean is the
    sum divided by the size, the quotient being the float64 one. *)
Definition sum_low (g : list row) : Z := fold_right Z.add 0 (map fst g).
Definition sum_high (g : list row) : Z := fold_right Z.add 0 (map snd g).

Definition mean_band (g : list row) : Q * Q :=
  (fdiv (of_int64 (sum_low g)) (of_int64 (Z.of_nat (length g))),
   fdiv (of_int64 (sum_high g)) (of_int64 (Z.of_nat (length g)))).

(** The candidates of a channel that 64-bit sums cannot overflow on. *)
Definition bounded_row (B : Z) (c : row) : Prop :=
  - B <= c.1 <= B /\ - B <= c.2 <= B.

Definition in_range (cand : list row) : Prop :=
  Forall (bounded_row (2 ^ 31)) cand /\ Z.of_nat (length cand) <= 2 ^ 30.

(** A value-level entry that holds the sums and the size of a group. *)
Definition sums_group (v : row * Z) (g : list row) : Prop :=
  g <> [] /\ v = (sum_low g, sum_high g, Z.of_nat (length g)).

(** The expansion of one candidate, as the claims word it. *)
Definition expanded (m : Z) (c : row) : row := (c.1 - m, c.2 + m).

Definition groups_within (B : Z) (final : list (row * Z)) (groups : list (list row))
  : Prop :=
  Forall2 sums_group final groups /\ Forall (Forall (bounded_row B)) groups.

(** The midpoint of a row. *)
Definition midpoint (c : row) : Q := inject_Z (c.1 + c.2) / 2.

(** An ordered candidate. *)
Definition ordered (c : row) : Prop := c.1 <= c.2.

(** The channels of an array that [parse] can be given: the columns of a
    two-dimensional array; a one-dimensional array has none. *)
Definition columns_of {sample : Type} (snd : @ndarray sample) : list (list sample) :=
  match snd with
  | Array1 _ => []
  | Array2 columns => columns
  end.

(** The world [w] with the lines [pre] printed before its own. *)
Definition logged {sample : Type} (pre : list (@line sample)) (w : @World sample)
  : @World sample :=
  {| files := files w; stdout := pre ++ stdout w |}.

(** The candidates counted by the entries of [final]. *)
Definition total_count (final : list cluster) : Z :=
  fold_right Z.add 0 (map count final).

(** A candidate as the pairing loop emits it: its two values passed the
    test [abs(ind1 - ind2) < 50], in one order or the other. *)
Definition paired (c : row) : Prop :=
  abs64 (sub64 c.1 c.2) < FREQUENCY_MAXIMUM_DIFFERENTIATING_DIFFERENCE
  \/ abs64 (sub64 c.2 c.1) < FREQUENCY_MAXIMUM_DIFFERENTIATING_DIFFERENCE.

(** An entry over expanded rows beside the entry over the rows as they
    came: the same count, and sums moved by the margin once per row. *)
Definition margin_rel (v0 v : row * Z) : Prop :=
  v.2 = v0.2
  /\ v.1.1 = v0.1.1 - FREQUENCY_BANDSTOP_MARGIN * v0.2
  /\ v.1.2 = v0.1.2 + FREQUENCY_BANDSTOP_MARGIN * v0.2.

(** An entry of at most [n] rows within 32-bit bounds. *)
Definition within (n : Z) (v0 : row * Z) : Prop :=
  1 <= v0.2 <= n
  /\ - (v0.2 * 2 ^ 31) <= v0.1.1 <= v0.2 * 2 ^ 31
  /\ - (v0.2 * 2 ^ 31) <= v0.1.2 <= v0.2 * 2 ^ 31.

(** * Properties *)

(** ** 64-bit arithmetic without overflow *)

Lemma wrap64_small (z : Z) : in_int64 z -> wrap64 z = z.
Proof.
  unfold in_int64, wrap64. intros Hz.
  rewrite Z.mod_small; lia.
Qed.

Lemma add64_small (a b : Z) : in_int64 (a + b) -> add64 a b = a + b.
Proof. apply wrap64_small. Qed.

Lemma sub64_small (a b : Z) : in_int64 (a - b) -> sub64 a b = a - b.
Proof. apply wrap64_small. Qed.

Lemma normalize_small (fs pps i : Z) :
  0 < pps -> 0 <= fs -> 0 <= i -> i * fs < 2 ^ 63 ->
  normalize fs pps i = i * fs / pps /\ 0 <= i * fs / pps < 2 ^ 63.
Proof.
  intros Hp Hf Hi Hb. unfold normalize, floordiv64, mul64.
  assert (Hm : 0 <= i * fs) by nia.
  rewrite (wrap64_small (i * fs)) by (unfold in_int64; lia).
  destruct (Z.eqb_spec pps 0) as [->|_]; [lia|].
  assert (Hq : 0 <= i * fs / pps) by (apply Z.div_pos; lia).
  assert (Hq' : i * fs / pps <= i * fs) by (apply Z.div_le_upper_bound; nia).
  rewrite wrap64_small by (unfold in_int64; lia). lia.
Qed.

Lemma abs64_sub64_small (a b : Z) :
  0 <= a < 2 ^ 63 -> 0 <= b < 2 ^ 63 -> abs64 (sub64 a b) = Z.abs (a - b).
Proof.
  intros Ha Hb. unfold abs64.
  rewrite sub64_small by (unfold in_int64; lia).
  apply wrap64_small. unfold in_int64. lia.
Qed.

(** ** Rounding to float64 *)

Lemma round_half_even_near (x : Q) :
  (Qabs (inject_Z (round_half_even x) - x) <= 1 # 2)%Q.
Proof.
  unfold round_half_even.
  pose proof (Qfloor_le x) as Hlo. pose proof (Qlt_floor x) as Hhi.
  set (f := Qfloor x) in *.
  rewrite inject_Z_plus in Hhi. change (inject_Z 1) with 1%Q in Hhi.
  assert (Hup : forall c, (x - inject_Z f ?= 1 # 2)%Q = c -> c <> Lt ->
            (Qabs (inject_Z (f + 1) - x) <= 1 # 2)%Q).
  { intros c Hc Hne. apply Qabs_Qle_condition. rewrite inject_Z_plus.
    change (inject_Z 1) with 1%Q.
    assert (Hge : (1 # 2 <= x - inject_Z f)%Q).
    { destruct c; [apply Qeq_alt in Hc; rewrite Hc; apply Qle_refl | contradiction |].
      apply Qgt_alt in Hc. now apply Qlt_le_weak. }
    split; lra. }
  assert (Hdown : forall c, (x - inject_Z f ?= 1 # 2)%Q = c -> c <> Gt ->
            (Qabs (inject_Z f - x) <= 1 # 2)%Q).
  { intros c Hc Hne. apply Qabs_Qle_condition.
    assert (Hle : (x - inject_Z f <= 1 # 2)%Q).
    { destruct c; [apply Qeq_alt in Hc; rewrite Hc; apply Qle_refl | | contradiction].
      apply Qlt_alt in Hc. now apply Qlt_le_weak. }
    split; lra. }
  destruct (x - inject_Z f ?= 1 # 2)%Q eqn:Hc.
  - destruct (Z.even f); [apply (Hdown Eq) | apply (Hup Eq)]; congruence.
  - apply (Hdown Lt); congruence.
  - apply (Hup Gt); congruence.
Qed.

Lemma round_half_even_Z (z : Z) : round_half_even (inject_Z z) = z.
Proof.
  unfold round_half_even. rewrite Qfloor_Z.
  replace (inject_Z z - inject_Z z ?= 1 # 2)%Q with Lt; [reflexivity|].
  symmetry. apply Qlt_alt. unfold Qminus. now rewrite Qplus_opp_r.
Qed.

#[export] Instance round_half_even_proper : Proper (Qeq ==> eq) round_half_even.
Proof.
  intros x y H. unfold round_half_even. rewrite (Qfloor_comp x y H).
  assert (E : (x - inject_Z (Qfloor y) ?= 1 # 2)%Q
              = (y - inject_Z (Qfloor y) ?= 1 # 2)%Q).
  { apply Qcompare_comp; [now rewrite H | reflexivity]. }
  now rewrite E.
Qed.

Lemma pow2_pos (k : Z) : (0 < 2 ^ k)%Q.
Proof. now apply Qpower_0_lt. Qed.

Lemma pow2_nonneg (k : Z) : 0 <= k -> (2 ^ k == inject_Z (2 ^ k))%Q.
Proof. intros Hk. now rewrite Zpower_Qpower. Qed.

(** [2 ^ (a - b)] as a quotient, for [a] and [b] that are not negative. *)
Lemma pow2_sub (a b : Z) :
  0 <= a -> 0 <= b -> (2 ^ (a - b) == inject_Z (2 ^ a) / inject_Z (2 ^ b))%Q.
Proof.
  intros Ha Hb. unfold Z.sub. rewrite Qpower_plus by discriminate.
  rewrite Qpower_opp, !pow2_nonneg by assumption. reflexivity.
Qed.

Lemma exponent_spec (x : Q) :
  (0 < x)%Q -> (2 ^ exponent x <= x /\ x < 2 ^ (exponent x + 1))%Q.
Proof.
  intros Hx. unfold exponent.
  destruct x as [n d]. unfold Qlt in Hx. simpl in Hx. rewrite Z.mul_1_r in Hx.
  cbn [Qnum Qden].
  pose proof (Z.log2_spec n Hx) as [Hn1 Hn2].
  pose proof (Z.log2_spec (Zpos d) (Pos2Z.is_pos d)) as [Hd1 Hd2].
  pose proof (Z.log2_nonneg n) as Ha. pose proof (Z.log2_nonneg (Zpos d)) as Hb.
  set (a := Z.log2 n) in *. set (b := Z.log2 (Zpos d)) in *.
  assert (Hp : forall z, 0 <= z -> 0 < 2 ^ z) by (intros z Hz; apply Z.pow_pos_nonneg; lia).
  destruct (Qle_bool (2 ^ (a - b)) (n # d)) eqn:Ht.
  - apply Qle_bool_iff in Ht. split; [exact Ht|].
    replace (a - b + 1) with (Z.succ a - b) by lia.
    rewrite pow2_sub by lia.
    apply Qlt_shift_div_l;
      [change 0%Q with (inject_Z 0); rewrite <- Zlt_Qlt; apply Hp; lia|].
    unfold Qlt, Qmult, inject_Z. cbn [Qnum Qden].
    rewrite Pos.mul_1_r, Z.pow_succ_r in * by lia.
    pose proof (Hp b Hb). pose proof (Hp a Ha). nia.
  - assert (Hlt : (n # d < 2 ^ (a - b))%Q).
    { apply Qnot_le_lt. intros H. apply Qle_bool_iff in H. congruence. }
    replace (a - b - 1 + 1) with (a - b) by lia. split; [|exact Hlt].
    replace (a - b - 1) with (a - Z.succ b) by lia.
    rewrite pow2_sub by lia.
    apply Qle_shift_div_r;
      [change 0%Q with (inject_Z 0); rewrite <- Zlt_Qlt; apply Hp; lia|].
    unfold Qle, Qmult, inject_Z. cbn [Qnum Qden].
    rewrite Pos.mul_1_r, Z.pow_succ_r in * by lia.
    pose proof (Hp b Hb). pose proof (Hp a Ha). nia.
Qed.

Lemma exponent_unique (x : Q) (e : Z) :
  (2 ^ e <= x)%Q -> (x < 2 ^ (e + 1))%Q -> exponent x = e.
Proof.
  intros Hlo Hhi.
  assert (Hx : (0 < x)%Q) by (eapply Qlt_le_trans; [apply (pow2_pos e) | exact Hlo]).
  destruct (exponent_spec x Hx) as [Hlo' Hhi'].
  assert (H1 : exponent x < e + 1).
  { apply (Qpower_lt_compat_l_inv 2); [|reflexivity].
    eapply Qle_lt_trans; [exact Hlo' | exact Hhi]. }
  assert (H2 : e < exponent x + 1).
  { apply (Qpower_lt_compat_l_inv 2); [|reflexivity].
    eapply Qle_lt_trans; [exact Hlo | exact Hhi']. }
  lia.
Qed.

#[export] Instance round64_proper : Proper (Qeq ==> eq) round64.
Proof. intros x y H. unfold round64. now rewrite (Qred_complete x y H). Qed.

#[export] Instance round64_compat : Proper (Qeq ==> Qeq) round64.
Proof. intros x y H. now rewrite (round64_proper x y H). Qed.

Lemma exponent_Qeq (x y : Q) : (0 < x)%Q -> (x == y)%Q -> exponent x = exponent y.
Proof.
  intros Hx H. symmetry. apply exponent_unique; rewrite <- H; now apply exponent_spec.
Qed.

Lemma Qabs_nonzero (x : Q) : ~ (x == 0)%Q -> (0 < Qabs x)%Q.
Proof.
  intros Hx. destruct (Qlt_le_dec 0 (Qabs x)) as [H|H]; [exact H|].
  exfalso. apply Hx. apply Qabs_Qle_condition in H. destruct H. lra.
Qed.

(** The value of [round64 x], before it is reduced. *)
Lemma round64_value (x : Q) :
  ~ (x == 0)%Q ->
  (round64 x ==
   inject_Z (round_half_even (x / 2 ^ (exponent (Qabs x) - 52)))
   * 2 ^ (exponent (Qabs x) - 52))%Q.
Proof.
  intros Hx. unfold round64.
  destruct (Qeq_bool (Qred x) 0) eqn:H0.
  - apply Qeq_bool_iff in H0. rewrite Qred_correct in H0. contradiction.
  - rewrite Qred_correct.
    assert (He : exponent (Qabs (Qred x)) = exponent (Qabs x)).
    { apply exponent_Qeq; [|now rewrite Qred_correct].
      apply Qabs_nonzero. now rewrite Qred_correct. }
    rewrite He. now rewrite (Qred_correct x).
Qed.

Lemma round64_zero (x : Q) : (x == 0)%Q -> round64 x = 0%Q.
Proof. intros H. now rewrite H. Qed.

(** The rounding changes a number by a half unit in the last place at
    most: by less than one part in [2 ^ 53]. *)
Lemma round64_error (x : Q) :
  (Qabs (round64 x - x) <= Qabs x * (1 # 2 ^ 53))%Q.
Proof.
  destruct (Qeq_dec x 0) as [H0|H0].
  - rewrite (round64_zero x H0), H0. discriminate.
  - rewrite (round64_value x H0).
    destruct (exponent_spec (Qabs x) (Qabs_nonzero x H0)) as [Hlo _].
    set (e := exponent (Qabs x)) in *.
    pose proof (pow2_pos (e - 52)) as Hu.
    pose proof (round_half_even_near (x / 2 ^ (e - 52))) as Hr.
    set (m := round_half_even (x / 2 ^ (e - 52))) in *.
    assert (E : (inject_Z m * 2 ^ (e - 52) - x
                 == (inject_Z m - x / 2 ^ (e - 52)) * 2 ^ (e - 52))%Q).
    { field. intros H. rewrite H in Hu. discriminate. }
    rewrite E, Qabs_Qmult, (Qabs_pos (2 ^ (e - 52))) by now apply Qlt_le_weak.
    assert (Ee : (2 ^ e == 2 ^ (e - 52) * 2 ^ 52)%Q).
    { rewrite <- Qpower_plus by discriminate. now replace (e - 52 + 52) with e by lia. }
    rewrite Ee in Hlo.
    apply Qle_trans with ((1 # 2) * 2 ^ (e - 52))%Q.
    + apply Qmult_le_compat_r; [exact Hr | now apply Qlt_le_weak].
    + apply Qle_trans with (2 ^ (e - 52) * 2 ^ 52 * (1 # 2 ^ 53))%Q.
      * rewrite <- Qmult_assoc.
        assert (Eh : (2 ^ 52 * (1 # 2 ^ 53) == 1 # 2)%Q) by reflexivity.
        rewrite Eh, Qmult_comm. apply Qle_refl.
      * apply Qmult_le_compat_r; [exact Hlo | discriminate].
Qed.

(** A number of at most 53 significant bits is a float64: the rounding
    leaves it as it is. *)
Lemma round64_exact (m k : Z) :
  Z.abs m < 2 ^ 53 -> (round64 (inject_Z m * 2 ^ k) == inject_Z m * 2 ^ k)%Q.
Proof.
  intros Hm. set (x := (inject_Z m * 2 ^ k)%Q).
  pose proof (pow2_pos k) as Hk.
  destruct (Z.eq_dec m 0) as [->|Hm0].
  - rewrite round64_zero; unfold x; ring.
  - assert (H0 : ~ (x == 0)%Q).
    { unfold x. intros H. apply Qmult_integral in H as [H|H].
      - apply Hm0. now apply (inject_Z_injective m 0).
      - rewrite H in Hk. discriminate. }
    rewrite (round64_value x H0).
    destruct (exponent_spec (Qabs x) (Qabs_nonzero x H0)) as [Hlo _].
    set (e := exponent (Qabs x)) in *.
    assert (He : e < 53 + k).
    { apply (Qpower_lt_compat_l_inv 2); [|reflexivity].
      eapply Qle_lt_trans; [exact Hlo|]. unfold x.
      rewrite Qabs_Qmult, (Qabs_pos (2 ^ k)) by now apply Qlt_le_weak.
      rewrite Qpower_plus by discriminate.
      apply Qmult_lt_compat_r; [exact Hk|].
      rewrite pow2_nonneg by lia.
      change (Qabs (inject_Z m)) with (inject_Z (Z.abs m)). now rewrite <- Zlt_Qlt. }
    pose proof (pow2_pos (e - 52)) as Hu.
    assert (Hs : (x / 2 ^ (e - 52) == inject_Z (m * 2 ^ (k - (e - 52))))%Q).
    { rewrite inject_Z_mult, <- pow2_nonneg by lia. unfold x.
      assert (Ek : (2 ^ k == 2 ^ (k - (e - 52)) * 2 ^ (e - 52))%Q).
      { rewrite <- Qpower_plus by discriminate.
        now replace (k - (e - 52) + (e - 52)) with k by lia. }
      rewrite Ek. generalize (2 ^ (k - (e - 52)))%Q. revert Hu.
      generalize (2 ^ (e - 52))%Q. intros u Hu p.
      field. intros H. rewrite H in Hu. discriminate. }
    rewrite Hs, round_half_even_Z, inject_Z_mult, <- pow2_nonneg by lia.
    unfold x. rewrite <- Qmult_assoc, <- Qpower_plus by discriminate.
    now replace (k - (e - 52) + (e - 52)) with k by lia.
Qed.

Lemma of_int64_exact (z : Z) : Z.abs z < 2 ^ 53 -> (of_int64 z == inject_Z z)%Q.
Proof.
  intros Hz. unfold of_int64. rewrite <- (Qmult_1_r (inject_Z z)) at 1.
  change 1%Q with (2 ^ 0)%Q at 1. rewrite (round64_exact z 0 Hz).
  change (2 ^ 0)%Q with 1%Q. apply Qmult_1_r.
Qed.

(** Halving is exact. *)
Lemma round64_half (z : Z) :
  Z.abs z < 2 ^ 53 -> (round64 (inject_Z z / 2) == inject_Z z / 2)%Q.
Proof.
  intros Hz.
  assert (E : (inject_Z z / 2 == inject_Z z * 2 ^ (-1))%Q) by reflexivity.
  rewrite E. now apply round64_exact.
Qed.

Lemma round64_abs_error (x B : Q) :
  (Qabs x <= B)%Q -> (Qabs (round64 x - x) <= B * (1 # 2 ^ 53))%Q.
Proof.
  intros H. eapply Qle_trans; [apply round64_error|].
  apply Qmult_le_compat_r; [exact H | discriminate].
Qed.

(** The quotient of two integers as NumPy computes it: both are converted
    to float64 and divided there.  It is the exact quotient up to a few
    parts in [2 ^ 53]. *)
Lemma fdiv_int_error (s n B : Z) :
  0 < n < 2 ^ 53 -> Z.abs s <= n * B ->
  (Qabs (fdiv (of_int64 s) (of_int64 n) - inject_Z s / inject_Z n)
   <= inject_Z B * (1 # 2 ^ 51))%Q.
Proof.
  intros Hn Hs. unfold fdiv.
  rewrite (of_int64_exact n) by lia.
  assert (HN : (0 < inject_Z n)%Q).
  { change 0%Q with (inject_Z 0). rewrite <- Zlt_Qlt. lia. }
  assert (HS : (Qabs (inject_Z s) <= inject_Z n * inject_Z B)%Q).
  { change (Qabs (inject_Z s)) with (inject_Z (Z.abs s)).
    rewrite <- inject_Z_mult, <- Zle_Qle. exact Hs. }
  assert (HB : (0 <= inject_Z B)%Q).
  { change 0%Q with (inject_Z 0). rewrite <- Zle_Qle. nia. }
  pose proof (round64_abs_error (inject_Z s) _ HS) as Ha. fold (of_int64 s) in Ha.
  revert HN HS HB Ha. generalize (of_int64 s) (inject_Z s) (inject_Z n) (inject_Z B).
  intros a S N b HN HS HB Ha.
  change (2 ^ 53)%positive with 9007199254740992%positive in *.
  change (2 ^ 51)%positive with 2251799813685248%positive.
  assert (E1 : (a / N - S / N == (a - S) / N)%Q) by (field; lra).
  assert (H1 : (Qabs (a / N - S / N) <= b * (1 # 9007199254740992))%Q).
  { rewrite E1. unfold Qdiv. rewrite Qabs_Qmult, Qabs_Qinv, (Qabs_pos N) by lra.
    apply Qle_shift_div_r; [exact HN|].
    eapply Qle_trans; [exact Ha|]. apply Qle_lteq. right. ring. }
  assert (H2 : (Qabs (S / N) <= b)%Q).
  { unfold Qdiv. rewrite Qabs_Qmult, Qabs_Qinv, (Qabs_pos N) by lra.
    apply Qle_shift_div_r; [exact HN|].
    eapply Qle_trans; [exact HS|]. apply Qle_lteq. right. ring. }
  assert (H3 : (Qabs (a / N) <= b * (1 + (1 # 9007199254740992)))%Q).
  { apply Qabs_Qle_condition in H2. apply Qabs_diff_Qle_condition in H1.
    apply Qabs_Qle_condition. lra. }
  pose proof (round64_abs_error (a / N) _ H3) as H4.
  change (2 ^ 53)%positive with 9007199254740992%positive in H4.
  fold (Qdiv a N) in H4.
  apply Qabs_diff_Qle_condition in H1. apply Qabs_diff_Qle_condition in H4.
  apply Qabs_diff_Qle_condition. lra.
Qed.

(** ** The candidate band extractor *)

Lemma inner_loop_flat_map (ind1 : Z) (low_ind : list Z) (ret : list (Z * Z)) :
  fold_left (pair_step ind1) low_ind ret = ret ++ flat_map (pair_emit ind1) low_ind.
Proof.
  revert ret. induction low_ind as [|ind2 low_ind IH]; intros ret; simpl.
  - now rewrite app_nil_r.
  - rewrite IH. unfold pair_step, pair_emit.
    destruct (_ <? FREQUENCY_MAXIMUM_DIFFERENTIATING_DIFFERENCE); simpl.
    + now rewrite <- app_assoc.
    + reflexivity.
Qed.

Lemma pair_loop_flat_map (high_ind low_ind : list Z) :
  pair_loop high_ind low_ind =
  flat_map (fun ind1 => flat_map (pair_emit ind1) low_ind) high_ind.
Proof.
  unfold pair_loop.
  enough (H : forall ret,
    fold_left (fun ret ind1 => fold_left (pair_step ind1) low_ind ret) high_ind ret =
    ret ++ flat_map (fun ind1 => flat_map (pair_emit ind1) low_ind) high_ind)
    by apply (H []).
  induction high_ind as [|ind1 high_ind IH]; intros ret; simpl.
  - now rewrite app_nil_r.
  - rewrite IH, inner_loop_flat_map. now rewrite <- app_assoc.
Qed.

Lemma flat_map_map {A B C} (f : B -> list C) (g : A -> B) (l : list A) :
  flat_map f (map g l) = flat_map (fun x => f (g x)) l.
Proof. induction l as [|x l IH]; simpl; [reflexivity | now rewrite IH]. Qed.

Lemma flat_map_ext_Forall {A B} (P : A -> Prop) (f g : A -> list B) (l : list A) :
  Forall P l -> (forall x, P x -> f x = g x) -> flat_map f l = flat_map g l.
Proof.
  intros Hl Hfg. induction Hl as [|x l Hx _ IH]; simpl; [reflexivity|].
  now rewrite IH, Hfg.
Qed.

(** Every candidate is ordered. *)
Lemma pair_loop_ordered (high_ind low_ind : list Z) :
  Forall (fun c : Z * Z => c.1 <= c.2) (pair_loop high_ind low_ind).
Proof.
  rewrite pair_loop_flat_map, List.Forall_forall. intros c Hc.
  apply in_flat_map in Hc as (ind1 & _ & Hc).
  apply in_flat_map in Hc as (ind2 & _ & Hc).
  unfold pair_emit in Hc.
  destruct (_ <? FREQUENCY_MAXIMUM_DIFFERENTIATING_DIFFERENCE); [|contradiction].
  destruct Hc as [<-|[]]. destruct (Z.ltb_spec ind1 ind2); simpl; lia.
Qed.

(** C1, as the code has it: for every selected (falling-edge, rising-edge)
    pair of bins, taken in the order of the two loops, one candidate ordered
    (min, max) is emitted exactly when the absolute difference of the two
    values after their conversion to Hz is strictly less than 50.  The bins
    are those of a spectrum: not negative, and small enough for
    [index * fs] to fit 64 bits. *)
Theorem pair_outstanding_compares_hz (fs points_per_sample : Z)
    (low_ind high_ind : list Z) :
  0 < points_per_sample -> 0 <= fs ->
  Forall (fun i => 0 <= i /\ i * fs < 2 ^ 63) low_ind ->
  Forall (fun i => 0 <= i /\ i * fs < 2 ^ 63) high_ind ->
  let emitted :=
    flat_map (fun falling =>
      flat_map (fun rising =>
        band_within_50_hz (hz_of_bin fs points_per_sample falling)
                          (hz_of_bin fs points_per_sample rising))
        low_ind)
      high_ind in
  pair_outstanding fs points_per_sample low_ind high_ind = emitted
  /\ forall argpartition data,
       select_outstanding argpartition data points_per_sample
         = Ok (low_ind, high_ind) ->
       find_outstanding_frequencies argpartition data fs points_per_sample
         = Ok emitted.
Proof.
  intros Hp Hf Hlow Hhigh emitted.
  assert (H : pair_outstanding fs points_per_sample low_ind high_ind = emitted).
  { unfold pair_outstanding, emitted.
    rewrite pair_loop_flat_map, flat_map_map.
    apply (flat_map_ext_Forall _ _ _ _ Hhigh). intros i1 [Hi1 Hb1].
    rewrite flat_map_map.
    apply (flat_map_ext_Forall _ _ _ _ Hlow). intros i2 [Hi2 Hb2].
    destruct (normalize_small fs points_per_sample i1 Hp Hf Hi1 Hb1) as [-> R1].
    destruct (normalize_small fs points_per_sample i2 Hp Hf Hi2 Hb2) as [-> R2].
    unfold pair_emit, band_within_50_hz, hz_of_bin,
      FREQUENCY_MAXIMUM_DIFFERENTIATING_DIFFERENCE.
    rewrite abs64_sub64_small by assumption.
    destruct (_ <? 50); [|reflexivity].
    destruct (Z.ltb_spec (i1 * fs / points_per_sample) (i2 * fs / points_per_sample)).
    - now rewrite Z.min_l, Z.max_r by lia.
    - now rewrite Z.min_r, Z.max_l by lia. }
  split; [exact H|].
  intros argpartition data Hsel. unfold find_outstanding_frequencies.
  rewrite Hsel. cbn [mbind result_bind]. now rewrite H.
Qed.

Lemma pair_outstanding_compares_hz_witness :
  let emitted :=
    flat_map (fun falling =>
      flat_map (fun rising =>
        band_within_50_hz (hz_of_bin 100 1000 falling) (hz_of_bin 100 1000 rising))
        [496; 497; 299])
      [496; 497; 399] in
  pair_outstanding 100 1000 [496; 497; 299] [496; 497; 399] = emitted
  /\ forall argpartition data,
       select_outstanding argpartition data 1000
         = Ok ([496; 497; 299], [496; 497; 399]) ->
       find_outstanding_frequencies argpartition data 100 1000 = Ok emitted.
Proof.
  apply pair_outstanding_compares_hz; try lia; repeat constructor; lia.
Defined.

(** C1 as the spec words it fails: bins 399 (falling) and 299 (rising) of the
    plateau spectrum are selected, they are 100 bins apart, and the candidate
    (29, 39) is emitted for them (the last of the nine). *)
Lemma bins_100_apart_are_paired :
  select_outstanding Reference.argsort Reference.plateau 1000
    = Ok ([496; 497; 299], [496; 497; 399])
  /\ find_outstanding_frequencies Reference.argsort Reference.plateau 100 1000
    = Ok [(49, 49); (49, 49); (29, 49); (49, 49); (49, 49); (29, 49);
          (39, 49); (39, 49); (29, 39)]
  /\ pair_outstanding 100 1000 [299] [399] = [(29, 39)]
  /\ ~ Z.abs (399 - 299) < 50.
Proof.
  split; [vm_compute; reflexivity|].
  split; [vm_compute; reflexivity|].
  split; [vm_compute; reflexivity | lia].
Qed.

(** ** The band cluster aggregator *)

(** *** The rows that [final] views are never read again

    The entries of [final] hold views of rows of the array the loop runs
    over, and [+=] writes through them.  A row is written only after the
    loop has passed it, so every row is read with the value it had at the
    start, and the loop computes what its value-level reading computes. *)

Lemma favg_of_view (arr : list row) (f : cluster) :
  favg_of arr f = value_favg (arr !!! data f, count f).
Proof. reflexivity. Qed.

Lemma view_insert_fresh (arr : list row) (final : list cluster) (i : nat) (x : row) :
  i ∉ map data final -> view (<[i := x]> arr) final = view arr final.
Proof.
  intros Hi. unfold view. apply map_ext_in. intros f Hf.
  rewrite list_lookup_total_insert_ne; [reflexivity|].
  intros ->. apply Hi, list_elem_of_In, in_map, Hf.
Qed.

Lemma place_view (arr : list row) (j : nat) (avg : Q) (final : list cluster) :
  NoDup (map data final) ->
  (forall i, i ∈ map data final -> (i < length arr)%nat) ->
  match place arr j avg final with
  | None => value_place (arr !!! j) avg (view arr final) = None
  | Some (arr', final') =>
      value_place (arr !!! j) avg (view arr final) = Some (view arr' final')
      /\ length arr' = length arr
      /\ map data final' = map data final
      /\ (forall i, i ∉ map data final -> arr' !! i = arr !! i)
  end.
Proof.
  induction final as [|f rest IH]; intros Hnd Hlt; [reflexivity|].
  simpl in Hnd. apply NoDup_cons in Hnd as [Hf Hnd].
  cbn [place view map value_place]. rewrite favg_of_view.
  destruct (close_to avg (value_favg (arr !!! data f, count f))) eqn:Hc.
  - cbn [view map data count]. split; [|split; [|split]].
    + rewrite list_lookup_total_insert_eq by (apply Hlt; simpl; left).
      do 2 f_equal. symmetry. exact (view_insert_fresh arr rest (data f) _ Hf).
    + apply length_insert.
    + reflexivity.
    + intros i Hi. apply list_lookup_insert_ne. intros Heq.
      apply Hi. rewrite Heq. simpl. left.
  - specialize (IH Hnd (fun i Hi => Hlt i (list_elem_of_further _ _ _ Hi))).
    fold (view arr rest).
    destruct (place arr j avg rest) as [[arr' rest']|]; cbn [mbind option_bind].
    + destruct IH as (IH & Hlen & Hdata & Hframe). rewrite IH.
      cbn [mbind option_bind view map].
      split; [|split; [|split]].
      * rewrite !list_lookup_total_alt, (Hframe (data f) Hf). reflexivity.
      * exact Hlen.
      * now rewrite Hdata.
      * intros i Hi. apply Hframe. intros Hi'. apply Hi. simpl. now right.
    + now rewrite IH.
Qed.

Lemma cluster_loop_from (arr0 : list row) (m k : nat) (arr : list row)
    (final : list cluster) :
  length arr = length arr0 ->
  (forall i, (k <= i)%nat -> arr !! i = arr0 !! i) ->
  NoDup (map data final) ->
  (forall i, i ∈ map data final -> (i < k)%nat) ->
  (k + m <= length arr0)%nat ->
  let st := fold_left cluster_step (seq k m) (arr, final) in
  view st.1 st.2 =
  fold_left value_step (firstn m (skipn k arr0)) (view arr final).
Proof.
  revert k arr final. induction m as [|m IH]; intros k arr final Hlen Hrest Hnd Hlt Hk.
  - reflexivity.
  - assert (Hk0 : is_Some (arr0 !! k)) by (apply lookup_lt_is_Some; lia).
    destruct Hk0 as [c Hc].
    assert (Hc' : arr !!! k = c).
    { rewrite list_lookup_total_alt, Hrest, Hc by lia. reflexivity. }
    rewrite (drop_S _ _ _ Hc). cbn [seq firstn fold_left]. cbn zeta.
    assert (Hfresh : forall i, i ∈ map data final -> (i < length arr)%nat).
    { intros i Hi. apply Hlt in Hi. lia. }
    pose proof (place_view arr k (avg_of (arr !!! k)) final Hnd Hfresh) as Hp.
    remember (cluster_step (arr, final) k) as st1 eqn:Hst.
    unfold cluster_step in Hst. unfold value_step at 2.
    rewrite Hc' in *.
    destruct (place arr k (avg_of c) final) as [[arr' final']|]; subst st1.
    + destruct Hp as (Hv & Hlen' & Hdata & Hframe).
      rewrite Hv. apply IH.
      * congruence.
      * intros i Hi. rewrite Hframe, Hrest by (try lia; intros H; apply Hlt in H; lia).
        reflexivity.
      * now rewrite Hdata.
      * rewrite Hdata. intros i Hi. apply Hlt in Hi. lia.
      * lia.
    + rewrite Hp.
      replace (view arr final ++ [(c, 1)])
        with (view arr (final ++ [{| data := k; count := 1 |}])).
      2:{ unfold view. rewrite map_app. cbn [map data count]. now rewrite Hc'. }
      apply IH.
      * exact Hlen.
      * intros i Hi. apply Hrest. lia.
      * rewrite map_app. simpl. apply NoDup_app. repeat split.
        -- exact Hnd.
        -- intros i Hi Hi'. apply list_elem_of_singleton in Hi'. subst i.
           apply Hlt in Hi. lia.
        -- apply NoDup_singleton.
      * rewrite map_app. simpl. intros i Hi.
        apply elem_of_app in Hi as [Hi|Hi].
        -- apply Hlt in Hi. lia.
        -- apply list_elem_of_singleton in Hi. lia.
      * lia.
Qed.

(** The loop at every point: after [k] rows, [final] read through the array
    is the value-level clustering of the first [k] rows. *)
Lemma cluster_steps_view (candidates : list row) (k : nat) :
  (k <= length candidates)%nat ->
  let st := fold_left cluster_step (seq 0 k) (candidates, []) in
  view st.1 st.2 = fold_left value_step (firstn k candidates) [].
Proof.
  intros Hk.
  apply (cluster_loop_from candidates k 0 candidates []); try easy.
  apply NoDup_nil_2.
Qed.

Lemma confirm_view (arr : list row) (final : list cluster) (ret : list (Q * Q)) :
  fold_left (confirm_step arr) final ret =
  fold_left value_confirm_step (view arr final) ret.
Proof.
  revert ret. induction final as [|f final IH]; intros ret; [reflexivity|].
  simpl. rewrite <- IH. reflexivity.
Qed.

Lemma extract_bandstop_frequencies_values (c : row) (cand : list row) :
  extract_bandstop_frequencies (c :: cand) =
  Ok (fold_left value_confirm_step
        (fold_left value_step (expand (c :: cand)) []) []).
Proof.
  unfold extract_bandstop_frequencies, confirmed, cluster_loop.
  pose proof (cluster_steps_view (expand (c :: cand))
                (length (expand (c :: cand))) (le_n _)) as H.
  destruct (fold_left cluster_step _ _) as [arr final]. simpl in H.
  rewrite firstn_all in H. cbn [fst snd]. now rewrite confirm_view, H.
Qed.

(** *** The margin *)

Lemma expand_small (cand : list row) :
  Forall (bounded_row (2 ^ 31)) cand ->
  expand cand = map (expanded FREQUENCY_BANDSTOP_MARGIN) cand.
Proof.
  intros H. unfold expand. rewrite map_map.
  apply map_ext_in. intros [lo hi] Hc.
  rewrite List.Forall_forall in H. destruct (H _ Hc) as [Hlo Hhi]. simpl in *.
  unfold expanded, FREQUENCY_BANDSTOP_MARGIN. simpl.
  rewrite add64_small, sub64_small; unfold in_int64; try lia.
  reflexivity.
Qed.

Lemma expanded_bounded (cand : list row) :
  Forall (bounded_row (2 ^ 31)) cand ->
  Forall (bounded_row (2 ^ 31 + 50)) (map (expanded FREQUENCY_BANDSTOP_MARGIN) cand).
Proof.
  intros H. apply List.Forall_map. revert H. apply List.Forall_impl.
  intros [lo hi]. unfold bounded_row, expanded, FREQUENCY_BANDSTOP_MARGIN. simpl. lia.
Qed.

(** *** Every entry holds the sums of the rows merged into it *)

Lemma sum_low_bound (B : Z) (g : list row) :
  Forall (bounded_row B) g ->
  - (Z.of_nat (length g) * B) <= sum_low g <= Z.of_nat (length g) * B.
Proof.
  unfold sum_low. induction 1 as [|c g [Hc _] _ IH]; simpl length; simpl; lia.
Qed.

Lemma sum_high_bound (B : Z) (g : list row) :
  Forall (bounded_row B) g ->
  - (Z.of_nat (length g) * B) <= sum_high g <= Z.of_nat (length g) * B.
Proof.
  unfold sum_high. induction 1 as [|c g [_ Hc] _ IH]; simpl length; simpl; lia.
Qed.

Lemma sum_low_snoc (g : list row) (c : row) : sum_low (g ++ [c]) = sum_low g + c.1.
Proof. unfold sum_low. induction g as [|x g IH]; simpl in *; lia. Qed.

Lemma sum_high_snoc (g : list row) (c : row) : sum_high (g ++ [c]) = sum_high g + c.2.
Proof. unfold sum_high. induction g as [|x g IH]; simpl in *; lia. Qed.

Section Groups.

Variable B : Z.
Hypothesis B_pos : 0 <= B.

Lemma value_place_groups (c : row) (avg : Q) (final : list (row * Z))
    (groups : list (list row)) (n : nat) :
  groups_within B final groups ->
  bounded_row B c ->
  (length (concat groups) <= n)%nat ->
  (Z.of_nat n + 1) * B < 2 ^ 62 ->
  match value_place c avg final with
  | None => True
  | Some final' =>
      exists groups',
        groups_within B final' groups' /\ Permutation (concat groups') (concat groups ++ [c])
  end.
Proof.
  intros [HF HB]. revert HB. induction HF as [|v g final groups [Hg Hv] HF IH];
    intros HB Hc Hn Hfit; [exact I|].
  apply Forall_cons in HB as [HBg HB].
  cbn [value_place]. destruct (close_to avg (value_favg v)).
  - exists ((g ++ [c]) :: groups). split; [split|].
    + constructor; [|exact HF]. split; [now destruct g|].
      subst v. cbn [fst snd]. rewrite sum_low_snoc, sum_high_snoc, length_app.
      pose proof (sum_low_bound B g HBg). pose proof (sum_high_bound B g HBg).
      assert (length g <= n)%nat.
      { etransitivity; [|exact Hn]. simpl. rewrite length_app. lia. }
      destruct Hc as [Hc1 Hc2].
      rewrite !add64_small by (unfold in_int64; nia).
      simpl length. do 2 f_equal. lia.
    + constructor; [|exact HB]. apply Forall_app. split; [exact HBg|].
      now constructor.
    + simpl. rewrite <- !app_assoc. apply Permutation_app_head.
      apply Permutation_app_comm.
  - assert (Hn' : (length (concat groups) <= n)%nat).
    { simpl in Hn. rewrite length_app in Hn. lia. }
    specialize (IH HB Hc Hn' Hfit).
    destruct (value_place c avg final) as [final'|]; cbn [mbind option_bind]; [|exact I].
    destruct IH as (groups' & [HF' HB'] & Hperm).
    exists (g :: groups'). split; [split|].
    + constructor; [now split | exact HF'].
    + now constructor.
    + simpl. rewrite <- app_assoc. now apply Permutation_app_head.
Qed.

Lemma value_steps_groups (cs : list row) (final : list (row * Z))
    (groups : list (list row)) :
  groups_within B final groups ->
  Forall (bounded_row B) cs ->
  (Z.of_nat (length (concat groups) + length cs) + 1) * B < 2 ^ 62 ->
  exists groups',
    groups_within B (fold_left value_step cs final) groups'
    /\ Permutation (concat groups') (concat groups ++ cs).
Proof.
  revert final groups. induction cs as [|c cs IH]; intros final groups Hok Hcs Hfit.
  - exists groups. split; [exact Hok|]. now rewrite app_nil_r.
  - apply Forall_cons in Hcs as [Hc Hcs]. cbn [fold_left].
    assert (Hstep : exists groups1, groups_within B (value_step final c) groups1
              /\ Permutation (concat groups1) (concat groups ++ [c])).
    { pose proof (value_place_groups c (avg_of c) final groups
        (length (concat groups)) Hok Hc (le_n _)) as Hp.
      unfold value_step. destruct (value_place c (avg_of c) final).
      - apply Hp. simpl length in Hfit. nia.
      - exists (groups ++ [[c]]). destruct Hok as [HF HB]. split; [split|].
        + apply Forall2_app; [exact HF|]. constructor; [|constructor].
          split; [discriminate|]. unfold sum_low, sum_high. simpl.
          now rewrite !Z.add_0_r, <- surjective_pairing.
        + apply Forall_app. split; [exact HB|]. repeat constructor; apply Hc.
        + rewrite concat_app. reflexivity. }
    destruct Hstep as (groups1 & Hok1 & Hperm1).
    destruct (IH _ _ Hok1 Hcs) as (groups' & Hok' & Hperm').
    { rewrite (Permutation_length Hperm1), length_app. simpl length in *.
      replace (length (concat groups) + 1 + length cs)%nat
        with (length (concat groups) + S (length cs))%nat by lia. exact Hfit. }
    exists groups'. split; [exact Hok'|].
    rewrite Hperm'. rewrite Hperm1, <- app_assoc. reflexivity.
Qed.

End Groups.

(** *** What is emitted *)

Lemma confirm_loop_app (arr : list row) (final : list cluster) (ret : list (Q * Q)) :
  fold_left (confirm_step arr) final ret =
  ret ++ fold_left (confirm_step arr) final [].
Proof.
  revert ret. induction final as [|f final IH]; intros ret; simpl.
  - now rewrite app_nil_r.
  - rewrite IH, (IH (confirm_step arr [] f)). unfold confirm_step.
    destruct (_ <? count f); simpl; [now rewrite <- app_assoc | reflexivity].
Qed.

Lemma confirmed_app (arr : list row) (l1 l2 : list cluster) :
  confirmed (arr, l1 ++ l2) = confirmed (arr, l1) ++ confirmed (arr, l2).
Proof.
  unfold confirmed. cbn [fst snd]. rewrite fold_left_app. apply confirm_loop_app.
Qed.

Lemma confirmed_filter (arr : list row) (final : list cluster) :
  confirmed (arr, final) =
  map (band arr) (List.filter (fun f => FREQUENCY_MINIMUM_COUNT <? count f) final).
Proof.
  induction final as [|f final IH]; [reflexivity|].
  change (f :: final) with ([f] ++ final). rewrite confirmed_app, IH.
  unfold confirmed, confirm_step. cbn [fst snd fold_left List.filter app].
  now destruct (_ <? count f).
Qed.

(** C4: the result holds the bands of exactly the entries of [final] whose
    count is above 20, in their order; and every entry is answered on its
    own: [f] puts its band into the result when its count is above 20 and
    nothing otherwise, whatever stands before and after it. *)
Theorem cluster_confirmed_iff_above_minimum (c : row) (cand : list row) :
  let st := cluster_loop (expand (c :: cand)) in
  extract_bandstop_frequencies (c :: cand) =
    Ok (map (band st.1)
          (List.filter (fun f => FREQUENCY_MINIMUM_COUNT <? count f) st.2))
  /\ forall before f after, st.2 = before ++ f :: after ->
       extract_bandstop_frequencies (c :: cand) =
       Ok (confirmed (st.1, before)
           ++ (if FREQUENCY_MINIMUM_COUNT <? count f then [band st.1 f] else [])
           ++ confirmed (st.1, after)).
Proof.
  intros st. unfold extract_bandstop_frequencies. fold st.
  destruct st as [arr final]. cbn [fst snd]. split.
  - now rewrite confirmed_filter.
  - intros before f after ->. rewrite confirmed_app.
    change (f :: after) with ([f] ++ after). now rewrite confirmed_app.
Qed.

(** Twenty-one detections of one band and one of another: the first is
    confirmed, the second is not. *)
Example one_band_of_two_confirmed :
  cluster_loop (expand ((100, 120) :: repeat (100, 120) 20 ++ [(400, 420)])) =
    ((1050, 3570) :: repeat (50, 170) 20 ++ [(350, 470)],
     [{| data := 0; count := 21 |}; {| data := 21; count := 1 |}])
  /\ extract_bandstop_frequencies
       ((100, 120) :: repeat (100, 120) 20 ++ [(400, 420)]) =
     Ok [(50, 170)%Q].
Proof. split; vm_compute; reflexivity. Qed.

(** *** The band of an entry is the mean of what was merged into it *)

Lemma view_groups (arr : list row) (final : list cluster) (groups : list (list row)) :
  Forall2 sums_group (view arr final) groups ->
  Forall2 (fun f g => g <> [] /\ count f = Z.of_nat (length g)
             /\ arr !!! data f = (sum_low g, sum_high g)
             /\ band arr f = mean_band g) final groups.
Proof.
  revert groups. induction final as [|f final IH]; intros groups H;
    inversion H as [|v g vs gs [Hg Hv] Hrest]; subst; constructor.
  - injection Hv as Hd Hc. repeat split; try assumption.
    unfold band, mean_band, row in *. now rewrite Hd, Hc.
  - now apply IH.
Qed.

Lemma confirmed_groups (arr : list row) (final : list cluster)
    (groups : list (list row)) :
  Forall2 (fun f g => g <> [] /\ count f = Z.of_nat (length g)
             /\ arr !!! data f = (sum_low g, sum_high g)
             /\ band arr f = mean_band g) final groups ->
  confirmed (arr, final) =
  map mean_band
    (List.filter (fun g => FREQUENCY_MINIMUM_COUNT <? Z.of_nat (length g)) groups).
Proof.
  rewrite confirmed_filter.
  induction 1 as [|f g final groups (_ & Hc & _ & Hb) _ IH]; [reflexivity|].
  cbn [List.filter]. rewrite <- Hc.
  destruct (_ <? count f); cbn [map]; now rewrite IH, ?Hb.
Qed.

Lemma in_range_groups (cand : list row) (k : nat) :
  in_range cand -> (k <= length cand)%nat ->
  exists groups,
    groups_within (2 ^ 31 + 50)
      (fold_left value_step (firstn k (expand cand)) []) groups
    /\ Permutation (concat groups)
         (firstn k (map (expanded FREQUENCY_BANDSTOP_MARGIN) cand)).
Proof.
  intros [Hb Hn] Hk. rewrite (expand_small cand Hb).
  destruct (value_steps_groups (2 ^ 31 + 50) ltac:(lia)
              (firstn k (map (expanded FREQUENCY_BANDSTOP_MARGIN) cand)) [] [])
    as (groups & Hok & Hperm).
  - split; constructor.
  - apply Forall_take, expanded_bounded, Hb.
  - rewrite length_take, length_map. simpl length. lia.
  - now exists groups.
Qed.

(** C6: at every point of the aggregation (after any number [k] of
    candidates) the candidates seen so far are split into groups, one per
    entry of [final]; the entry counts its group, its row holds the sums of
    the bounds of its group, and its band is the plain mean of those bounds:
    each sum divided by the count, in float64 as line 131 divides.  The
    bands emitted at the end are the means of the groups of more than 20
    candidates. *)
Theorem cluster_band_is_mean (cand : list row) (k : nat) :
  in_range cand -> (k <= length cand)%nat ->
  let st := fold_left cluster_step (seq 0 k) (expand cand, []) in
  exists groups : list (list row),
    Permutation (concat groups)
      (firstn k (map (expanded FREQUENCY_BANDSTOP_MARGIN) cand))
    /\ Forall2 (fun f g => g <> [] /\ count f = Z.of_nat (length g)
                  /\ st.1 !!! data f = (sum_low g, sum_high g)
                  /\ band st.1 f = mean_band g) st.2 groups
    /\ (k = length cand -> cand <> [] ->
        extract_bandstop_frequencies cand =
        Ok (map mean_band
              (List.filter
                 (fun g => FREQUENCY_MINIMUM_COUNT <? Z.of_nat (length g)) groups))).
Proof.
  intros Hr Hk st.
  destruct (in_range_groups cand k Hr Hk) as (groups & [HF _] & Hperm).
  assert (Hlen : length (expand cand) = length cand).
  { unfold expand. now rewrite !length_map. }
  pose proof (cluster_steps_view (expand cand) k) as Hview.
  rewrite Hlen in Hview. specialize (Hview Hk). fold st in Hview. cbn zeta in Hview.
  rewrite <- Hview in HF. apply view_groups in HF.
  exists groups. split; [exact Hperm|]. split; [exact HF|].
  intros -> Hne. destruct cand as [|c cand]; [contradiction|].
  unfold extract_bandstop_frequencies, cluster_loop. rewrite Hlen. fold st.
  rewrite <- (confirmed_groups st.1 st.2 groups HF). now destruct st.
Qed.

Lemma cluster_band_is_mean_witness :
  let cand := [(100, 120); (110, 130); (400, 420); (105, 125)] in
  let st := fold_left cluster_step (seq 0 4) (expand cand, []) in
  exists groups : list (list row),
    Permutation (concat groups)
      (firstn 4 (map (expanded FREQUENCY_BANDSTOP_MARGIN) cand))
    /\ Forall2 (fun f g => g <> [] /\ count f = Z.of_nat (length g)
                  /\ st.1 !!! data f = (sum_low g, sum_high g)
                  /\ band st.1 f = mean_band g) st.2 groups
    /\ (4%nat = length cand -> cand <> [] ->
        extract_bandstop_frequencies cand =
        Ok (map mean_band
              (List.filter
                 (fun g => FREQUENCY_MINIMUM_COUNT <? Z.of_nat (length g)) groups))).
Proof.
  apply (cluster_band_is_mean [(100, 120); (110, 130); (400, 420); (105, 125)] 4).
  - split; [repeat constructor; simpl; lia | simpl; lia].
  - simpl. lia.
Defined.

(** C9: the margin of 50 Hz turns every candidate (low, high) into
    (low - 50, high + 50), and the clustering and the bands it emits are
    computed from these expanded rows and from nothing else of the
    candidates. *)
Theorem margin_expands_both_sides (cand : list row) :
  Forall (bounded_row (2 ^ 31)) cand ->
  expand cand = map (fun c : row => (c.1 - 50, c.2 + 50)) cand
  /\ extract_bandstop_frequencies cand =
     match cand with
     | [] => Raise IndexError
     | _ => Ok (confirmed
                 (cluster_loop (map (expanded FREQUENCY_BANDSTOP_MARGIN) cand)))
     end.
Proof.
  intros H. pose proof (expand_small cand H) as He. split; [exact He|].
  unfold extract_bandstop_frequencies. now rewrite He.
Qed.

Lemma margin_expands_both_sides_witness :
  expand [(100, 120); (0, 0)] =
    map (fun c : row => (c.1 - 50, c.2 + 50)) [(100, 120); (0, 0)]
  /\ extract_bandstop_frequencies [(100, 120); (0, 0)] =
     Ok (confirmed
           (cluster_loop
              (map (expanded FREQUENCY_BANDSTOP_MARGIN) [(100, 120); (0, 0)]))).
Proof.
  apply (margin_expands_both_sides [(100, 120); (0, 0)]).
  repeat constructor; simpl; lia.
Defined.

(** *** Comparisons of rationals *)

Lemma Qltb_lt (x y : Q) : Qltb x y = true <-> (x < y)%Q.
Proof. unfold Qltb, Qlt. apply Z.ltb_lt. Qed.

Lemma Qltb_ge (x y : Q) : Qltb x y = false <-> (y <= x)%Q.
Proof. unfold Qltb, Qle. apply Z.ltb_ge. Qed.

(** *** Two candidates *)

#[export] Instance Qltb_proper : Proper (Qeq ==> Qeq ==> eq) Qltb.
Proof.
  intros x x' Hx y y' Hy.
  destruct (Qltb x' y') eqn:H.
  - apply Qltb_lt. rewrite Hx, Hy. now apply Qltb_lt.
  - apply Qltb_ge. rewrite Hx, Hy. now apply Qltb_ge.
Qed.

#[export] Instance close_to_proper : Proper (Qeq ==> Qeq ==> eq) close_to.
Proof. intros x x' Hx y y' Hy. unfold close_to, fsub. now rewrite Hx, Hy. Qed.

(** Within 32 bits the midpoint of a row is a float64, and so is the
    difference of two midpoints: the comparison of line 115 is exact. *)
Lemma avg_of_small (c : row) :
  bounded_row (2 ^ 31 + 50) c -> (avg_of c == midpoint c)%Q.
Proof.
  intros [H1 H2]. unfold avg_of, midpoint, fdiv.
  rewrite add64_small by (unfold in_int64; lia).
  rewrite of_int64_exact by lia. apply round64_half. lia.
Qed.

Lemma favg_of_single (e : row) :
  bounded_row (2 ^ 31 + 50) e ->
  (fdiv (of_int64 (add64 e.1 e.2)) (of_int64 (2 * 1)) == midpoint e)%Q.
Proof.
  intros [H1 H2]. unfold midpoint, fdiv.
  rewrite add64_small by (unfold in_int64; lia).
  rewrite !of_int64_exact by lia. apply round64_half. lia.
Qed.

Lemma close_to_midpoints (e1 e2 : row) :
  bounded_row (2 ^ 31 + 50) e1 -> bounded_row (2 ^ 31 + 50) e2 ->
  close_to (midpoint e2) (midpoint e1) =
  Qltb (Qabs (midpoint e2 - midpoint e1)) 50.
Proof.
  intros [H1 H1'] [H2 H2']. unfold close_to, fsub, midpoint.
  change (inject_Z FREQUENCY_MAXIMUM_DIFFERENTIATING_DIFFERENCE) with 50%Q.
  assert (E : (inject_Z (e2.1 + e2.2) / 2 - inject_Z (e1.1 + e1.2) / 2
               == inject_Z (e2.1 + e2.2 - (e1.1 + e1.2)) / 2)%Q).
  { generalize (e2.1 + e2.2) (e1.1 + e1.2). intros a b.
    rewrite <- Z.add_opp_r, inject_Z_plus, inject_Z_opp. field. }
  rewrite E, round64_half by lia. reflexivity.
Qed.

Lemma cluster_two (e1 e2 : row) :
  bounded_row (2 ^ 31 + 50) e1 -> bounded_row (2 ^ 31 + 50) e2 ->
  cluster_loop [e1; e2] =
  if close_to (midpoint e2) (midpoint e1)
  then ([(e1.1 + e2.1, e1.2 + e2.2); e2], [{| data := 0; count := 2 |}])
  else ([e1; e2], [{| data := 0; count := 1 |}; {| data := 1; count := 1 |}]).
Proof.
  intros H1 H2. unfold cluster_loop.
  cbn [length seq fold_left cluster_step place app].
  change ([e1; e2] !!! 0%nat) with e1. change ([e1; e2] !!! 1%nat) with e2.
  unfold favg_of. cbn [data count].
  change ([e1; e2] !!! 0%nat) with e1.
  rewrite (close_to_proper _ _ (avg_of_small e2 H2) _ _ (favg_of_single e1 H1)).
  destruct H1 as [H1 H1'], H2 as [H2 H2'].
  destruct (close_to _ _); [|reflexivity].
  rewrite !add64_small by (unfold in_int64; lia). reflexivity.
Qed.

Ltac forall_rows :=
  repeat first [assumption | apply List.Forall_nil | apply List.Forall_cons].

Lemma confirmed_each (arr : list row) (final : list cluster) :
  confirmed (arr, final) = flat_map (fun f => confirmed (arr, [f])) final.
Proof.
  induction final as [|f final IH]; [reflexivity|].
  change (f :: final) with ([f] ++ final). rewrite confirmed_app, IH. reflexivity.
Qed.

(** C5: of two candidates, the second joins the entry of the first when the
    midpoints of the two expanded rows differ by less than 50, and starts an
    entry of its own when they differ by 50 or more (so also when they
    differ by more than 50).  Either way the minimum-support filter reads
    every entry by itself, and with counts of 1 or 2 it keeps none. *)
Theorem two_candidates_threshold (c1 c2 : row) :
  bounded_row (2 ^ 31) c1 -> bounded_row (2 ^ 31) c2 ->
  let e1 := expanded FREQUENCY_BANDSTOP_MARGIN c1 in
  let e2 := expanded FREQUENCY_BANDSTOP_MARGIN c2 in
  let st := cluster_loop (expand [c1; c2]) in
  ((Qabs (midpoint e2 - midpoint e1) < 50)%Q ->
     st = ([(e1.1 + e2.1, e1.2 + e2.2); e2], [{| data := 0; count := 2 |}]))
  /\ ((50 <= Qabs (midpoint e2 - midpoint e1))%Q ->
     st = ([e1; e2], [{| data := 0; count := 1 |}; {| data := 1; count := 1 |}]))
  /\ extract_bandstop_frequencies [c1; c2] =
     Ok (flat_map (fun f => confirmed (st.1, [f])) st.2)
  /\ extract_bandstop_frequencies [c1; c2] = Ok [].
Proof.
  intros H1 H2 e1 e2 st.
  assert (He : expand [c1; c2] = [e1; e2]).
  { rewrite expand_small by forall_rows. reflexivity. }
  assert (B1 : bounded_row (2 ^ 31 + 50) e1).
  { pose proof (expanded_bounded [c1] ltac:(forall_rows)) as H.
    now inversion H. }
  assert (B2 : bounded_row (2 ^ 31 + 50) e2).
  { pose proof (expanded_bounded [c2] ltac:(forall_rows)) as H.
    now inversion H. }
  assert (Hst : st =
    if close_to (midpoint e2) (midpoint e1)
    then ([(e1.1 + e2.1, e1.2 + e2.2); e2], [{| data := 0; count := 2 |}])
    else ([e1; e2], [{| data := 0; count := 1 |}; {| data := 1; count := 1 |}])).
  { unfold st. rewrite He. apply cluster_two; assumption. }
  assert (Hex : extract_bandstop_frequencies [c1; c2] = Ok (confirmed st)) by reflexivity.
  split; [|split; [|split]].
  - intros Hlt. rewrite Hst. apply Qltb_lt in Hlt.
    now rewrite (close_to_midpoints e1 e2 B1 B2), Hlt.
  - intros Hge. rewrite Hst. apply Qltb_ge in Hge.
    now rewrite (close_to_midpoints e1 e2 B1 B2), Hge.
  - rewrite Hex. destruct st as [arr final]. now rewrite confirmed_each.
  - rewrite Hex, Hst. now destruct (close_to _ _).
Qed.

Lemma two_candidates_threshold_witness :
  let e1 := expanded FREQUENCY_BANDSTOP_MARGIN (100, 120) in
  let e2 := expanded FREQUENCY_BANDSTOP_MARGIN (130, 150) in
  let st := cluster_loop (expand [(100, 120); (130, 150)]) in
  ((Qabs (midpoint e2 - midpoint e1) < 50)%Q ->
     st = ([(e1.1 + e2.1, e1.2 + e2.2); e2], [{| data := 0; count := 2 |}]))
  /\ ((50 <= Qabs (midpoint e2 - midpoint e1))%Q ->
     st = ([e1; e2], [{| data := 0; count := 1 |}; {| data := 1; count := 1 |}]))
  /\ extract_bandstop_frequencies [(100, 120); (130, 150)] =
     Ok (flat_map (fun f => confirmed (st.1, [f])) st.2)
  /\ extract_bandstop_frequencies [(100, 120); (130, 150)] = Ok [].
Proof.
  apply (two_candidates_threshold (100, 120) (130, 150));
    split; simpl; lia.
Defined.

(** The two cases of C5 on inputs: midpoints 30 Hz apart, 50 Hz apart and
    300 Hz apart. *)
Example two_candidates_examples :
  cluster_loop (expand [(100, 120); (130, 150)]) =
    ([(130, 370); (80, 200)], [{| data := 0; count := 2 |}])
  /\ cluster_loop (expand [(100, 120); (150, 170)]) =
    ([(50, 170); (100, 220)],
     [{| data := 0; count := 1 |}; {| data := 1; count := 1 |}])
  /\ cluster_loop (expand [(100, 120); (400, 420)]) =
    ([(50, 170); (350, 470)],
     [{| data := 0; count := 1 |}; {| data := 1; count := 1 |}]).
Proof. repeat split; vm_compute; reflexivity. Qed.

(** ** The width of the confirmed bands *)

Lemma find_outstanding_ordered (argpartition : list Q -> nat -> list nat)
    (real_data : list Q) (fs points_per_sample : Z) (ret : list row) :
  find_outstanding_frequencies argpartition real_data fs points_per_sample = Ok ret ->
  Forall ordered ret.
Proof.
  unfold find_outstanding_frequencies.
  destruct (select_outstanding _ _ _) as [[low_ind high_ind]|e];
    cbn [mbind result_bind]; [|discriminate].
  intros [= <-]. apply pair_loop_ordered.
Qed.

Section Candidates.

Context {sample : Type}.
Variable argpartition : list Q -> nat -> list nat.
Variable fft_abs : list sample -> list Q.
Variable sound_data : list sample.
Variable sndobj : Sound.
Variable points_per_sample : Z.

Lemma parse_loop_ordered (starts : list Z) (acc cand : list row) :
  parse_loop argpartition fft_abs sound_data sndobj points_per_sample acc starts
    = Ok cand ->
  Forall ordered acc -> Forall ordered cand.
Proof.
  revert acc. induction starts as [|i starts IH]; intros acc; cbn [parse_loop].
  - now intros [= <-].
  - unfold parse_step.
    destruct (spectrum fft_abs _) as [real_data|e]; cbn [mbind result_bind];
      [|discriminate].
    destruct (find_outstanding_frequencies _ _ _ _) as [ret|e] eqn:Hret;
      cbn [mbind result_bind]; [|discriminate].
    intros H Hacc. apply (IH _ H), Forall_app. split; [exact Hacc|].
    exact (find_outstanding_ordered _ _ _ _ _ Hret).
Qed.

End Candidates.

Lemma sums_width (g : list row) :
  Forall (fun e : row => 100 <= e.2 - e.1) g ->
  100 * Z.of_nat (length g) <= sum_high g - sum_low g.
Proof.
  unfold sum_high, sum_low.
  induction 1 as [|e g He _ IH]; simpl length; simpl; lia.
Qed.

Lemma Qdiv_width (a b n : Z) :
  0 < n -> 100 * n <= a - b ->
  (100 <= inject_Z a / inject_Z n - inject_Z b / inject_Z n)%Q.
Proof.
  intros Hn H. destruct n as [|p|p]; try lia.
  unfold Qle, Qminus, Qplus, Qopp, Qdiv, Qmult, Qinv, inject_Z. simpl. nia.
Qed.

(** The band of an entry of at most [2^30] rows within 32 bits is, at
    either end, the exact quotient of sum and count up to a millionth. *)
Lemma value_band_near (v : row * Z) :
  1 <= v.2 <= 2 ^ 30 ->
  Z.abs v.1.1 <= v.2 * (2 ^ 31 + 50) -> Z.abs v.1.2 <= v.2 * (2 ^ 31 + 50) ->
  (Qabs ((value_band v).1 - inject_Z v.1.1 / inject_Z v.2) <= 1 # 1000000)%Q
  /\ (Qabs ((value_band v).2 - inject_Z v.1.2 / inject_Z v.2) <= 1 # 1000000)%Q.
Proof.
  intros Hn H1 H2. unfold value_band. cbn [fst snd].
  assert (Hc : (inject_Z (2 ^ 31 + 50) * (1 # 2 ^ 51) <= 1 # 1000000)%Q)
    by (vm_compute; discriminate).
  split; (eapply Qle_trans;
    [apply (fdiv_int_error _ _ (2 ^ 31 + 50)); [lia | assumption] | exact Hc]).
Qed.

Lemma group_sums_bounded (g : list row) :
  Forall (bounded_row (2 ^ 31 + 50)) g ->
  Z.abs (sum_low g) <= Z.of_nat (length g) * (2 ^ 31 + 50)
  /\ Z.abs (sum_high g) <= Z.of_nat (length g) * (2 ^ 31 + 50).
Proof.
  intros H. pose proof (sum_low_bound _ g H). pose proof (sum_high_bound _ g H). lia.
Qed.

Lemma mean_band_near (g : list row) :
  g <> [] -> Z.of_nat (length g) <= 2 ^ 30 ->
  Forall (bounded_row (2 ^ 31 + 50)) g ->
  (Qabs ((mean_band g).1 - inject_Z (sum_low g) / inject_Z (Z.of_nat (length g)))
   <= 1 # 1000000)%Q
  /\ (Qabs ((mean_band g).2 - inject_Z (sum_high g) / inject_Z (Z.of_nat (length g)))
      <= 1 # 1000000)%Q.
Proof.
  intros Hg Hn Hb. destruct (group_sums_bounded g Hb) as [H1 H2].
  apply (value_band_near (sum_low g, sum_high g, Z.of_nat (length g))); cbn [fst snd];
    try assumption.
  destruct g; [contradiction | simpl length in *; lia].
Qed.

(** The means of rows at least 100 wide are 100 apart, up to the rounding
    of the two quotients. *)
Lemma mean_band_width (g : list row) :
  g <> [] -> Z.of_nat (length g) <= 2 ^ 30 ->
  Forall (bounded_row (2 ^ 31 + 50)) g ->
  Forall (fun e : row => 100 <= e.2 - e.1) g ->
  (100 - (1 # 100000) <= (mean_band g).2 - (mean_band g).1)%Q.
Proof.
  intros Hg Hn Hb H.
  destruct (mean_band_near g Hg Hn Hb) as [H1 H2].
  assert (Hw : (100 <= inject_Z (sum_high g) / inject_Z (Z.of_nat (length g))
                       - inject_Z (sum_low g) / inject_Z (Z.of_nat (length g)))%Q).
  { apply Qdiv_width; [destruct g; [contradiction | simpl length; lia]|].
    now apply sums_width. }
  apply Qabs_diff_Qle_condition in H1, H2. lra.
Qed.

(** A band about 100 Hz wide is left as it is by the clamp, and none of the
    two divisions by its width divides by zero. *)
Lemma wide_band_notch (fs : Z) (ft : Q * Q) :
  (100 - (1 # 100000) <= ft.2 - ft.1)%Q ->
  Qltb (dist_raw (notch_of fs ft)) 10 = false
  /\ dist (notch_of fs ft) = dist_raw (notch_of fs ft)
  /\ quality (notch_of fs ft) = q_raw (notch_of fs ft)
  /\ ~ (dist_raw (notch_of fs ft) == 0)%Q
  /\ ~ (dist (notch_of fs ft) == 0)%Q.
Proof.
  intros H.
  assert (Hd : (99 <= Qabs (ft.1 - ft.2))%Q).
  { rewrite Qabs_Qminus. eapply Qle_trans; [|apply Qle_Qabs]. lra. }
  assert (Hc : Qltb (Qabs (ft.1 - ft.2)) 10 = false).
  { apply Qltb_ge. eapply Qle_trans; [|exact Hd]. discriminate. }
  unfold notch_of. cbn [dist_raw dist quality q_raw]. rewrite Hc.
  repeat split; intros H0; rewrite H0 in Hd; now apply Hd.
Qed.

Lemma expanded_wide (cand : list row) (e : row) :
  Forall ordered cand ->
  In e (map (expanded FREQUENCY_BANDSTOP_MARGIN) cand) -> 100 <= e.2 - e.1.
Proof.
  intros Ho He. apply in_map_iff in He as (c & <- & Hc).
  rewrite List.Forall_forall in Ho. specialize (Ho c Hc).
  unfold ordered, expanded, FREQUENCY_BANDSTOP_MARGIN in *. simpl. lia.
Qed.

Lemma in_concat_member {A} (x : A) (g : list A) (groups : list (list A)) :
  In g groups -> In x g -> In x (concat groups).
Proof. intros Hg Hx. apply in_concat. now exists g. Qed.

Lemma in_concat_length {A} (g : list A) (groups : list (list A)) :
  In g groups -> (length g <= length (concat groups))%nat.
Proof.
  induction groups as [|g' groups IH]; [intros []|].
  simpl. rewrite length_app. intros [->|H]; [lia|]. specialize (IH H). lia.
Qed.

Lemma value_confirm_app (vs : list (row * Z)) (ret : list (Q * Q)) :
  fold_left value_confirm_step vs ret = ret ++ fold_left value_confirm_step vs [].
Proof.
  revert ret. induction vs as [|v vs IH]; intros ret; simpl.
  - now rewrite app_nil_r.
  - rewrite IH, (IH (value_confirm_step [] v)). unfold value_confirm_step.
    destruct (_ <? v.2); simpl; [now rewrite <- app_assoc | reflexivity].
Qed.

(** The bands emitted are the means of the groups of more than 20 rows. *)
Lemma value_confirmed_groups (vs : list (row * Z)) (groups : list (list row)) :
  Forall2 sums_group vs groups ->
  fold_left value_confirm_step vs [] =
  map mean_band
    (List.filter (fun g => FREQUENCY_MINIMUM_COUNT <? Z.of_nat (length g)) groups).
Proof.
  induction 1 as [|v g vs groups [_ ->] _ IH]; [reflexivity|].
  cbn [fold_left List.filter]. rewrite value_confirm_app, IH.
  unfold value_confirm_step. cbn [snd].
  destruct (_ <? Z.of_nat (length g)); reflexivity.
Qed.

(** The groups behind the bands that [extract_bandstop_frequencies]
    returns: they split the expanded candidates, none is empty, and each is
    within the bounds of its rows. *)
Lemma extract_groups (cand : list row) (specs : list (Q * Q)) :
  in_range cand ->
  extract_bandstop_frequencies cand = Ok specs ->
  exists groups,
    Permutation (concat groups) (map (expanded FREQUENCY_BANDSTOP_MARGIN) cand)
    /\ Forall (fun g => g <> [] /\ Z.of_nat (length g) <= 2 ^ 30
                        /\ Forall (bounded_row (2 ^ 31 + 50)) g) groups
    /\ specs = map mean_band
         (List.filter (fun g => FREQUENCY_MINIMUM_COUNT <? Z.of_nat (length g)) groups).
Proof.
  intros Hr Hex. destruct cand as [|c cand]; [discriminate|].
  destruct (in_range_groups (c :: cand) (length (c :: cand)) Hr (le_n _))
    as (groups & [HF HB] & Hperm).
  assert (Hlen : length (expand (c :: cand)) = length (c :: cand)).
  { unfold expand. now rewrite !length_map. }
  rewrite <- Hlen, firstn_all in HF.
  rewrite <- (length_map (expanded FREQUENCY_BANDSTOP_MARGIN)), firstn_all in Hperm.
  rewrite extract_bandstop_frequencies_values,
    (value_confirmed_groups _ groups HF) in Hex.
  injection Hex as <-. exists groups. split; [exact Hperm|]. split; [|reflexivity].
  apply List.Forall_forall. intros g Hg. split; [|split].
  - clear - HF Hg. induction HF as [|v g' vs groups [Hne _] _ IH]; [destruct Hg|].
    destruct Hg as [->|Hg]; [exact Hne | now apply IH].
  - pose proof (in_concat_length g groups Hg) as Hl.
    rewrite (Permutation_length Hperm), length_map in Hl.
    destruct Hr as [_ Hn]. lia.
  - rewrite List.Forall_forall in HB. now apply HB.
Qed.

(** The bands the aggregator emits for ordered candidates. *)
Lemma extract_wide (cand : list row) (specs : list (Q * Q)) :
  in_range cand -> Forall ordered cand ->
  extract_bandstop_frequencies cand = Ok specs ->
  Forall (fun ft : Q * Q => (100 - (1 # 100000) <= ft.2 - ft.1)%Q) specs.
Proof.
  intros Hr Ho Hex.
  destruct (extract_groups cand specs Hr Hex) as (groups & Hperm & Hgroups & ->).
  apply List.Forall_forall. intros ft Hft.
  apply in_map_iff in Hft as (g & <- & Hg).
  apply filter_In in Hg as [Hg _].
  rewrite List.Forall_forall in Hgroups. destruct (Hgroups g Hg) as (Hne & Hn & Hb).
  apply mean_band_width; try assumption.
  apply List.Forall_forall. intros e He. apply (expanded_wide cand e Ho).
  eapply Permutation_in; [exact Hperm|]. exact (in_concat_member e g groups Hg He).
Qed.

(** C10, as the code has it: every band confirmed for a channel is 100 Hz
    wide or wider up to the rounding of the two float64 quotients that make
    it, so wider than 99.99999 Hz: the candidates collected from the windows
    are ordered, the margin widens each by 100 Hz, and the exact means keep
    that width.  So for every such band the test [dist < 10] of the notch
    pipeline fails, the clamp leaves [dist] as it is, and neither division
    by [dist] (line 146 and line 151) divides by zero. *)
Theorem confirmed_bands_are_wide {sample : Type}
    (argpartition : list Q -> nat -> list nat) (fft_abs : list sample -> list Q)
    (sound_data : list sample) (sndobj : Sound) (points_per_sample : Z)
    (starts : list Z) (cand : list row) (specs : list (Q * Q)) :
  parse_loop argpartition fft_abs sound_data sndobj points_per_sample [] starts
    = Ok cand ->
  in_range cand ->
  extract_bandstop_frequencies cand = Ok specs ->
  Forall ordered cand
  /\ Forall (fun ft : Q * Q =>
       (100 - (1 # 100000) <= ft.2 - ft.1)%Q
       /\ forall rate : Z,
            Qltb (dist_raw (notch_of rate ft)) 10 = false
            /\ dist (notch_of rate ft) = dist_raw (notch_of rate ft)
            /\ quality (notch_of rate ft) = q_raw (notch_of rate ft)
            /\ ~ (dist_raw (notch_of rate ft) == 0)%Q
            /\ ~ (dist (notch_of rate ft) == 0)%Q) specs.
Proof.
  intros Hloop Hr Hex.
  assert (Ho : Forall ordered cand).
  { apply (parse_loop_ordered _ _ _ _ _ _ _ _ Hloop). constructor. }
  split; [exact Ho|].
  pose proof (extract_wide cand specs Hr Ho Hex) as Hw.
  revert Hw. apply List.Forall_impl. intros ft Hft. split; [exact Hft|].
  intros rate. now apply wide_band_notch.
Qed.

Lemma repeat_in_range (n : nat) :
  (n <= 1000)%nat -> in_range (repeat (0, 0) n).
Proof.
  intros Hn. split.
  - apply List.Forall_forall. intros c Hc. apply repeat_spec in Hc as ->.
    unfold bounded_row. simpl. lia.
  - rewrite repeat_length. lia.
Qed.

Lemma confirmed_bands_are_wide_witness :
  Forall ordered (repeat (0, 0) 27)
  /\ Forall (fun ft : Q * Q =>
       (100 - (1 # 100000) <= ft.2 - ft.1)%Q
       /\ forall rate : Z,
            Qltb (dist_raw (notch_of rate ft)) 10 = false
            /\ dist (notch_of rate ft) = dist_raw (notch_of rate ft)
            /\ quality (notch_of rate ft) = q_raw (notch_of rate ft)
            /\ ~ (dist_raw (notch_of rate ft) == 0)%Q
            /\ ~ (dist (notch_of rate ft) == 0)%Q) [(-50, 50)%Q].
Proof.
  apply (confirmed_bands_are_wide Reference.argsort Reference.constant_fft_abs
           Reference.silence_60 Reference.sound_60 20 (py_range 60 20)).
  - vm_compute. reflexivity.
  - apply repeat_in_range. lia.
  - vm_compute. reflexivity.
Defined.

(** C10 as the spec words it fails by rounding.  Twenty-one candidates, all
    of width 0 and within 2 Hz of each other, fall into one entry whose row
    holds the sums 341966 and 344066; the two float64 quotients by 21 lie on
    the two sides of [2^14], where the spacing of float64 doubles, and are
    [100 - 2^-39] apart. *)
Lemma rounded_band_is_narrower_than_100 :
  Forall ordered (repeat (16334, 16334) 20 ++ [(16336, 16336)])
  /\ (cluster_loop (expand (repeat (16334, 16334) 20 ++ [(16336, 16336)]))).2
     = [{| data := 0; count := 21 |}]
  /\ (cluster_loop (expand (repeat (16334, 16334) 20 ++ [(16336, 16336)]))).1 !! 0%nat
     = Some (341966, 344066)
  /\ extract_bandstop_frequencies (repeat (16334, 16334) 20 ++ [(16336, 16336)])
     = Ok [(8952276031048753 # 549755813888, 562953225777347 # 34359738368)]
  /\ ((562953225777347 # 34359738368) - (8952276031048753 # 549755813888)
      == 100 - (1 # 2 ^ 39))%Q
  /\ ~ (100 <= (562953225777347 # 34359738368) - (8952276031048753 # 549755813888))%Q.
Proof.
  split; [repeat constructor; unfold ordered; simpl; lia|].
  split; [vm_compute; reflexivity|].
  split; [vm_compute; reflexivity|].
  split; [vm_compute; reflexivity|].
  split; [vm_compute; reflexivity|].
  intros H. vm_compute in H. now apply H.
Qed.

(** ** The notch filter pipeline *)

Section Notch.

Context {sample : Type} {coeffs : Type}.
Variable iirnotch : Q -> Q -> result coeffs.
Variable filtfilt : coeffs -> list sample -> result (list sample).

Lemma bandstop_app (before after : list (Q * Q)) (sound_data : list sample)
    (sndobj : Sound) :
  bandstop iirnotch filtfilt (before ++ after) sound_data sndobj =
  (sound_data ← bandstop iirnotch filtfilt before sound_data sndobj;
   bandstop iirnotch filtfilt after sound_data sndobj).
Proof.
  revert sound_data. induction before as [|ft before IH]; intros sound_data;
    [reflexivity|].
  cbn [app bandstop].
  destruct (bandstop_step iirnotch filtfilt sndobj sound_data ft);
    cbn [mbind result_bind]; [apply IH | reflexivity].
Qed.

End Notch.

Lemma clamp_is_max (d : Q) :
  ((if Qltb d 10 then 10 else d) == Qmax d 10)%Q.
Proof.
  destruct (Qltb d 10) eqn:H.
  - apply Qltb_lt in H. symmetry. apply Q.max_r. now apply Qlt_le_weak.
  - apply Qltb_ge in H. symmetry. now apply Q.max_l.
Qed.

(** C7: every band (low, high) of the list is filtered, on the output of
    the bands before it, by the notch that [iirnotch] returns for
    [w0 = ((low + high) / 2) / (fs / 2)] and
    [Q = 2 * center / dist], where [dist] is [abs(high - low)] raised to 10
    when it is below 10. *)
Theorem notch_parameters {sample coeffs : Type}
    (iirnotch : Q -> Q -> result coeffs)
    (filtfilt : coeffs -> list sample -> result (list sample))
    (before after : list (Q * Q)) (low high : Q)
    (sound_data : list sample) (sndobj : Sound) :
  let n := notch_of (fs sndobj) (low, high) in
  bandstop iirnotch filtfilt (before ++ (low, high) :: after) sound_data sndobj =
    (sound_data ← bandstop iirnotch filtfilt before sound_data sndobj;
     c ← iirnotch (w0 n) (quality n);
     sound_data ← filtfilt c sound_data;
     bandstop iirnotch filtfilt after sound_data sndobj)
  /\ (center n == (low + high) / 2)%Q
  /\ (w0 n == ((low + high) / 2) / (inject_Z (fs sndobj) / 2))%Q
  /\ (dist n == Qmax (Qabs (high - low)) 10)%Q
  /\ (10 <= dist n)%Q
  /\ (quality n == 2 * ((low + high) / 2) / Qmax (Qabs (high - low)) 10)%Q.
Proof.
  intros n. split; [|split; [|split; [|split; [|split]]]].
  - rewrite bandstop_app.
    destruct (bandstop iirnotch filtfilt before sound_data sndobj) as [sd|e];
      cbn [mbind result_bind bandstop]; [|reflexivity].
    unfold bandstop_step. fold n.
    destruct (iirnotch (w0 n) (quality n)); cbn [mbind result_bind]; reflexivity.
  - reflexivity.
  - reflexivity.
  - unfold n, notch_of. cbn [dist fst snd].
    rewrite clamp_is_max, Qabs_Qminus. reflexivity.
  - unfold n, notch_of. cbn [dist fst snd].
    rewrite clamp_is_max. apply Q.le_max_r.
  - unfold n, notch_of. cbn [quality fst snd].
    rewrite clamp_is_max, Qabs_Qminus. reflexivity.
Qed.

(** ** [parse] when nothing is confirmed *)

(** When the aggregator returns, and returns no band, [parse] returns the
    channel it was given. *)
Lemma parse_without_bands_returns_input {sample coeffs : Type}
    (argpartition : list Q -> nat -> list nat) (fft_abs : list sample -> list Q)
    (iirnotch : Q -> Q -> result coeffs)
    (filtfilt : coeffs -> list sample -> result (list sample))
    (sound_data : list sample) (sndobj : Sound) (cand : list row) :
  0 < fs sndobj ->
  parse_loop argpartition fft_abs sound_data sndobj
    (FFT_SAMPLE_SIZE * fs sndobj / 1000) []
    (py_range (samples sndobj) (FFT_SAMPLE_SIZE * fs sndobj / 1000)) = Ok cand ->
  extract_bandstop_frequencies cand = Ok [] ->
  parse argpartition fft_abs iirnotch filtfilt sound_data sndobj = Ok sound_data.
Proof.
  intros Hfs Hloop Hex. unfold parse.
  assert (Hpps : FFT_SAMPLE_SIZE * fs sndobj / 1000 <> 0).
  { unfold FFT_SAMPLE_SIZE.
    assert (1 <= 10000 * fs sndobj / 1000); [|lia].
    apply Z.div_le_lower_bound; lia. }
  apply Z.eqb_neq in Hpps. rewrite Hpps, Hloop. cbn [mbind result_bind].
  now rewrite Hex.
Qed.

Lemma parse_without_bands_returns_input_witness :
  parse Reference.argsort Reference.constant_fft_abs
    Reference.allpass_iirnotch Reference.allpass_filtfilt
    Reference.silence_40 Reference.sound_40 = Ok Reference.silence_40.
Proof.
  apply (parse_without_bands_returns_input _ _ _ _ _ _ (repeat (0, 0) 18)).
  - simpl. lia.
  - vm_compute. reflexivity.
  - vm_compute. reflexivity.
Defined.

(** C3 fails on a channel whose windows yield no candidate.  Five samples
    at 8000 Hz make one window, too short for a single difference above the
    low band: there is no candidate and so no confirmed band, and [parse]
    does not return the channel but raises [IndexError], from line 106,
    before the test of line 184 is reached. *)
Theorem channel_without_candidates_is_not_returned :
  parse_loop Reference.argsort Reference.constant_fft_abs (repeat 7 5)
    {| fs := 8000; samples := 5; channels := 2; duration := 5 # 8000; depth := 16 |}
    (FFT_SAMPLE_SIZE * 8000 / 1000) [] (py_range 5 (FFT_SAMPLE_SIZE * 8000 / 1000))
  = Ok []
  /\ parse Reference.argsort Reference.constant_fft_abs Reference.allpass_iirnotch
       Reference.allpass_filtfilt (repeat 7 5)
       {| fs := 8000; samples := 5; channels := 2; duration := 5 # 8000; depth := 16 |}
     = Raise IndexError.
Proof. split; vm_compute; reflexivity. Qed.

(** ** Files whose bit depth is refused *)

Section Files.

Context {sample : Type} {coeffs : Type}.
Variable argpartition : list Q -> nat -> list nat.
Variable fft_abs : list sample -> list Q.
Variable iirnotch : Q -> Q -> result coeffs.
Variable filtfilt : coeffs -> list sample -> result (list sample).
Variable Sound_new : Z -> @ndarray sample -> result Sound.

Local Abbreviation process' := (process argpartition fft_abs iirnotch filtfilt Sound_new).
Local Abbreviation run' := (run argpartition fft_abs iirnotch filtfilt Sound_new).
Local Abbreviation channel_loop' := (channel_loop argpartition fft_abs iirnotch filtfilt).

(** [stdout] is only ever appended to: what was printed before changes
    nothing of what a call does. *)
Lemma print_logged (pre : list line) (l : line) (w : @World sample) :
  print l (logged pre w) = logged pre (print l w).
Proof. unfold print, logged. cbn [files stdout]. now rewrite app_assoc. Qed.

Lemma wavfile_write_logged (pre : list line) (name : string) (rate : Z)
    (signals : list (list sample)) (w : World) :
  wavfile_write name rate signals (logged pre w) =
  logged pre (wavfile_write name rate signals w).
Proof. reflexivity. Qed.

Lemma channel_loop_logged (pre : list line) (snd : @ndarray sample)
    (sndobj : Sound) (cs : list Z) (signals : list (list sample)) (w : World) :
  channel_loop' snd sndobj cs signals (logged pre w) =
  (logged pre (channel_loop' snd sndobj cs signals w).1,
   (channel_loop' snd sndobj cs signals w).2).
Proof.
  revert signals w. induction cs as [|c cs IH]; intros signals w; [reflexivity|].
  cbn [channel_loop]. rewrite print_logged.
  destruct (transposed_item snd c) as [[sound_data|x]|e]; try reflexivity.
  destruct (parse _ _ _ _ sound_data sndobj) as [cleaned|e]; [|reflexivity].
  destruct (_ =? samples sndobj); [|reflexivity].
  rewrite print_logged. apply IH.
Qed.

Lemma process_logged (pre : list line) (filename : string) (w : World) :
  process' filename (logged pre w) =
  (logged pre (process' filename w).1, (process' filename w).2).
Proof.
  unfold process. cbn [logged files].
  destruct (files w !! filename) as [[rate columns]|]; [|reflexivity].
  cbn zeta. destruct (Sound_new rate (read_data columns)) as [sndobj|[]]; try reflexivity.
  - rewrite print_logged. destruct (samples sndobj <? 0); [reflexivity|].
    rewrite channel_loop_logged.
    destruct (channel_loop' (read_data columns) sndobj _ [] _) as [w' [signals|e]];
      cbn [fst snd];
      [|reflexivity].
    now rewrite print_logged, wavfile_write_logged.
  - now rewrite !print_logged.
Qed.

Lemma run_logged (pre : list line) (filenames : list string) (w : World) :
  run' filenames (logged pre w) =
  (logged pre (run' filenames w).1, (run' filenames w).2).
Proof.
  revert w. induction filenames as [|filename rest IH]; intros w; [reflexivity|].
  cbn [run]. rewrite process_logged.
  destruct (process' filename w) as [w' [e|]]; cbn [fst snd]; [reflexivity | apply IH].
Qed.

End Files.

(** C8: when the construction of the [Sound] of a file raises
    [DepthException], [process] returns normally: it has printed the
    exception and "Skipping...", and has written no file.  The main loop goes
    on with the files that follow, and what it does with them (the files
    written, the lines printed, the exception that ends the run, if any) is
    what it would have done had the refused file not been in the list. *)
Theorem depth_exception_skips_file {sample coeffs : Type}
    (argpartition : list Q -> nat -> list nat) (fft_abs : list sample -> list Q)
    (iirnotch : Q -> Q -> result coeffs)
    (filtfilt : coeffs -> list sample -> result (list sample))
    (Sound_new : Z -> @ndarray sample -> result Sound)
    (filename : string) (rest : list string) (w : World)
    (rate : Z) (columns : list (list sample)) (msg : string) :
  files w !! filename = Some (rate, columns) ->
  Sound_new rate (read_data columns) = Raise (DepthException msg) ->
  let skip := [PrintExn msg; PrintStr "Skipping..."] in
  let skipped := {| files := files w; stdout := stdout w ++ skip |} in
  let run_all := run argpartition fft_abs iirnotch filtfilt Sound_new in
  process argpartition fft_abs iirnotch filtfilt Sound_new filename w = (skipped, None)
  /\ run_all (filename :: rest) w = run_all rest skipped
  /\ exists rest_out : list line,
       stdout (run_all rest w).1 = stdout w ++ rest_out
       /\ run_all (filename :: rest) w =
          ({| files := files (run_all rest w).1;
              stdout := stdout w ++ skip ++ rest_out |},
           (run_all rest w).2).
Proof.
  intros Hfile Hdepth skip skipped run_all.
  assert (Hp : process argpartition fft_abs iirnotch filtfilt Sound_new filename w
               = (skipped, None)).
  { unfold process. rewrite Hfile. cbn zeta. rewrite Hdepth.
    unfold print, skipped, skip.
    cbn [files stdout]. now rewrite <- app_assoc. }
  assert (Hr : run_all (filename :: rest) w = run_all rest skipped).
  { unfold run_all. cbn [run]. now rewrite Hp. }
  split; [exact Hp|]. split; [exact Hr|].
  set (w0 := {| files := files w; stdout := [] |}).
  assert (Hw : w = logged (stdout w) w0).
  { destruct w. unfold logged, w0. cbn [files stdout]. now rewrite app_nil_r. }
  assert (Hs : skipped = logged (stdout w ++ skip) w0).
  { unfold logged, skipped, w0. cbn [files stdout]. now rewrite app_nil_r. }
  assert (Hrw : run_all rest w =
                (logged (stdout w) (run_all rest w0).1, (run_all rest w0).2)).
  { transitivity (run_all rest (logged (stdout w) w0)); [now rewrite <- Hw|].
    apply run_logged. }
  assert (Hrs : run_all rest skipped =
                (logged (stdout w ++ skip) (run_all rest w0).1, (run_all rest w0).2)).
  { rewrite Hs. apply run_logged. }
  exists (stdout (run_all rest w0).1).
  rewrite Hr, Hrs, Hrw. cbn [fst snd logged files stdout].
  split; [reflexivity|]. unfold logged. now rewrite app_assoc.
Qed.

Lemma depth_exception_skips_file_witness :
  let skip := [PrintExn "unsupported bit depth"; PrintStr "Skipping..."] in
  let skipped :=
    {| files := files Reference.two_files;
       stdout := stdout Reference.two_files ++ skip |} in
  let run_all :=
    run Reference.argsort Reference.constant_fft_abs Reference.allpass_iirnotch
      Reference.allpass_filtfilt Reference.Sound_16 in
  process Reference.argsort Reference.constant_fft_abs Reference.allpass_iirnotch
    Reference.allpass_filtfilt Reference.Sound_16 "a.wav" Reference.two_files
    = (skipped, None)
  /\ run_all ["a.wav"; "b.wav"] Reference.two_files = run_all ["b.wav"] skipped
  /\ exists rest_out : list line,
       stdout (run_all ["b.wav"] Reference.two_files).1
         = stdout Reference.two_files ++ rest_out
       /\ run_all ["a.wav"; "b.wav"] Reference.two_files =
          ({| files := files (run_all ["b.wav"] Reference.two_files).1;
              stdout := stdout Reference.two_files ++ skip ++ rest_out |},
           (run_all ["b.wav"] Reference.two_files).2).
Proof.
  apply (depth_exception_skips_file Reference.argsort Reference.constant_fft_abs
           Reference.allpass_iirnotch Reference.allpass_filtfilt Reference.Sound_16
           "a.wav" ["b.wav"] Reference.two_files 2 [[100000; -100000]]
           "unsupported bit depth").
  - vm_compute. reflexivity.
  - vm_compute. reflexivity.
Defined.

(** The run over the two files: the first is skipped, the second, of two
    channels, is cleaned and saved. *)
Example run_two_files :
  let r := run Reference.argsort Reference.constant_fft_abs
             Reference.allpass_iirnotch Reference.allpass_filtfilt
             Reference.Sound_16 ["a.wav"; "b.wav"] Reference.two_files in
  r.2 = None
  /\ files r.1 !! "a-out.wav" = None
  /\ files r.1 !! "b-out.wav" = Some (2, [Reference.silence_40; Reference.silence_40])
  /\ firstn 2 (stdout r.1) =
     [PrintExn "unsupported bit depth"; PrintStr "Skipping..."].
Proof. vm_compute. repeat split; reflexivity. Qed.

(** ** Silence *)

Lemma skipn_repeat {A} (x : A) (m n : nat) :
  skipn n (repeat x m) = repeat x (m - n).
Proof.
  revert n. induction m as [|m IH]; intros [|n]; try reflexivity. apply IH.
Qed.

Lemma firstn_repeat {A} (x : A) (m n : nat) :
  firstn n (repeat x m) = repeat x (Nat.min n m).
Proof.
  revert n. induction m as [|m IH]; intros [|n]; try reflexivity.
  simpl. now rewrite IH.
Qed.

Lemma py_drop_repeat {A} (x : A) (k : Z) (m : nat) :
  exists r, py_drop k (repeat x m) = repeat x r
            /\ (0 <= k -> r = (m - Z.to_nat k)%nat)
            /\ (k < 0 -> r = Nat.min (Z.to_nat (- k)) m).
Proof.
  unfold py_drop. rewrite repeat_length.
  destruct (Z.ltb_spec k 0); rewrite skipn_repeat; eexists; split; try reflexivity;
    split; intros; lia.
Qed.

Lemma py_take_repeat {A} (x : A) (k : Z) (m : nat) :
  0 <= k -> py_take k (repeat x m) = repeat x (Nat.min (Z.to_nat k) m).
Proof.
  intros Hk. unfold py_take.
  destruct (Z.ltb_spec k 0); [lia|]. apply firstn_repeat.
Qed.

Lemma py_slice_repeat {A} (x : A) (i j : Z) (m : nat) :
  exists r, py_slice i j (repeat x m) = repeat x r
            /\ (0 <= i -> i <= j -> j <= Z.of_nat m -> r = Z.to_nat (j - i)).
Proof.
  unfold py_slice. rewrite repeat_length, skipn_repeat, firstn_repeat.
  eexists. split; [reflexivity|]. intros Hi Hij Hj. unfold py_index.
  destruct (Z.ltb_spec i 0), (Z.ltb_spec j 0); lia.
Qed.

Lemma np_diff_silence (m : nat) : np_diff (repeat 0%Q m) = repeat 0%Q (m - 1).
Proof.
  induction m as [|[|m] IH]; try reflexivity.
  change (np_diff (repeat 0%Q (S (S m))))
    with ((0 - 0)%Q :: np_diff (repeat 0%Q (S m))).
  rewrite IH. simpl. now rewrite Nat.sub_0_r.
Qed.

Lemma map_Qopp_silence (m : nat) : map Qopp (repeat 0%Q m) = repeat 0%Q m.
Proof. induction m as [|m IH]; [reflexivity|]. simpl. now rewrite IH. Qed.

(** *** A bin paired with itself *)

Lemma pair_emit_self (h : Z) : pair_emit h h = [(h, h)].
Proof.
  unfold pair_emit, sub64. rewrite Z.sub_diag.
  change (abs64 (wrap64 0)) with 0. cbn. now rewrite Z.ltb_irrefl.
Qed.

Lemma pair_emit_length (h l : Z) : (length (pair_emit h l) <= 1)%nat.
Proof. unfold pair_emit. destruct (_ <? _); simpl; lia. Qed.

Lemma flat_map_length_le {A B} (f : A -> list B) (c : nat) (l : list A) :
  (forall x, (length (f x) <= c)%nat) ->
  (length (flat_map f l) <= c * length l)%nat.
Proof.
  intros H. induction l as [|x l IH]; simpl; [lia|].
  rewrite length_app. specialize (H x). lia.
Qed.

Lemma flat_map_length_ge {A B} (f : A -> list B) (l : list A) :
  (forall x, In x l -> (1 <= length (f x))%nat) ->
  (length l <= length (flat_map f l))%nat.
Proof.
  induction l as [|x l IH]; intros H; simpl; [lia|].
  rewrite length_app. pose proof (H x (or_introl eq_refl)).
  specialize (IH (fun y Hy => H y (or_intror Hy))). lia.
Qed.

Lemma flat_map_hit {A B} (f : A -> list B) (l : list A) (x : A) (y : B) :
  In x l -> f x = [y] -> (1 <= length (flat_map f l))%nat.
Proof.
  intros Hx Hf. induction l as [|z l IH]; [destruct Hx|].
  simpl. rewrite length_app. destruct Hx as [->|Hx]; [rewrite Hf; simpl; lia|].
  specialize (IH Hx). lia.
Qed.

Lemma pair_loop_self_length (ind : list Z) :
  (length ind <= length (pair_loop ind ind) <= length ind * length ind)%nat.
Proof.
  rewrite pair_loop_flat_map. split.
  - apply flat_map_length_ge. intros h Hh.
    exact (flat_map_hit (pair_emit h) ind h (h, h) Hh (pair_emit_self h)).
  - apply flat_map_length_le. intros h.
    pose proof (flat_map_length_le (pair_emit h) 1 ind (pair_emit_length h)). lia.
Qed.

Section Silence.

Variable argpartition : list Q -> nat -> list nat.
Hypothesis argpartition_length :
  forall a kth, length (argpartition a kth) = length a.

Lemma np_argpartition_last (a : list Q) :
  np_argpartition argpartition a (- num_outstanding) =
  if (length a =? 0)%nat then Ok []
  else if (length a <? 3)%nat then Raise ValueError
  else Ok (map Z.of_nat (argpartition a (length a - 3))).
Proof.
  destruct a as [|x a]; [reflexivity|].
  unfold np_argpartition, num_outstanding. change (- (3)) with (-3).
  change (-3 <? 0) with true. cbn iota.
  set (l := x :: a). change (length l =? 0)%nat with false. cbn iota.
  destruct (Nat.ltb_spec (length l) 3) as [Hlt|Hge].
  - destruct (Z.ltb_spec (-3 + Z.of_nat (length l)) 0); [reflexivity | lia].
  - destruct (Z.ltb_spec (-3 + Z.of_nat (length l)) 0); [lia|].
    destruct (Z.leb_spec (Z.of_nat (length l)) (-3 + Z.of_nat (length l))); [lia|].
    cbn [orb]. do 3 f_equal. lia.
Qed.

Lemma py_drop_last_length {A} (l : list A) :
  (3 <= length l)%nat -> length (py_drop (- num_outstanding) l) = 3%nat.
Proof.
  intros H. unfold py_drop, num_outstanding. change (- (3)) with (-3).
  change (-3 <? 0) with true. cbn iota. rewrite length_skipn. lia.
Qed.

(** On a silent spectrum the two selections are one selection. *)
Lemma select_outstanding_silence (k : nat) (points_per_sample : Z) :
  exists m,
    py_drop (points_per_sample / 4) (np_diff (repeat 0%Q k)) = repeat 0%Q m
    /\ ((m = 0%nat
         /\ select_outstanding argpartition (repeat 0%Q k) points_per_sample
            = Ok ([], []))
        \/ ((0 < m < 3)%nat
            /\ select_outstanding argpartition (repeat 0%Q k) points_per_sample
               = Raise ValueError)
        \/ ((3 <= m)%nat
            /\ exists ind, length ind = 3%nat
                 /\ select_outstanding argpartition (repeat 0%Q k) points_per_sample
                    = Ok (ind, ind))).
Proof.
  rewrite np_diff_silence.
  destruct (py_drop_repeat 0%Q (points_per_sample / 4) (k - 1)) as (m & Hm & _).
  exists m. split; [exact Hm|].
  unfold select_outstanding. rewrite np_diff_silence, Hm, map_Qopp_silence.
  rewrite np_argpartition_last, repeat_length.
  destruct (Nat.eqb_spec m 0) as [->|H0]; cbn [mbind result_bind]; [left; now split|].
  right.
  destruct (Nat.ltb_spec m 3) as [Hlt|Hge]; cbn [mbind result_bind].
  - left. split; [lia | reflexivity].
  - right. split; [exact Hge|]. eexists. split; [|reflexivity].
    rewrite length_map, py_drop_last_length; [reflexivity|].
    now rewrite length_map, argpartition_length, repeat_length.
Qed.

Lemma find_outstanding_silence (k : nat) (rate points_per_sample : Z) :
  exists m,
    py_drop (points_per_sample / 4) (np_diff (repeat 0%Q k)) = repeat 0%Q m
    /\ ((m = 0%nat
         /\ find_outstanding_frequencies argpartition (repeat 0%Q k) rate
              points_per_sample = Ok [])
        \/ ((0 < m < 3)%nat
            /\ find_outstanding_frequencies argpartition (repeat 0%Q k) rate
                 points_per_sample = Raise ValueError)
        \/ ((3 <= m)%nat
            /\ exists ret, (3 <= length ret <= 9)%nat
                 /\ find_outstanding_frequencies argpartition (repeat 0%Q k) rate
                      points_per_sample = Ok ret)).
Proof.
  destruct (select_outstanding_silence k points_per_sample)
    as (m & Hm & [[H0 Hsel]|[[Hlt Hsel]|[Hge (ind & Hlen & Hsel)]]]);
    exists m; (split; [exact Hm|]); unfold find_outstanding_frequencies;
    rewrite Hsel; cbn [mbind result_bind].
  - left. now split.
  - right. left. now split.
  - right. right. split; [exact Hge|]. eexists. split; [|reflexivity].
    unfold pair_outstanding.
    pose proof (pair_loop_self_length (map (normalize rate points_per_sample) ind)) as H.
    rewrite length_map, Hlen in H. exact H.
Qed.

End Silence.

(** *** Few candidates confirm nothing *)

Lemma value_place_counts (c : row) (avg : Q) (final : list (row * Z)) (m : Z) :
  Forall (fun v : row * Z => v.2 <= m) final ->
  match value_place c avg final with
  | Some final' => Forall (fun v : row * Z => v.2 <= m + 1) final'
  | None => True
  end.
Proof.
  induction 1 as [|v final Hv Hfinal IH]; [exact I|].
  cbn [value_place]. destruct (close_to avg (value_favg v)).
  - constructor; [simpl; lia|]. revert Hfinal. apply List.Forall_impl. intros; lia.
  - destruct (value_place c avg final); cbn [mbind option_bind]; [|exact I].
    constructor; [lia | exact IH].
Qed.

Lemma value_steps_counts (cs : list row) (final : list (row * Z)) (m : Z) :
  0 <= m -> Forall (fun v : row * Z => v.2 <= m) final ->
  Forall (fun v : row * Z => v.2 <= m + Z.of_nat (length cs))
    (fold_left value_step cs final).
Proof.
  revert final m. induction cs as [|c cs IH]; intros final m Hm H.
  - simpl. revert H. apply List.Forall_impl. intros; lia.
  - cbn [fold_left length]. rewrite Nat2Z.inj_succ.
    replace (m + Z.succ (Z.of_nat (length cs)))
      with ((m + 1) + Z.of_nat (length cs)) by lia.
    apply IH; [lia|]. unfold value_step.
    pose proof (value_place_counts c (avg_of c) final m H) as Hp.
    destruct (value_place c (avg_of c) final); [exact Hp|].
    apply Forall_app. split; [|repeat constructor; simpl; lia].
    revert H. apply List.Forall_impl. intros; lia.
Qed.

Lemma value_confirm_none (vs : list (row * Z)) :
  Forall (fun v : row * Z => v.2 <= FREQUENCY_MINIMUM_COUNT) vs ->
  fold_left value_confirm_step vs [] = [].
Proof.
  induction 1 as [|v vs Hv _ IH]; [reflexivity|].
  cbn [fold_left]. unfold value_confirm_step at 2.
  destruct (Z.ltb_spec FREQUENCY_MINIMUM_COUNT v.2); [lia | exact IH].
Qed.

Lemma few_candidates_confirm_nothing (cand : list row) :
  cand <> [] -> (length cand <= 20)%nat ->
  extract_bandstop_frequencies cand = Ok [].
Proof.
  intros Hne Hlen. destruct cand as [|c cand]; [contradiction|].
  rewrite extract_bandstop_frequencies_values. f_equal.
  apply value_confirm_none.
  pose proof (value_steps_counts (expand (c :: cand)) [] 0 (Z.le_refl 0)
                (List.Forall_nil _)) as H.
  revert H. apply List.Forall_impl. intros v Hv.
  unfold expand in Hv. rewrite !length_map in Hv.
  unfold FREQUENCY_MINIMUM_COUNT. lia.
Qed.

(** *** The windows of a silent channel *)

Lemma points_per_sample_eq (rate : Z) : FFT_SAMPLE_SIZE * rate / 1000 = 10 * rate.
Proof.
  unfold FFT_SAMPLE_SIZE. replace (10000 * rate) with (10 * rate * 1000) by lia.
  apply Z.div_mul. lia.
Qed.

Lemma repeat_inj {A} (x : A) (m r : nat) : repeat x m = repeat x r -> m = r.
Proof. intros H. apply (f_equal (@length A)) in H. now rewrite !repeat_length in H. Qed.

Section SilentChannel.

Context {coeffs : Type}.
Variable argpartition : list Q -> nat -> list nat.
Variable fft_abs : list Z -> list Q.
Variable iirnotch : Q -> Q -> result coeffs.
Variable filtfilt : coeffs -> list Z -> result (list Z).

Hypothesis argpartition_length :
  forall a kth, length (argpartition a kth) = length a.
Hypothesis fft_silence : forall m, fft_abs (repeat 0 m) = repeat 0%Q m.

Lemma spectrum_silence (r : nat) :
  (r = 0%nat /\ spectrum fft_abs (repeat 0 r) = Raise ValueError)
  \/ exists k, spectrum fft_abs (repeat 0 r) = Ok (repeat 0%Q k)
               /\ (2 <= r -> k = Z.to_nat (Z.of_nat r / 2 - 1))%nat.
Proof.
  destruct r as [|r]; [left; now split | right].
  unfold spectrum. cbn [repeat]. change (0 :: repeat 0 r) with (repeat 0 (S r)).
  rewrite fft_silence, repeat_length.
  destruct (Z.ltb_spec (Z.of_nat (S r) / 2 - 1) 0) as [Hlt|Hge].
  - exists 0%nat. split.
    + assert (r = 0%nat) as ->.
      { clear - Hlt. Z.to_euclidean_division_equations. lia. }
      reflexivity.
    + intros Hr. exfalso.
      assert (1 <= Z.of_nat (S r) / 2) by (apply Z.div_le_lower_bound; lia). lia.
  - eexists. split; [now rewrite py_take_repeat by exact Hge|].
    intros _. apply Nat.min_l.
    assert (Z.of_nat (S r) / 2 <= Z.of_nat (S r)); [|lia].
    apply Z.div_le_upper_bound; lia.
Qed.

(** A full window of a silent channel yields at least three candidates. *)
Lemma parse_step_full_window (n : nat) (sndobj : Sound) (points_per_sample : Z)
    (acc : list row) (i : Z) :
  20 <= points_per_sample -> 0 <= i -> i + points_per_sample <= Z.of_nat n ->
  exists ret, (3 <= length ret <= 9)%nat
    /\ parse_step argpartition fft_abs (repeat 0 n) sndobj points_per_sample acc i
       = Ok (acc ++ ret).
Proof.
  intros Hp Hi Hn. unfold parse_step, window.
  destruct (py_slice_repeat 0 i (i + points_per_sample) n) as (r & -> & Hr).
  specialize (Hr Hi ltac:(lia) Hn).
  replace (i + points_per_sample - i) with points_per_sample in Hr by lia.
  destruct (spectrum_silence r) as [[-> _]|(k & -> & Hk)]; [lia|].
  specialize (Hk ltac:(lia)). cbn [mbind result_bind].
  destruct (find_outstanding_silence argpartition argpartition_length k
              (fs sndobj) points_per_sample)
    as (m & Hm & [[Hlt _]|[[Hlt _]|[_ (ret & Hlen & ->)]]]);
    [exfalso | exfalso | now exists ret].
  all: rewrite np_diff_silence in Hm.
  all: destruct (py_drop_repeat 0%Q (points_per_sample / 4) (k - 1))
         as (m' & Hm' & Hpos & _).
  all: rewrite Hm' in Hm; apply repeat_inj in Hm; subst m'.
  all: assert (H4 : 0 <= points_per_sample / 4) by (apply Z.div_pos; lia).
  all: specialize (Hpos H4); subst r k.
  all: rewrite Z2Nat.id in Hpos by lia.
  all: assert (points_per_sample / 4 + 5 <= points_per_sample / 2)
         by (clear - Hp; Z.to_euclidean_division_equations; lia).
  all: lia.
Qed.

End SilentChannel.

Lemma py_range_one (p : Z) : 0 < p -> py_range p p = [0].
Proof.
  intros Hp. unfold py_range. destruct (Z.ltb_spec 0 p); [|lia].
  replace ((p + p - 1) / p) with 1; [reflexivity|].
  apply Z.div_unique with (r := p - 1); lia.
Qed.

Lemma py_range_two (p : Z) : 0 < p -> py_range (2 * p) p = [0; p].
Proof.
  intros Hp. unfold py_range. destruct (Z.ltb_spec 0 p); [|lia].
  replace ((2 * p + p - 1) / p) with 2.
  - change (Z.to_nat 2) with 2%nat. cbn [seq map].
    replace (Z.of_nat 1 * p) with p by lia. reflexivity.
  - apply Z.div_unique with (r := p - 1); lia.
Qed.

Section SilentParse.

Context {coeffs : Type}.
Variable argpartition : list Q -> nat -> list nat.
Variable fft_abs : list Z -> list Q.
Variable iirnotch : Q -> Q -> result coeffs.
Variable filtfilt : coeffs -> list Z -> result (list Z).

Hypothesis argpartition_length :
  forall a kth, length (argpartition a kth) = length a.
Hypothesis fft_silence : forall m, fft_abs (repeat 0 m) = repeat 0%Q m.

Lemma parse_loop_full_windows (n : nat) (sndobj : Sound) (points_per_sample : Z)
    (starts : list Z) (acc : list row) :
  20 <= points_per_sample ->
  Forall (fun i => 0 <= i /\ i + points_per_sample <= Z.of_nat n) starts ->
  exists cand,
    parse_loop argpartition fft_abs (repeat 0 n) sndobj points_per_sample acc starts
      = Ok cand
    /\ (length acc + 3 * length starts <= length cand
        <= length acc + 9 * length starts)%nat.
Proof.
  intros Hp Hstarts. revert acc.
  induction Hstarts as [|i starts [Hi Hn] _ IH]; intros acc.
  - exists acc. split; [reflexivity | unfold row; simpl; lia].
  - cbn [parse_loop].
    destruct (parse_step_full_window argpartition fft_abs argpartition_length
                fft_silence n sndobj points_per_sample acc i Hp Hi Hn)
      as (ret & Hlen & ->).
    cbn [mbind result_bind]. destruct (IH (acc ++ ret)) as (cand & -> & Hc).
    exists cand. split; [reflexivity|]. rewrite length_app in Hc.
    unfold row in *. simpl length. lia.
Qed.

Lemma parse_short_silence (n : nat) (sndobj : Sound) :
  2 <= fs sndobj -> samples sndobj = Z.of_nat n ->
  Z.of_nat n = FFT_SAMPLE_SIZE * fs sndobj / 1000
  \/ Z.of_nat n = 2 * (FFT_SAMPLE_SIZE * fs sndobj / 1000) ->
  exists cand,
    parse_loop argpartition fft_abs (repeat 0 n) sndobj
      (FFT_SAMPLE_SIZE * fs sndobj / 1000) []
      (py_range (samples sndobj) (FFT_SAMPLE_SIZE * fs sndobj / 1000)) = Ok cand
    /\ (3 <= length cand <= 18)%nat
    /\ extract_bandstop_frequencies cand = Ok []
    /\ parse argpartition fft_abs iirnotch filtfilt (repeat 0 n) sndobj
       = Ok (repeat 0 n).
Proof.
  intros Hfs Hsamples Hn. unfold parse. rewrite Hsamples.
  set (p := FFT_SAMPLE_SIZE * fs sndobj / 1000) in *.
  assert (Hp : 20 <= p) by (unfold p; rewrite points_per_sample_eq; lia).
  destruct (Z.eqb_spec p 0); [lia|].
  assert (Hloop : exists cand,
    parse_loop argpartition fft_abs (repeat 0 n) sndobj p [] (py_range (Z.of_nat n) p)
      = Ok cand /\ (3 <= length cand <= 18)%nat).
  { destruct Hn as [Hn|Hn].
    - replace (py_range (Z.of_nat n) p) with [0]
        by (rewrite Hn; symmetry; apply py_range_one; lia).
      destruct (parse_loop_full_windows n sndobj p [0] [] Hp) as (cand & Hc & Hl).
      + repeat constructor; lia.
      + exists cand. split; [exact Hc | simpl in Hl; lia].
    - replace (py_range (Z.of_nat n) p) with [0; p]
        by (rewrite Hn; symmetry; apply py_range_two; lia).
      destruct (parse_loop_full_windows n sndobj p [0; p] [] Hp) as (cand & Hc & Hl).
      + repeat constructor; lia.
      + exists cand. split; [exact Hc | simpl in Hl; lia]. }
  destruct Hloop as (cand & Hloop & Hlen). exists cand.
  assert (Hex : extract_bandstop_frequencies cand = Ok []).
  { apply few_candidates_confirm_nothing; [|unfold row in *; lia].
    intros ->. simpl in Hlen. lia. }
  rewrite Hloop. cbn [mbind result_bind]. rewrite Hex. repeat split; lia.
Qed.

End SilentParse.

(** C2, as the code has it.  The extractor has no amplitude test: of a
    silent window it selects the same three bins as rising and as falling
    edges, and each pairs with itself.  So in a channel of zeros every full
    window yields between three and nine candidates; and a channel of one
    or two full windows, with its 18 candidates at most, has no confirmed
    cluster and is returned by [parse] as it came.  The libraries enter by
    what they do on silence: the transform of zeros is zeros, and
    [argpartition] returns as many indices as it is given elements. *)
Theorem silent_channel_yields_candidates {coeffs : Type}
    (argpartition : list Q -> nat -> list nat) (fft_abs : list Z -> list Q)
    (iirnotch : Q -> Q -> result coeffs)
    (filtfilt : coeffs -> list Z -> result (list Z))
    (n : nat) (sndobj : Sound) :
  (forall a kth, length (argpartition a kth) = length a) ->
  (forall m, fft_abs (repeat 0 m) = repeat 0%Q m) ->
  2 <= fs sndobj -> samples sndobj = Z.of_nat n ->
  let points_per_sample := FFT_SAMPLE_SIZE * fs sndobj / 1000 in
  let channel := repeat 0 n in
  (forall i acc, 0 <= i -> i + points_per_sample <= Z.of_nat n ->
     exists ret, (3 <= length ret <= 9)%nat
       /\ parse_step argpartition fft_abs channel sndobj points_per_sample acc i
          = Ok (acc ++ ret))
  /\ (Z.of_nat n = points_per_sample \/ Z.of_nat n = 2 * points_per_sample ->
      exists cand,
        parse_loop argpartition fft_abs channel sndobj points_per_sample []
          (py_range (samples sndobj) points_per_sample) = Ok cand
        /\ (3 <= length cand <= 18)%nat
        /\ extract_bandstop_frequencies cand = Ok []
        /\ parse argpartition fft_abs iirnotch filtfilt channel sndobj = Ok channel).
Proof.
  intros Harg Hfft Hfs Hsamples points_per_sample channel. split.
  - intros i acc Hi Hn. apply parse_step_full_window; try assumption.
    unfold points_per_sample. rewrite points_per_sample_eq. lia.
  - intros Hn. now apply parse_short_silence.
Qed.

(** *** The instances on silence *)

Lemma insert_by_length (a : list Q) (i : nat) (sorted : list nat) :
  length (Reference.insert_by a i sorted) = S (length sorted).
Proof.
  induction sorted as [|j sorted IH]; [reflexivity|].
  simpl. destruct (Qltb _ _); simpl; now rewrite ?IH.
Qed.

Lemma argsort_length (a : list Q) (kth : nat) :
  length (Reference.argsort a kth) = length a.
Proof.
  unfold Reference.argsort.
  enough (H : forall todo sorted,
    length (fold_left (fun sorted i => Reference.insert_by a i sorted) todo sorted)
    = (length sorted + length todo)%nat).
  { rewrite H, length_seq. reflexivity. }
  induction todo as [|i todo IH]; intros sorted; simpl; [lia|].
  rewrite IH, insert_by_length. lia.
Qed.

Lemma constant_fft_abs_silence (m : nat) :
  Reference.constant_fft_abs (repeat 0 m) = repeat 0%Q m.
Proof.
  destruct m as [|m]; [reflexivity|].
  unfold Reference.constant_fft_abs. cbn [repeat]. rewrite repeat_length.
  replace (fold_right Z.add 0 (0 :: repeat 0 m)) with 0; [reflexivity|].
  induction m as [|m IH]; [reflexivity|]. simpl in *. exact IH.
Qed.

Lemma silent_channel_yields_candidates_witness :
  let points_per_sample := 20 in
  let channel := repeat 0 40 in
  (forall i acc, 0 <= i -> i + points_per_sample <= Z.of_nat 40 ->
     exists ret, (3 <= length ret <= 9)%nat
       /\ parse_step Reference.argsort Reference.constant_fft_abs channel
            Reference.sound_40 points_per_sample acc i = Ok (acc ++ ret))
  /\ (Z.of_nat 40 = points_per_sample \/ Z.of_nat 40 = 2 * points_per_sample ->
      exists cand,
        parse_loop Reference.argsort Reference.constant_fft_abs channel
          Reference.sound_40 points_per_sample []
          (py_range (samples Reference.sound_40) points_per_sample) = Ok cand
        /\ (3 <= length cand <= 18)%nat
        /\ extract_bandstop_frequencies cand = Ok []
        /\ parse Reference.argsort Reference.constant_fft_abs
             Reference.allpass_iirnotch Reference.allpass_filtfilt channel
             Reference.sound_40 = Ok channel).
Proof.
  apply (silent_channel_yields_candidates Reference.argsort
           Reference.constant_fft_abs Reference.allpass_iirnotch
           Reference.allpass_filtfilt 40 Reference.sound_40).
  - exact argsort_length.
  - exact constant_fft_abs_silence.
  - simpl. lia.
  - reflexivity.
Defined.

(** C2 as the spec words it fails on sixty samples of silence at 2 Hz: the
    first window yields nine candidates, the three windows twenty-seven, and
    the aggregator confirms the band (-50, 50). *)
Lemma silence_yields_candidates_and_a_band :
  parse_step Reference.argsort Reference.constant_fft_abs Reference.silence_60
    Reference.sound_60 20 [] 0 = Ok (repeat (0, 0) 9)
  /\ parse_loop Reference.argsort Reference.constant_fft_abs Reference.silence_60
       Reference.sound_60 20 [] (py_range 60 20) = Ok (repeat (0, 0) 27)
  /\ extract_bandstop_frequencies (repeat (0, 0) 27) = Ok [(-50, 50)%Q].
Proof. repeat split; vm_compute; reflexivity. Qed.

(** * Further properties of the code *)

(** ** [gen_output_filename] *)

Lemma list_ascii_of_string_app (a b : string) :
  list_ascii_of_string (a +:+ b) = list_ascii_of_string a ++ list_ascii_of_string b.
Proof. induction a as [|c a IH]; [reflexivity|]. simpl. now rewrite IH. Qed.

(** The scan from the end passes the characters that are no dot and stops
    at the first dot. *)
Lemma match_extension_stops (suffix before : list ascii) (passed : nat) :
  Forall (fun c => c <> "."%char) suffix ->
  match_extension (suffix ++ "."%char :: before) passed =
  if Nat.eqb (passed + length suffix) 0 then None else Some before.
Proof.
  intros H. revert passed. induction H as [|c suffix Hc _ IH]; intros passed.
  - simpl. now rewrite Nat.add_0_r.
  - cbn [app match_extension]. apply Ascii.eqb_neq in Hc. rewrite Hc, IH.
    simpl length. now replace (S passed + length suffix)%nat
      with (passed + S (length suffix))%nat by lia.
Qed.

Lemma match_extension_no_dot (chars : list ascii) (passed : nat) :
  Forall (fun c => c <> "."%char) chars -> match_extension chars passed = None.
Proof.
  intros H. revert passed. induction H as [|c chars Hc _ IH]; intros passed;
    [reflexivity|].
  cbn [match_extension]. apply Ascii.eqb_neq in Hc. now rewrite Hc.
Qed.

(** X1: a name [stem.ext], with an extension of at least one character and
    no dot in it, becomes [stem-out.wav], whatever dots the stem has. *)
Theorem gen_output_filename_replaces_extension (stem ext : string) :
  ext <> ""%string ->
  Forall (fun c => c <> "."%char) (list_ascii_of_string ext) ->
  gen_output_filename (stem +:+ "." +:+ ext) = stem +:+ "-out.wav".
Proof.
  intros Hne Hdots. unfold gen_output_filename.
  rewrite list_ascii_of_string_app.
  change (list_ascii_of_string ("." +:+ ext))
    with ("."%char :: list_ascii_of_string ext).
  rewrite rev_app_distr. cbn [rev]. rewrite <- app_assoc. cbn [app].
  rewrite match_extension_stops by (apply Forall_rev, Hdots).
  rewrite length_rev.
  destruct ext as [|c ext]; [contradiction|]. cbn [list_ascii_of_string length].
  cbn [Nat.add Nat.eqb]. now rewrite rev_involutive, string_of_list_ascii_of_string.
Qed.

Lemma gen_output_filename_replaces_extension_witness :
  gen_output_filename ("take.2/song" +:+ "." +:+ "flac") = "take.2/song" +:+ "-out.wav".
Proof.
  apply gen_output_filename_replaces_extension.
  - discriminate.
  - repeat constructor; discriminate.
Defined.

(** X2: a name with no dot, and a name that ends in a dot, are returned as
    they are: the output of [process] then has the name of its input. *)
Theorem gen_output_filename_keeps_name (filename : string) :
  Forall (fun c => c <> "."%char) (list_ascii_of_string filename)
  \/ (exists stem, filename = stem +:+ ".") ->
  gen_output_filename filename = filename.
Proof.
  intros [H|[stem ->]]; unfold gen_output_filename.
  - now rewrite match_extension_no_dot by (apply Forall_rev, H).
  - rewrite list_ascii_of_string_app, rev_app_distr. reflexivity.
Qed.

Lemma gen_output_filename_keeps_name_witness :
  gen_output_filename "recording" = "recording"%string.
Proof.
  apply gen_output_filename_keeps_name. left. repeat constructor; discriminate.
Defined.

(** ** [find_outstanding_frequencies] on any spectrum *)

Lemma py_drop_last_le {A} (l : list A) :
  (length (py_drop (- num_outstanding) l) <= 3)%nat.
Proof.
  unfold py_drop, num_outstanding. change (- (3)) with (-3).
  change (-3 <? 0) with true. cbn iota. rewrite length_skipn. lia.
Qed.

Lemma pair_loop_length_le (high_ind low_ind : list Z) :
  (length (pair_loop high_ind low_ind) <= length low_ind * length high_ind)%nat.
Proof.
  rewrite pair_loop_flat_map. apply flat_map_length_le. intros h.
  pose proof (flat_map_length_le (pair_emit h) 1 low_ind (pair_emit_length h)). lia.
Qed.

(** The selection raises exactly when one or two differences stand at or
    above the low band; it selects nothing when none does, and at most
    three bins of each kind otherwise. *)
Lemma select_outstanding_cases (argpartition : list Q -> nat -> list nat)
    (data : list Q) (points_per_sample : Z) :
  let m := length (py_drop (points_per_sample / 4) (np_diff data)) in
  ((0 < m < 3)%nat
   /\ select_outstanding argpartition data points_per_sample = Raise ValueError)
  \/ ((m = 0 \/ 3 <= m)%nat
      /\ exists low_ind high_ind,
           (length low_ind <= 3)%nat /\ (length high_ind <= 3)%nat
           /\ (m = 0%nat -> low_ind = [] /\ high_ind = [])
           /\ select_outstanding argpartition data points_per_sample
              = Ok (low_ind, high_ind)).
Proof.
  intros m. unfold select_outstanding.
  rewrite !np_argpartition_last, length_map. fold m.
  destruct (Nat.eqb_spec m 0) as [H0|H0]; cbn [mbind result_bind].
  - right. split; [now left|]. exists [], []. repeat split; simpl; lia.
  - destruct (Nat.ltb_spec m 3) as [Hlt|Hge]; cbn [mbind result_bind].
    + left. split; [lia | reflexivity].
    + right. split; [now right|]. do 2 eexists.
      split; [|split; [|split; [|reflexivity]]];
        try (rewrite length_map; apply py_drop_last_le).
      intros E. lia.
Qed.

(** X3: what [find_outstanding_frequencies] returns is decided by the
    number of differences of the spectrum that stand at or above the low
    band, whatever the spectrum holds: with none it returns no candidate,
    with one or two it raises [ValueError], and with three or more it
    returns at most nine candidates, each ordered. *)
Theorem find_outstanding_frequencies_cases
    (argpartition : list Q -> nat -> list nat) (data : list Q)
    (rate points_per_sample : Z) :
  let m := length (py_drop (points_per_sample / 4) (np_diff data)) in
  (m = 0%nat ->
     find_outstanding_frequencies argpartition data rate points_per_sample = Ok [])
  /\ ((0 < m < 3)%nat ->
      find_outstanding_frequencies argpartition data rate points_per_sample
      = Raise ValueError)
  /\ ((3 <= m)%nat ->
      exists ret,
        find_outstanding_frequencies argpartition data rate points_per_sample = Ok ret
        /\ (length ret <= 9)%nat /\ Forall ordered ret).
Proof.
  intros m. unfold find_outstanding_frequencies.
  destruct (select_outstanding_cases argpartition data points_per_sample)
    as [[Hlt ->]|[Hm (low_ind & high_ind & Hl & Hh & Hnil & ->)]];
    fold m in Hlt || fold m in Hm, Hnil; cbn [mbind result_bind].
  - split; [lia|]. split; [reflexivity | lia].
  - split; [|split].
    + intros H0. destruct (Hnil H0) as [-> ->]. reflexivity.
    + lia.
    + intros _. eexists. split; [reflexivity|]. split.
      * unfold pair_outstanding.
        pose proof (pair_loop_length_le
                      (map (normalize rate points_per_sample) high_ind)
                      (map (normalize rate points_per_sample) low_ind)) as Hlen.
        rewrite !length_map in Hlen. nia.
      * apply pair_loop_ordered.
Qed.

(** ** [parse] on channels it cannot analyse *)

Lemma np_diff_length (data : list Q) : length (np_diff data) = (length data - 1)%nat.
Proof.
  induction data as [|x [|y data] IH]; try reflexivity.
  change (np_diff (x :: y :: data)) with ((y - x)%Q :: np_diff (y :: data)).
  cbn [length] in *. rewrite IH. lia.
Qed.

Lemma py_slice_length {A} (i j : Z) (l : list A) :
  0 <= i -> i <= j ->
  length (py_slice i j l)
  = Z.to_nat (Z.min j (Z.of_nat (length l)) - Z.min i (Z.of_nat (length l))).
Proof.
  intros Hi Hij. unfold py_slice, py_index.
  destruct (Z.ltb_spec i 0), (Z.ltb_spec j 0); try lia.
  rewrite length_firstn, length_skipn. lia.
Qed.

Lemma py_take_length {A} (k : Z) (l : list A) :
  length (py_take k l)
  = if k <? 0 then (length l - Z.to_nat (- k))%nat
    else Nat.min (Z.to_nat k) (length l).
Proof.
  unfold py_take. destruct (k <? 0); rewrite length_firstn; lia.
Qed.

Lemma py_drop_length {A} (k : Z) (l : list A) :
  0 <= k -> length (py_drop k l) = (length l - Z.to_nat k)%nat.
Proof.
  intros Hk. unfold py_drop. destruct (Z.ltb_spec k 0); [lia|]. apply length_skipn.
Qed.

Section Analysis.

Context {sample : Type}.
Variable argpartition : list Q -> nat -> list nat.
Variable fft_abs : list sample -> list Q.
Hypothesis fft_length : forall w, length (fft_abs w) = length w.

(** The spectrum of a window has half its length less one bins. *)
Lemma spectrum_length (w : list sample) :
  w <> [] ->
  exists s, spectrum fft_abs w = Ok s
            /\ length s = Z.to_nat (Z.of_nat (length w) / 2 - 1).
Proof.
  intros Hw. destruct w as [|x w]; [contradiction|].
  unfold spectrum. eexists. split; [reflexivity|].
  rewrite py_take_length, fft_length.
  set (n := length (x :: w)). assert (1 <= n)%nat by (unfold n; simpl; lia).
  destruct (Z.ltb_spec (Z.of_nat n / 2 - 1) 0);
    Z.to_euclidean_division_equations; lia.
Qed.

(** The differences of a window that stand at or above the low band. *)
Lemma window_differences (w : list sample) (points_per_sample : Z) :
  w <> [] -> 0 <= points_per_sample ->
  exists s, spectrum fft_abs w = Ok s
    /\ Z.of_nat (length (py_drop (points_per_sample / 4) (np_diff s)))
       = Z.max 0 (Z.of_nat (length w) / 2 - 2 - points_per_sample / 4).
Proof.
  intros Hw Hp. destruct (spectrum_length w Hw) as (s & Hs & Hlen).
  exists s. split; [exact Hs|].
  assert (H4 : 0 <= points_per_sample / 4) by (apply Z.div_pos; lia).
  rewrite py_drop_length, np_diff_length, Hlen by exact H4. lia.
Qed.

(** A window that leaves one or two differences above the low band. *)
Lemma parse_step_short_window (sound_data : list sample) (sndobj : Sound)
    (points_per_sample : Z) (acc : list row) (i : Z) :
  0 <= points_per_sample ->
  points_per_sample / 4 + 3
    <= Z.of_nat (length (window sound_data points_per_sample i)) / 2
    <= points_per_sample / 4 + 4 ->
  parse_step argpartition fft_abs sound_data sndobj points_per_sample acc i
  = Raise ValueError.
Proof.
  intros Hp Hshort. unfold parse_step.
  destruct (window sound_data points_per_sample i) as [|x w] eqn:Hw.
  { exfalso. change (Z.of_nat (length (@nil sample)) / 2) with 0 in Hshort.
    assert (0 <= points_per_sample / 4) by (apply Z.div_pos; lia). lia. }
  destruct (window_differences (x :: w) points_per_sample ltac:(discriminate) Hp)
    as (s & -> & Hm).
  cbn [mbind result_bind].
  destruct (select_outstanding_cases argpartition s points_per_sample)
    as [[_ Hsel]|[Hge _]].
  - unfold find_outstanding_frequencies. now rewrite Hsel.
  - exfalso. lia.
Qed.

(** A window that leaves no difference above the low band adds no
    candidate. *)
Lemma parse_step_skipped_window (sound_data : list sample) (sndobj : Sound)
    (points_per_sample : Z) (acc : list row) (i : Z) :
  0 <= points_per_sample ->
  window sound_data points_per_sample i <> [] ->
  Z.of_nat (length (window sound_data points_per_sample i)) / 2
    <= points_per_sample / 4 + 2 ->
  parse_step argpartition fft_abs sound_data sndobj points_per_sample acc i = Ok acc.
Proof.
  intros Hp Hne Hshort. unfold parse_step.
  destruct (window_differences _ points_per_sample Hne Hp) as (s & -> & Hm).
  cbn [mbind result_bind]. unfold find_outstanding_frequencies.
  destruct (select_outstanding_cases argpartition s points_per_sample)
    as [[Hlt _]|[_ (low_ind & high_ind & _ & _ & Hnil & ->)]]; [exfalso; lia|].
  destruct Hnil as [-> ->]; [lia|].
  cbn [mbind result_bind]. unfold pair_outstanding, pair_loop. cbn.
  now rewrite app_nil_r.
Qed.

End Analysis.

Section Raises.

Context {sample : Type}.
Variable argpartition : list Q -> nat -> list nat.
Variable fft_abs : list sample -> list Q.

(** The loop of [parse] raises nothing but [ValueError]. *)
Lemma parse_step_raises (sound_data : list sample) (sndobj : Sound)
    (points_per_sample : Z) (acc : list row) (i : Z) (e : exn) :
  parse_step argpartition fft_abs sound_data sndobj points_per_sample acc i = Raise e ->
  e = ValueError.
Proof.
  unfold parse_step, spectrum.
  destruct (window sound_data points_per_sample i) as [|x w];
    cbn [mbind result_bind]; [now intros [= <-]|].
  unfold find_outstanding_frequencies.
  destruct (select_outstanding_cases argpartition
              (py_take (Z.of_nat (length (fft_abs (x :: w))) / 2 - 1) (fft_abs (x :: w)))
              points_per_sample)
    as [[_ ->]|[_ (low_ind & high_ind & _ & _ & _ & ->)]]; cbn [mbind result_bind].
  - now intros [= <-].
  - discriminate.
Qed.

Lemma parse_loop_raises (sound_data : list sample) (sndobj : Sound)
    (points_per_sample : Z) (starts : list Z) (acc : list row) (e : exn) :
  parse_loop argpartition fft_abs sound_data sndobj points_per_sample acc starts
    = Raise e ->
  e = ValueError.
Proof.
  revert acc. induction starts as [|i starts IH]; intros acc; cbn [parse_loop];
    [discriminate|].
  destruct (parse_step _ _ _ _ _ acc i) as [acc'|e'] eqn:Hstep;
    cbn [mbind result_bind].
  - apply IH.
  - intros [= <-]. exact (parse_step_raises _ _ _ _ _ _ Hstep).
Qed.

Lemma parse_loop_snoc (sound_data : list sample) (sndobj : Sound)
    (points_per_sample : Z) (starts : list Z) (i : Z) (acc : list row) :
  parse_loop argpartition fft_abs sound_data sndobj points_per_sample acc
    (starts ++ [i])
  = (acc ← parse_loop argpartition fft_abs sound_data sndobj points_per_sample
             acc starts;
     parse_step argpartition fft_abs sound_data sndobj points_per_sample acc i).
Proof.
  revert acc. induction starts as [|j starts IH]; intros acc; cbn [app parse_loop].
  - cbn [mbind result_bind]. destruct (parse_step _ _ _ _ _ acc i); reflexivity.
  - destruct (parse_step _ _ _ _ _ acc j); cbn [mbind result_bind];
      [apply IH | reflexivity].
Qed.

End Raises.

(** The last start of a range. *)
Lemma py_range_last (n p : Z) :
  0 < p -> 0 < n ->
  py_range n p
  = map (fun k => Z.of_nat k * p) (seq 0 (Z.to_nat ((n - 1) / p)))
    ++ [(n - 1) / p * p].
Proof.
  intros Hp Hn. unfold py_range. destruct (Z.ltb_spec 0 p); [|lia].
  assert (Hq : 0 <= (n - 1) / p) by (apply Z.div_pos; lia).
  replace ((n + p - 1) / p) with ((n - 1) / p + 1).
  2:{ replace (n + p - 1) with (n - 1 + 1 * p) by lia.
      rewrite Z.div_add by lia. reflexivity. }
  rewrite Z2Nat.inj_add by lia. change (Z.to_nat 1) with 1%nat.
  rewrite seq_app, map_app. cbn [seq map Nat.add]. now rewrite Z2Nat.id by lia.
Qed.

Lemma constant_fft_abs_length (w : list Z) :
  length (Reference.constant_fft_abs w) = length w.
Proof. destruct w as [|x w]; [reflexivity|]. simpl. now rewrite repeat_length. Qed.

Lemma points_per_sample_pos (rate : Z) :
  0 < rate -> 0 < FFT_SAMPLE_SIZE * rate / 1000.
Proof. intros H. rewrite points_per_sample_eq. lia. Qed.

(** The starts before the last. *)
Lemma py_range_before_last (n p : Z) :
  0 < p -> 0 < n ->
  py_range ((n - 1) / p * p) p
  = map (fun k => Z.of_nat k * p) (seq 0 (Z.to_nat ((n - 1) / p))).
Proof.
  intros Hp Hn. unfold py_range. destruct (Z.ltb_spec 0 p); [|lia].
  replace (((n - 1) / p * p + p - 1) / p) with ((n - 1) / p); [reflexivity|].
  apply Z.div_unique with (r := p - 1); lia.
Qed.

(** The last window of a channel is what is left after the full windows. *)
Lemma last_window_length {sample : Type} (sound_data : list sample) (n p : Z) :
  0 < p -> 0 < n -> n = Z.of_nat (length sound_data) ->
  let last := (n - 1) / p * p in
  Z.of_nat (length (window sound_data p last)) = n - last /\ 1 <= n - last <= p.
Proof.
  intros Hp Hn Hlen last.
  assert (Hl : 0 <= last <= n - 1 /\ n - 1 < last + p).
  { unfold last. pose proof (Z.div_mod (n - 1) p ltac:(lia)).
    pose proof (Z.mod_pos_bound (n - 1) p Hp).
    assert (0 <= (n - 1) / p) by (apply Z.div_pos; lia). nia. }
  split; [|lia]. unfold window. rewrite py_slice_length, <- Hlen by lia.
  rewrite Z.min_r, Z.min_l, Z2Nat.id by lia. reflexivity.
Qed.

(** X4: a channel whose last window leaves one or two differences above
    the low band (a last window of half a window and six to nine samples)
    makes [parse] raise [ValueError], whatever the samples are: either an
    earlier window has raised it, or the last one does. *)
Theorem parse_short_last_window_raises {sample coeffs : Type}
    (argpartition : list Q -> nat -> list nat) (fft_abs : list sample -> list Q)
    (iirnotch : Q -> Q -> result coeffs)
    (filtfilt : coeffs -> list sample -> result (list sample))
    (sound_data : list sample) (sndobj : Sound) :
  (forall w, length (fft_abs w) = length w) ->
  0 < fs sndobj -> 0 < samples sndobj ->
  samples sndobj = Z.of_nat (length sound_data) ->
  let points_per_sample := FFT_SAMPLE_SIZE * fs sndobj / 1000 in
  let last := (samples sndobj - 1) / points_per_sample * points_per_sample in
  points_per_sample / 4 + 3 <= (samples sndobj - last) / 2
    <= points_per_sample / 4 + 4 ->
  parse argpartition fft_abs iirnotch filtfilt sound_data sndobj = Raise ValueError.
Proof.
  intros Hfft Hfs Hn Hlen p last Hshort. unfold parse. fold p.
  assert (Hp : 0 < p) by (apply points_per_sample_pos, Hfs).
  destruct (Z.eqb_spec p 0); [lia|].
  rewrite (py_range_last _ _ Hp Hn), parse_loop_snoc. fold last.
  destruct (parse_loop _ _ _ _ _ [] _) as [acc|e] eqn:Hloop; cbn [mbind result_bind].
  - rewrite (parse_step_short_window argpartition fft_abs Hfft); [reflexivity | lia|].
    destruct (last_window_length sound_data _ p Hp Hn Hlen) as [Hw _].
    fold last in Hw. rewrite Hw. exact Hshort.
  - now rewrite (parse_loop_raises _ _ _ _ _ _ _ _ Hloop).
Qed.

Lemma parse_short_last_window_raises_witness :
  parse Reference.argsort Reference.constant_fft_abs Reference.allpass_iirnotch
    Reference.allpass_filtfilt (repeat 7 37)
    {| fs := 2; samples := 37; channels := 2; duration := 37 # 2; depth := 16 |}
  = Raise ValueError.
Proof.
  apply parse_short_last_window_raises.
  - exact constant_fft_abs_length.
  - simpl. lia.
  - simpl. lia.
  - reflexivity.
  - vm_compute. split; discriminate.
Defined.

(** X15: a last window that leaves no difference above the low band (half
    a window and five samples, or less) is passed over: the candidates of
    the channel are those of the windows before it.  A channel that is no
    longer than that has no candidate at all, and [parse] raises
    [IndexError]. *)
Theorem parse_skips_short_last_window {sample coeffs : Type}
    (argpartition : list Q -> nat -> list nat) (fft_abs : list sample -> list Q)
    (iirnotch : Q -> Q -> result coeffs)
    (filtfilt : coeffs -> list sample -> result (list sample))
    (sound_data : list sample) (sndobj : Sound) :
  (forall w, length (fft_abs w) = length w) ->
  0 < fs sndobj -> 0 < samples sndobj ->
  samples sndobj = Z.of_nat (length sound_data) ->
  let points_per_sample := FFT_SAMPLE_SIZE * fs sndobj / 1000 in
  let last := (samples sndobj - 1) / points_per_sample * points_per_sample in
  (samples sndobj - last) / 2 <= points_per_sample / 4 + 2 ->
  parse_loop argpartition fft_abs sound_data sndobj points_per_sample []
    (py_range (samples sndobj) points_per_sample)
  = parse_loop argpartition fft_abs sound_data sndobj points_per_sample []
      (py_range last points_per_sample)
  /\ (samples sndobj <= points_per_sample ->
      parse argpartition fft_abs iirnotch filtfilt sound_data sndobj
      = Raise IndexError).
Proof.
  intros Hfft Hfs Hn Hlen p last Hshort.
  assert (Hp : 0 < p) by (apply points_per_sample_pos, Hfs).
  destruct (last_window_length sound_data _ p Hp Hn Hlen) as [Hw Hl].
  fold last in Hw, Hl.
  assert (Hloop : parse_loop argpartition fft_abs sound_data sndobj p []
                    (py_range (samples sndobj) p)
                  = parse_loop argpartition fft_abs sound_data sndobj p []
                      (py_range last p)).
  { unfold last at 1. rewrite (py_range_before_last _ _ Hp Hn).
    rewrite (py_range_last _ _ Hp Hn), parse_loop_snoc. fold last.
    destruct (parse_loop _ _ _ _ _ [] _) as [acc|e]; cbn [mbind result_bind];
      [|reflexivity].
    apply (parse_step_skipped_window argpartition fft_abs Hfft); [lia | |].
    - intros E. rewrite E in Hw. simpl in Hw. lia.
    - rewrite Hw. exact Hshort. }
  split; [exact Hloop|]. intros Hone. unfold parse. fold p.
  destruct (Z.eqb_spec p 0); [lia|]. rewrite Hloop.
  assert (E : last = 0).
  { unfold last. rewrite Z.div_small by lia. reflexivity. }
  assert (E0 : py_range 0 p = []).
  { unfold py_range. destruct (Z.ltb_spec 0 p); [|lia].
    now rewrite Z.div_small by lia. }
  rewrite E, E0. reflexivity.
Qed.

Lemma parse_skips_short_last_window_witness :
  let sndobj :=
    {| fs := 2; samples := 5; channels := 2; duration := 5 # 2; depth := 16 |} in
  parse_loop Reference.argsort Reference.constant_fft_abs (repeat 7 5) sndobj 20 []
    (py_range 5 20)
  = parse_loop Reference.argsort Reference.constant_fft_abs (repeat 7 5) sndobj 20 []
      (py_range 0 20)
  /\ (5 <= 20 ->
      parse Reference.argsort Reference.constant_fft_abs Reference.allpass_iirnotch
        Reference.allpass_filtfilt (repeat 7 5) sndobj = Raise IndexError).
Proof.
  apply (parse_skips_short_last_window Reference.argsort Reference.constant_fft_abs
           Reference.allpass_iirnotch Reference.allpass_filtfilt (repeat 7 5)
           {| fs := 2; samples := 5; channels := 2; duration := 5 # 2; depth := 16 |}).
  - exact constant_fft_abs_length.
  - simpl. lia.
  - simpl. lia.
  - reflexivity.
  - vm_compute. discriminate.
Defined.

(** X5: when no window of the channel yields a candidate, and so when the
    channel has no sample at all, [parse] does not return the channel: it
    raises [IndexError], from the empty array of candidates. *)
Theorem parse_without_candidates_raises {sample coeffs : Type}
    (argpartition : list Q -> nat -> list nat) (fft_abs : list sample -> list Q)
    (iirnotch : Q -> Q -> result coeffs)
    (filtfilt : coeffs -> list sample -> result (list sample))
    (sound_data : list sample) (sndobj : Sound) :
  0 < fs sndobj ->
  let points_per_sample := FFT_SAMPLE_SIZE * fs sndobj / 1000 in
  (parse_loop argpartition fft_abs sound_data sndobj points_per_sample []
     (py_range (samples sndobj) points_per_sample) = Ok [] ->
   parse argpartition fft_abs iirnotch filtfilt sound_data sndobj = Raise IndexError)
  /\ (samples sndobj <= 0 ->
      parse argpartition fft_abs iirnotch filtfilt sound_data sndobj
      = Raise IndexError).
Proof.
  intros Hfs p.
  assert (Hp : 0 < p) by (apply points_per_sample_pos, Hfs).
  assert (H : parse_loop argpartition fft_abs sound_data sndobj p []
                (py_range (samples sndobj) p) = Ok [] ->
              parse argpartition fft_abs iirnotch filtfilt sound_data sndobj
              = Raise IndexError).
  { intros Hloop. unfold parse. fold p. destruct (Z.eqb_spec p 0); [lia|].
    now rewrite Hloop. }
  split; [exact H|]. intros Hn. apply H.
  unfold py_range. destruct (Z.ltb_spec 0 p); [|lia].
  assert ((samples sndobj + p - 1) / p <= 0) as Hc.
  { apply Z.lt_succ_r. apply Z.div_lt_upper_bound; lia. }
  replace (Z.to_nat ((samples sndobj + p - 1) / p)) with 0%nat by lia.
  reflexivity.
Qed.

Lemma parse_without_candidates_raises_witness :
  let sndobj :=
    {| fs := 8000; samples := 0; channels := 1; duration := 0; depth := 16 |} in
  let points_per_sample := FFT_SAMPLE_SIZE * fs sndobj / 1000 in
  (parse_loop Reference.argsort Reference.constant_fft_abs [] sndobj
     points_per_sample [] (py_range (samples sndobj) points_per_sample) = Ok [] ->
   parse Reference.argsort Reference.constant_fft_abs Reference.allpass_iirnotch
     Reference.allpass_filtfilt [] sndobj = Raise IndexError)
  /\ (samples sndobj <= 0 ->
      parse Reference.argsort Reference.constant_fft_abs Reference.allpass_iirnotch
        Reference.allpass_filtfilt [] sndobj = Raise IndexError).
Proof.
  apply (parse_without_candidates_raises Reference.argsort
           Reference.constant_fft_abs Reference.allpass_iirnotch
           Reference.allpass_filtfilt []
           {| fs := 8000; samples := 0; channels := 1; duration := 0; depth := 16 |}).
  simpl. lia.
Defined.

(** ** Channels of at most two windows *)

Section Counts.

Context {sample : Type}.
Variable argpartition : list Q -> nat -> list nat.
Variable fft_abs : list sample -> list Q.

Lemma find_outstanding_length_le (data : list Q) (rate points_per_sample : Z)
    (ret : list row) :
  find_outstanding_frequencies argpartition data rate points_per_sample = Ok ret ->
  (length ret <= 9)%nat.
Proof.
  unfold find_outstanding_frequencies.
  destruct (select_outstanding_cases argpartition data points_per_sample)
    as [[_ ->]|[_ (low_ind & high_ind & Hl & Hh & _ & ->)]]; cbn [mbind result_bind];
    [discriminate|].
  intros [= <-]. unfold pair_outstanding.
  pose proof (pair_loop_length_le (map (normalize rate points_per_sample) high_ind)
                (map (normalize rate points_per_sample) low_ind)) as Hlen.
  rewrite !length_map in Hlen. unfold row in *. nia.
Qed.

Lemma parse_loop_length_le (sound_data : list sample) (sndobj : Sound)
    (points_per_sample : Z) (starts : list Z) (acc cand : list row) :
  parse_loop argpartition fft_abs sound_data sndobj points_per_sample acc starts
    = Ok cand ->
  (length cand <= length acc + 9 * length starts)%nat.
Proof.
  revert acc. induction starts as [|i starts IH]; intros acc; cbn [parse_loop].
  - intros [= <-]. simpl. lia.
  - unfold parse_step.
    destruct (spectrum fft_abs _) as [real_data|e]; cbn [mbind result_bind];
      [|discriminate].
    destruct (find_outstanding_frequencies _ _ _ _) as [ret|e] eqn:Hret;
      cbn [mbind result_bind]; [|discriminate].
    intros H. apply IH in H. rewrite length_app in H.
    apply find_outstanding_length_le in Hret. simpl length. unfold row in *. lia.
Qed.

End Counts.

Lemma py_range_length (n p : Z) :
  0 < p -> length (py_range n p) = Z.to_nat ((n + p - 1) / p).
Proof.
  intros Hp. unfold py_range. destruct (Z.ltb_spec 0 p); [|lia].
  now rewrite length_map, length_seq.
Qed.

(** X6: a channel of at most two windows is never filtered: its at most
    eighteen candidates cannot give a cluster a count above 20, so [parse]
    returns the channel it was given, unless it raises [ValueError] (a window
    too short) or [IndexError] (no candidate). *)
Theorem parse_two_windows_never_filters {sample coeffs : Type}
    (argpartition : list Q -> nat -> list nat) (fft_abs : list sample -> list Q)
    (iirnotch : Q -> Q -> result coeffs)
    (filtfilt : coeffs -> list sample -> result (list sample))
    (sound_data : list sample) (sndobj : Sound) :
  0 < fs sndobj ->
  samples sndobj <= 2 * (FFT_SAMPLE_SIZE * fs sndobj / 1000) ->
  parse argpartition fft_abs iirnotch filtfilt sound_data sndobj = Ok sound_data
  \/ parse argpartition fft_abs iirnotch filtfilt sound_data sndobj = Raise ValueError
  \/ parse argpartition fft_abs iirnotch filtfilt sound_data sndobj = Raise IndexError.
Proof.
  intros Hfs Hn. unfold parse. set (p := FFT_SAMPLE_SIZE * fs sndobj / 1000) in *.
  assert (Hp : 0 < p) by (apply points_per_sample_pos, Hfs).
  destruct (Z.eqb_spec p 0); [lia|].
  destruct (parse_loop _ _ _ _ _ [] _) as [cand|e] eqn:Hloop; cbn [mbind result_bind].
  - apply parse_loop_length_le in Hloop.
    rewrite py_range_length in Hloop by exact Hp.
    assert (Hw : (samples sndobj + p - 1) / p <= 2).
    { apply Z.lt_succ_r. apply Z.div_lt_upper_bound; lia. }
    destruct cand as [|c cand]; [right; right; reflexivity|].
    left. rewrite few_candidates_confirm_nothing; [reflexivity | discriminate|].
    simpl length in *. lia.
  - right. left. now rewrite (parse_loop_raises _ _ _ _ _ _ _ _ Hloop).
Qed.

Lemma parse_two_windows_never_filters_witness :
  parse Reference.argsort Reference.constant_fft_abs Reference.allpass_iirnotch
    Reference.allpass_filtfilt Reference.silence_40 Reference.sound_40
    = Ok Reference.silence_40
  \/ parse Reference.argsort Reference.constant_fft_abs Reference.allpass_iirnotch
       Reference.allpass_filtfilt Reference.silence_40 Reference.sound_40
     = Raise ValueError
  \/ parse Reference.argsort Reference.constant_fft_abs Reference.allpass_iirnotch
       Reference.allpass_filtfilt Reference.silence_40 Reference.sound_40
     = Raise IndexError.
Proof.
  apply parse_two_windows_never_filters; [reflexivity | vm_compute; discriminate].
Defined.

(** ** What the loop of the aggregator keeps *)

Lemma total_count_app (l1 l2 : list cluster) :
  total_count (l1 ++ l2) = total_count l1 + total_count l2.
Proof.
  unfold total_count. induction l1 as [|f l1 IH]; simpl in *; lia.
Qed.

Lemma place_keeps (arr : list row) (j : nat) (avg : Q) (final : list cluster) :
  match place arr j avg final with
  | Some (arr', final') =>
      map data final' = map data final
      /\ total_count final' = total_count final + 1
      /\ (Forall (fun f => 1 <= count f) final ->
          Forall (fun f => 1 <= count f) final')
      /\ length arr' = length arr
  | None => True
  end.
Proof.
  induction final as [|f rest IH]; [exact I|].
  cbn [place]. destruct (close_to avg (favg_of arr f)).
  - split; [reflexivity|]. split; [unfold total_count; simpl; lia|].
    split; [|apply length_insert].
    intros H. apply Forall_cons in H as [Hf H]. constructor; [simpl; lia | exact H].
  - destruct (place arr j avg rest) as [[arr' rest']|]; cbn [mbind option_bind];
      [|exact I].
    destruct IH as (Hd & Ht & Hc & Hl). split; [simpl; now rewrite Hd|].
    split; [unfold total_count in *; simpl; lia|]. split; [|exact Hl].
    intros H. apply Forall_cons in H as [Hf H]. constructor; [exact Hf | now apply Hc].
Qed.

Lemma cluster_steps_keep (candidates : list row) (k : nat) :
  let st := fold_left cluster_step (seq 0 k) (candidates, []) in
  total_count st.2 = Z.of_nat k
  /\ Forall (fun f => 1 <= count f) st.2
  /\ Forall (fun f => (data f < k)%nat) st.2
  /\ NoDup (map data st.2)
  /\ length st.1 = length candidates.
Proof.
  induction k as [|k IH].
  - cbn. repeat split; try constructor.
  - rewrite seq_S, fold_left_app. cbn [Nat.add fold_left].
    destruct (fold_left cluster_step (seq 0 k) (candidates, [])) as [arr final].
    cbn [fst snd] in IH. destruct IH as (Ht & Hc & Hd & Hn & Hl).
    unfold cluster_step.
    pose proof (place_keeps arr k (avg_of (arr !!! k)) final) as Hp.
    destruct (place arr k (avg_of (arr !!! k)) final) as [[arr' final']|];
      cbn [fst snd].
    + destruct Hp as (Hd' & Ht' & Hc' & Hl'). repeat split.
      * lia.
      * now apply Hc'.
      * apply List.Forall_forall. intros f Hf.
        assert (Hin : In (data f) (map data final)).
        { rewrite <- Hd'. now apply in_map. }
        apply in_map_iff in Hin as (g & Hg & Hin).
        rewrite List.Forall_forall in Hd. specialize (Hd g Hin). lia.
      * now rewrite Hd'.
      * congruence.
    + repeat split.
      * rewrite total_count_app. unfold total_count at 2. simpl. lia.
      * apply Forall_app. split; [exact Hc|]. repeat constructor. simpl. lia.
      * apply Forall_app. split.
        -- revert Hd. apply List.Forall_impl. intros; lia.
        -- repeat constructor.
      * rewrite map_app. apply NoDup_app. repeat split; [exact Hn| |apply NoDup_singleton].
        intros i Hi Hi'. apply list_elem_of_singleton in Hi'. subst i.
        apply list_elem_of_In, in_map_iff in Hi as (g & Hg & Hin).
        rewrite List.Forall_forall in Hd. specialize (Hd g Hin). simpl in Hg. lia.
      * exact Hl.
Qed.

Lemma count_le_total (final : list cluster) :
  Forall (fun f => 1 <= count f) final ->
  Z.of_nat (length final) <= total_count final
  /\ Forall (fun f => count f <= total_count final) final.
Proof.
  unfold total_count. induction 1 as [|f final Hf _ [IH1 IH2]]; [split; [simpl; lia|constructor]|].
  split; [simpl length; simpl; lia|].
  constructor; [simpl; lia|]. revert IH2. apply List.Forall_impl. intros g. simpl. lia.
Qed.

(** X7: the loop of the aggregator puts every candidate into exactly one
    entry: the counts of [final] are at least 1 and add up to the number of
    candidates, so there are at most as many entries as candidates and no
    count exceeds that number.  Every entry views a row of its own, one of
    the array, whose length the loop does not change. *)
Theorem cluster_loop_counts_candidates (candidates : list row) :
  let st := cluster_loop candidates in
  total_count st.2 = Z.of_nat (length candidates)
  /\ Forall (fun f => 1 <= count f <= Z.of_nat (length candidates)) st.2
  /\ (length st.2 <= length candidates)%nat
  /\ NoDup (map data st.2)
  /\ Forall (fun f => (data f < length st.1)%nat) st.2
  /\ length st.1 = length candidates.
Proof.
  intros st. unfold st, cluster_loop.
  destruct (cluster_steps_keep candidates (length candidates))
    as (Ht & Hc & Hd & Hn & Hl).
  destruct (count_le_total _ Hc) as [Hlen Hle].
  repeat split; try assumption.
  - rewrite Ht in Hle. apply List.Forall_forall. intros f Hf.
    rewrite List.Forall_forall in Hc, Hle. specialize (Hc f Hf). specialize (Hle f Hf).
    lia.
  - lia.
  - now rewrite Hl.
Qed.

(** ** The width of a confirmed band, from both sides *)

Lemma pair_loop_paired (high_ind low_ind : list Z) :
  Forall paired (pair_loop high_ind low_ind).
Proof.
  rewrite pair_loop_flat_map, List.Forall_forall. intros c Hc.
  apply in_flat_map in Hc as (ind1 & _ & Hc).
  apply in_flat_map in Hc as (ind2 & _ & Hc).
  unfold pair_emit in Hc.
  destruct (Z.ltb_spec (abs64 (sub64 ind1 ind2))
              FREQUENCY_MAXIMUM_DIFFERENTIATING_DIFFERENCE) as [Hlt|]; [|contradiction].
  destruct Hc as [<-|[]]. destruct (ind1 <? ind2); [left | right]; exact Hlt.
Qed.

Lemma parse_loop_paired {sample : Type} (argpartition : list Q -> nat -> list nat)
    (fft_abs : list sample -> list Q) (sound_data : list sample) (sndobj : Sound)
    (points_per_sample : Z) (starts : list Z) (acc cand : list row) :
  parse_loop argpartition fft_abs sound_data sndobj points_per_sample acc starts
    = Ok cand ->
  Forall paired acc -> Forall paired cand.
Proof.
  revert acc. induction starts as [|i starts IH]; intros acc; cbn [parse_loop].
  - now intros [= <-].
  - unfold parse_step.
    destruct (spectrum fft_abs _) as [real_data|e]; cbn [mbind result_bind];
      [|discriminate].
    unfold find_outstanding_frequencies.
    destruct (select_outstanding _ _ _) as [[low_ind high_ind]|e];
      cbn [mbind result_bind]; [|discriminate].
    intros H Hacc. apply (IH _ H), Forall_app. split; [exact Hacc|].
    apply pair_loop_paired.
Qed.

Lemma paired_narrow (c : row) :
  bounded_row (2 ^ 31) c -> ordered c -> paired c -> 0 <= c.2 - c.1 < 50.
Proof.
  intros [H1 H2] Ho Hp. unfold ordered in Ho.
  unfold paired, abs64, FREQUENCY_MAXIMUM_DIFFERENTIATING_DIFFERENCE in Hp.
  rewrite !sub64_small in Hp by (unfold in_int64; lia).
  rewrite !wrap64_small in Hp by (unfold in_int64; lia). lia.
Qed.

Lemma sums_width_le (g : list row) :
  Forall (fun e : row => e.2 - e.1 <= 149) g ->
  sum_high g - sum_low g <= 149 * Z.of_nat (length g).
Proof.
  unfold sum_high, sum_low.
  induction 1 as [|e g He _ IH]; simpl length; simpl; lia.
Qed.

Lemma Qdiv_width_le (a b n : Z) :
  0 < n -> a - b <= 149 * n ->
  (inject_Z a / inject_Z n - inject_Z b / inject_Z n <= 149)%Q.
Proof.
  intros Hn H. destruct n as [|p|p]; try lia.
  unfold Qle, Qminus, Qplus, Qopp, Qdiv, Qmult, Qinv, inject_Z. simpl. nia.
Qed.

(** The means of rows less than 150 wide are less than 150 apart. *)
Lemma mean_band_width_lt (g : list row) :
  g <> [] -> Z.of_nat (length g) <= 2 ^ 30 ->
  Forall (bounded_row (2 ^ 31 + 50)) g ->
  Forall (fun e : row => e.2 - e.1 < 150) g ->
  ((mean_band g).2 - (mean_band g).1 < 150)%Q.
Proof.
  intros Hg Hn Hb H.
  destruct (mean_band_near g Hg Hn Hb) as [H1 H2].
  assert (Hw : (inject_Z (sum_high g) / inject_Z (Z.of_nat (length g))
                - inject_Z (sum_low g) / inject_Z (Z.of_nat (length g)) <= 149)%Q).
  { apply Qdiv_width_le; [destruct g; [contradiction | simpl length; lia]|].
    apply sums_width_le. revert H. apply List.Forall_impl. intros; lia. }
  apply Qabs_diff_Qle_condition in H1, H2. lra.
Qed.

(** X8: every band confirmed for a channel is 100 Hz wide or wider and
    less than 150 Hz wide, the lower bound up to the rounding of the two
    quotients (so above 99.99999 Hz): a candidate is a pair of values less
    than 50 Hz apart, the margin adds 100 Hz, and an exact mean of widths
    lies between them. *)
Theorem confirmed_band_width {sample : Type}
    (argpartition : list Q -> nat -> list nat) (fft_abs : list sample -> list Q)
    (sound_data : list sample) (sndobj : Sound) (points_per_sample : Z)
    (starts : list Z) (cand : list row) (specs : list (Q * Q)) :
  parse_loop argpartition fft_abs sound_data sndobj points_per_sample [] starts
    = Ok cand ->
  in_range cand ->
  extract_bandstop_frequencies cand = Ok specs ->
  Forall (fun c : row => 0 <= c.2 - c.1 < 50) cand
  /\ Forall (fun ft : Q * Q =>
       (100 - (1 # 100000) <= ft.2 - ft.1 /\ ft.2 - ft.1 < 150)%Q) specs.
Proof.
  intros Hloop Hr Hex.
  assert (Ho : Forall ordered cand).
  { apply (parse_loop_ordered _ _ _ _ _ _ _ _ Hloop). constructor. }
  assert (Hp : Forall paired cand).
  { apply (parse_loop_paired _ _ _ _ _ _ _ _ Hloop). constructor. }
  assert (Hnarrow : Forall (fun c : row => 0 <= c.2 - c.1 < 50) cand).
  { destruct Hr as [Hb _]. rewrite List.Forall_forall in *. intros c Hc.
    apply paired_narrow; auto. }
  split; [exact Hnarrow|].
  destruct (extract_groups cand specs Hr Hex) as (groups & Hperm & Hgroups & ->).
  apply List.Forall_forall. intros ft Hft.
  apply in_map_iff in Hft as (g & <- & Hg). apply filter_In in Hg as [Hg _].
  rewrite List.Forall_forall in Hgroups. destruct (Hgroups g Hg) as (Hgne & Hn & Hb).
  assert (Hw : Forall (fun e : row => 100 <= e.2 - e.1 < 150) g).
  { apply List.Forall_forall. intros e He.
    assert (Hin : In e (map (expanded FREQUENCY_BANDSTOP_MARGIN) cand)).
    { eapply Permutation_in; [exact Hperm|]. exact (in_concat_member e g groups Hg He). }
    apply in_map_iff in Hin as (c & <- & Hc).
    rewrite List.Forall_forall in Hnarrow. specialize (Hnarrow c Hc).
    unfold expanded, FREQUENCY_BANDSTOP_MARGIN. simpl. lia. }
  split.
  - apply mean_band_width; try assumption.
    revert Hw. apply List.Forall_impl. intros; lia.
  - apply mean_band_width_lt; try assumption.
    revert Hw. apply List.Forall_impl. intros; lia.
Qed.

Lemma confirmed_band_width_witness :
  Forall (fun c : row => 0 <= c.2 - c.1 < 50) (repeat (0, 0) 27)
  /\ Forall (fun ft : Q * Q =>
       (100 - (1 # 100000) <= ft.2 - ft.1 /\ ft.2 - ft.1 < 150)%Q) [(-50, 50)%Q].
Proof.
  apply (confirmed_band_width Reference.argsort Reference.constant_fft_abs
           Reference.silence_60 Reference.sound_60 20 (py_range 60 20)).
  - vm_compute. reflexivity.
  - apply repeat_in_range. lia.
  - vm_compute. reflexivity.
Defined.

(** ** The margin and the clustering *)

Lemma value_favg_margin (n : Z) (v0 v : row * Z) :
  n <= 2 ^ 30 -> within n v0 -> margin_rel v0 v -> value_favg v = value_favg v0.
Proof.
  intros Hn (Hc & H1 & H2) (Ec & E1 & E2). unfold value_favg.
  unfold FREQUENCY_BANDSTOP_MARGIN in *.
  rewrite !add64_small by (unfold in_int64; nia).
  rewrite Ec. do 2 f_equal. lia.
Qed.

Lemma value_place_margin (n : Z) (c0 : row) (avg : Q)
    (final0 final : list (row * Z)) :
  n + 1 <= 2 ^ 30 -> bounded_row (2 ^ 31) c0 ->
  Forall2 margin_rel final0 final -> Forall (within n) final0 ->
  match value_place c0 avg final0,
        value_place (expanded FREQUENCY_BANDSTOP_MARGIN c0) avg final with
  | Some final0', Some final' =>
      Forall2 margin_rel final0' final' /\ Forall (within (n + 1)) final0'
  | None, None => True
  | _, _ => False
  end.
Proof.
  intros Hn [Hc1 Hc2] HF. induction HF as [|v0 v final0 final Hv HF IH]; intros Hw;
    [exact I|].
  apply Forall_cons in Hw as [Hv0 Hw]. cbn [value_place].
  rewrite (value_favg_margin n v0 v ltac:(lia) Hv0 Hv).
  destruct (close_to avg (value_favg v0)).
  - destruct Hv0 as (Hk & H1 & H2), Hv as (Ec & E1 & E2).
    unfold expanded, FREQUENCY_BANDSTOP_MARGIN in *. cbn [fst snd].
    split.
    + constructor; [|exact HF]. unfold margin_rel, FREQUENCY_BANDSTOP_MARGIN.
      cbn [fst snd]. rewrite !add64_small by (unfold in_int64; nia). lia.
    + constructor.
      * unfold within. cbn [fst snd].
        rewrite !add64_small by (unfold in_int64; nia). lia.
      * revert Hw. apply List.Forall_impl. unfold within. intros; lia.
  - specialize (IH Hw).
    destruct (value_place c0 avg final0), (value_place _ avg final);
      cbn [mbind option_bind]; try exact IH.
    destruct IH as [IH1 IH2]. split; constructor; try assumption.
    destruct Hv0 as (Hk & H1 & H2). unfold within. lia.
Qed.

Lemma avg_of_expanded (c0 : row) :
  bounded_row (2 ^ 31) c0 ->
  avg_of (expanded FREQUENCY_BANDSTOP_MARGIN c0) = avg_of c0.
Proof.
  intros [H1 H2]. unfold avg_of, expanded, FREQUENCY_BANDSTOP_MARGIN. cbn [fst snd].
  rewrite !add64_small by (unfold in_int64; lia). do 2 f_equal. lia.
Qed.

Lemma value_steps_margin (cs0 : list row) (n : Z) (final0 final : list (row * Z)) :
  0 <= n -> n + Z.of_nat (length cs0) <= 2 ^ 30 ->
  Forall (bounded_row (2 ^ 31)) cs0 ->
  Forall2 margin_rel final0 final -> Forall (within n) final0 ->
  Forall2 margin_rel
    (fold_left value_step cs0 final0)
    (fold_left value_step (map (expanded FREQUENCY_BANDSTOP_MARGIN) cs0) final)
  /\ Forall (within (n + Z.of_nat (length cs0))) (fold_left value_step cs0 final0).
Proof.
  revert n final0 final.
  induction cs0 as [|c0 cs0 IH]; intros n final0 final Hn0 Hn Hb HF Hw.
  - simpl. split; [exact HF|]. revert Hw. apply List.Forall_impl.
    unfold within. intros; lia.
  - apply Forall_cons in Hb as [Hc Hb]. cbn [map fold_left length] in *.
    rewrite Nat2Z.inj_succ in *.
    replace (n + Z.succ (Z.of_nat (length cs0)))
      with ((n + 1) + Z.of_nat (length cs0)) by lia.
    assert (Hstep : Forall2 margin_rel (value_step final0 c0)
                      (value_step final (expanded FREQUENCY_BANDSTOP_MARGIN c0))
                    /\ Forall (within (n + 1)) (value_step final0 c0)).
    { unfold value_step. rewrite (avg_of_expanded c0 Hc).
      pose proof (value_place_margin n c0 (avg_of c0) final0 final
                    ltac:(lia) Hc HF Hw) as Hp.
      destruct (value_place c0 (avg_of c0) final0),
               (value_place (expanded FREQUENCY_BANDSTOP_MARGIN c0) (avg_of c0) final);
        try contradiction; [exact Hp|].
      split.
      - apply Forall2_app; [exact HF|]. constructor; [|constructor].
        unfold margin_rel, expanded, FREQUENCY_BANDSTOP_MARGIN. cbn [fst snd]. lia.
      - apply Forall_app. split.
        + revert Hw. apply List.Forall_impl. unfold within. intros; lia.
        + constructor; [|constructor]. destruct Hc as [H1 H2].
          unfold within. cbn [fst snd]. lia. }
    destruct Hstep as [HF' Hw']. apply IH; try assumption; lia.
Qed.

Lemma value_confirm_filter (vs : list (row * Z)) :
  fold_left value_confirm_step vs [] =
  map value_band (List.filter (fun v : row * Z => FREQUENCY_MINIMUM_COUNT <? v.2) vs).
Proof.
  induction vs as [|v vs IH]; [reflexivity|].
  cbn [fold_left List.filter]. rewrite value_confirm_app, IH.
  unfold value_confirm_step. destruct (_ <? v.2); reflexivity.
Qed.

Lemma Qdiv_shift (a m k : Z) :
  0 < k ->
  (inject_Z (a + m * k) / inject_Z k == inject_Z a / inject_Z k + inject_Z m)%Q.
Proof.
  intros Hk. destruct k as [|p|p]; try lia.
  unfold Qeq, Qplus, Qdiv, Qmult, Qinv, inject_Z. simpl. nia.
Qed.

Lemma view_counts (arr : list row) (final : list cluster) :
  map snd (view arr final) = map count final.
Proof. unfold view. rewrite map_map. reflexivity. Qed.

Lemma margin_rel_confirmed (n : Z) (vs0 vs : list (row * Z)) :
  n <= 2 ^ 30 ->
  Forall2 margin_rel vs0 vs -> Forall (within n) vs0 ->
  map snd vs = map snd vs0
  /\ Forall2 (fun b b0 : Q * Q =>
                (Qabs (b.1 - (b0.1 - 50)) <= 1 # 100000
                 /\ Qabs (b.2 - (b0.2 + 50)) <= 1 # 100000)%Q)
       (fold_left value_confirm_step vs [])
       (fold_left value_confirm_step vs0 []).
Proof.
  intros Hn. rewrite !value_confirm_filter.
  induction 1 as [|v0 v vs0 vs (Ec & E1 & E2) _ IH]; intros Hw; [split; constructor|].
  apply Forall_cons in Hw as [(Hk & Hl & Hh) Hw]. destruct (IH Hw) as [IHc IHb].
  split; [cbn [map]; now rewrite Ec, IHc|].
  cbn [List.filter]. rewrite Ec.
  destruct (FREQUENCY_MINIMUM_COUNT <? v0.2); [|exact IHb].
  cbn [map]. constructor; [|exact IHb].
  unfold FREQUENCY_BANDSTOP_MARGIN in *.
  destruct (value_band_near v0) as [N1 N2]; try lia.
  destruct (value_band_near v) as [M1 M2]; try lia.
  rewrite Ec, E1 in M1. rewrite Ec, E2 in M2.
  replace (v0.1.1 - 50 * v0.2) with (v0.1.1 + (-50) * v0.2) in M1 by lia.
  rewrite Qdiv_shift in M1, M2 by lia.
  apply Qabs_diff_Qle_condition in N1, N2, M1, M2.
  change (inject_Z (-50)) with (-50)%Q in M1. change (inject_Z 50) with 50%Q in M2.
  revert N1 N2 M1 M2.
  generalize (inject_Z v0.1.1 / inject_Z v0.2)%Q (inject_Z v0.1.2 / inject_Z v0.2)%Q
    (value_band v0) (value_band v).
  intros q1 q2 b0 b N1 N2 M1 M2.
  split; apply Qabs_diff_Qle_condition; lra.
Qed.

(** X9: the margin changes no decision of the clustering.  The expanded
    candidates fall into the same entries, with the same counts, as the
    candidates would without the margin (the midpoints that are compared
    are computed from the same sums), and every confirmed band is the band
    confirmed without the margin, 50 Hz lower at its low end and 50 Hz
    higher at its high end, up to the rounding of the quotients (a
    hundred-thousandth of a Hz covers it). *)
Theorem margin_commutes_with_clustering (cand : list row) :
  in_range cand ->
  let st := cluster_loop (expand cand) in
  let st0 := cluster_loop cand in
  map count st.2 = map count st0.2
  /\ Forall2 (fun b b0 : Q * Q =>
                (Qabs (b.1 - (b0.1 - 50)) <= 1 # 100000
                 /\ Qabs (b.2 - (b0.2 + 50)) <= 1 # 100000)%Q)
       (confirmed st) (confirmed st0).
Proof.
  intros [Hb Hn] st st0.
  pose proof (cluster_steps_view (expand cand) (length (expand cand)) (le_n _)) as Hv.
  pose proof (cluster_steps_view cand (length cand) (le_n _)) as Hv0.
  rewrite !firstn_all in *. fold (cluster_loop (expand cand)) in Hv.
  fold (cluster_loop cand) in Hv0. fold st in Hv. fold st0 in Hv0. cbn zeta in *.
  destruct (value_steps_margin cand 0 [] [] (Z.le_refl 0) ltac:(lia) Hb
              ltac:(constructor) ltac:(constructor)) as [HF Hw].
  rewrite <- (expand_small cand Hb), <- Hv, <- Hv0 in HF. rewrite <- Hv0 in Hw.
  destruct (margin_rel_confirmed (0 + Z.of_nat (length cand)) _ _ ltac:(lia) HF Hw)
    as [Hc Hbands].
  rewrite !view_counts in Hc. split; [exact Hc|].
  unfold confirmed. now rewrite !confirm_view.
Qed.

Lemma margin_commutes_with_clustering_witness :
  let cand := (100, 120) :: repeat (104, 122) 21 ++ [(400, 420)] in
  let st := cluster_loop (expand cand) in
  let st0 := cluster_loop cand in
  map count st.2 = map count st0.2
  /\ Forall2 (fun b b0 : Q * Q =>
                (Qabs (b.1 - (b0.1 - 50)) <= 1 # 100000
                 /\ Qabs (b.2 - (b0.2 + 50)) <= 1 # 100000)%Q)
       (confirmed st) (confirmed st0).
Proof.
  apply (margin_commutes_with_clustering
           ((100, 120) :: repeat (104, 122) 21 ++ [(400, 420)])).
  split.
  - apply List.Forall_forall. intros c Hc. simpl in Hc.
    repeat (destruct Hc as [<-|Hc]; [unfold bounded_row; simpl; lia|]).
    destruct Hc.
  - simpl. lia.
Defined.

(** ** The notch filters in sequence *)

(** X10: the bands are filtered in order, each on the output of the one
    before; when the filter of a band raises (its design by [iirnotch] or
    its application by [filtfilt]), [bandstop] raises that exception and the
    bands after it are not filtered. *)
Theorem bandstop_stops_at_first_failure {sample coeffs : Type}
    (iirnotch : Q -> Q -> result coeffs)
    (filtfilt : coeffs -> list sample -> result (list sample))
    (before after : list (Q * Q)) (ft : Q * Q)
    (sound_data filtered : list sample) (sndobj : Sound) (e : exn) :
  bandstop iirnotch filtfilt before sound_data sndobj = Ok filtered ->
  bandstop_step iirnotch filtfilt sndobj filtered ft = Raise e ->
  bandstop iirnotch filtfilt (before ++ ft :: after) sound_data sndobj = Raise e
  /\ forall more,
       bandstop iirnotch filtfilt (before ++ more) sound_data sndobj
       = bandstop iirnotch filtfilt more filtered sndobj.
Proof.
  intros Hbefore Hstep. split.
  - rewrite bandstop_app, Hbefore. cbn [mbind result_bind bandstop].
    now rewrite Hstep.
  - intros more. now rewrite bandstop_app, Hbefore.
Qed.

Lemma bandstop_stops_at_first_failure_witness :
  bandstop Reference.checked_iirnotch Reference.allpass_filtfilt
    ([(400 # 1, 500 # 1)] ++ (-50 # 1, 50 # 1) :: [(600 # 1, 700 # 1)])%Q
    Reference.silence_60 Reference.sound_2000 = Raise ZeroDivisionError
  /\ forall more,
       bandstop Reference.checked_iirnotch Reference.allpass_filtfilt
         ([(400 # 1, 500 # 1)]%Q ++ more) Reference.silence_60 Reference.sound_2000
       = bandstop Reference.checked_iirnotch Reference.allpass_filtfilt more
           Reference.silence_60 Reference.sound_2000.
Proof.
  apply (bandstop_stops_at_first_failure
           Reference.checked_iirnotch Reference.allpass_filtfilt
           [(400 # 1, 500 # 1)%Q] [(600 # 1, 700 # 1)%Q]
           (-50 # 1, 50 # 1)%Q Reference.silence_60 Reference.silence_60
           Reference.sound_2000 ZeroDivisionError).
  - vm_compute. reflexivity.
  - vm_compute. reflexivity.
Defined.

Section Lengths.

Context {sample coeffs : Type}.
Variable argpartition : list Q -> nat -> list nat.
Variable fft_abs : list sample -> list Q.
Variable iirnotch : Q -> Q -> result coeffs.
Variable filtfilt : coeffs -> list sample -> result (list sample).
Hypothesis filtfilt_length :
  forall c x y, filtfilt c x = Ok y -> length y = length x.

Lemma bandstop_length (frequencies : list (Q * Q)) (sound_data cleaned : list sample)
    (sndobj : Sound) :
  bandstop iirnotch filtfilt frequencies sound_data sndobj = Ok cleaned ->
  length cleaned = length sound_data.
Proof.
  revert sound_data. induction frequencies as [|ft rest IH]; intros sound_data;
    cbn [bandstop].
  - now intros [= <-].
  - unfold bandstop_step.
    destruct (iirnotch _ _) as [c|e]; cbn [mbind result_bind]; [|discriminate].
    destruct (filtfilt c sound_data) as [y|e] eqn:Hy; cbn [mbind result_bind];
      [|discriminate].
    intros H. rewrite (IH _ H). exact (filtfilt_length _ _ _ Hy).
Qed.

End Lengths.

(** X11: when [filtfilt] returns as many samples as it is given, so does
    [parse]: the cleaned channel has the length of the channel, whether it
    was filtered or not. *)
Theorem parse_keeps_length {sample coeffs : Type}
    (argpartition : list Q -> nat -> list nat) (fft_abs : list sample -> list Q)
    (iirnotch : Q -> Q -> result coeffs)
    (filtfilt : coeffs -> list sample -> result (list sample))
    (sound_data cleaned : list sample) (sndobj : Sound) :
  (forall c x y, filtfilt c x = Ok y -> length y = length x) ->
  parse argpartition fft_abs iirnotch filtfilt sound_data sndobj = Ok cleaned ->
  length cleaned = length sound_data.
Proof.
  intros Hfilt. unfold parse.
  destruct (_ =? 0); [discriminate|].
  destruct (parse_loop _ _ _ _ _ _ _) as [cand|e]; cbn [mbind result_bind];
    [|discriminate].
  destruct (extract_bandstop_frequencies cand) as [[|ft specs]|e];
    cbn [mbind result_bind]; [now intros [= <-] | | discriminate].
  apply (bandstop_length iirnotch filtfilt Hfilt).
Qed.

Lemma parse_keeps_length_witness :
  length (repeat (-7) 60) = length (repeat 7 60).
Proof.
  apply (parse_keeps_length Reference.argsort Reference.constant_fft_abs
           Reference.allpass_iirnotch Reference.opposite_filtfilt
           (repeat 7 60) (repeat (-7) 60) Reference.sound_60).
  - intros c x y [= <-]. apply length_map.
  - vm_compute. reflexivity.
Defined.

(** ** What [process] and the main loop write *)

Lemma py_range_step_one (n : Z) : py_range n 1 = map Z.of_nat (seq 0 (Z.to_nat n)).
Proof.
  unfold py_range. cbn [Z.ltb Z.compare].
  replace (n + 1 - 1) with n by lia. rewrite Z.div_1_r.
  apply map_ext. intros k. lia.
Qed.

Section Writes.

Context {sample coeffs : Type}.
Variable argpartition : list Q -> nat -> list nat.
Variable fft_abs : list sample -> list Q.
Variable iirnotch : Q -> Q -> result coeffs.
Variable filtfilt : coeffs -> list sample -> result (list sample).
Variable Sound_new : Z -> @ndarray sample -> result Sound.

Local Abbreviation process' := (process argpartition fft_abs iirnotch filtfilt Sound_new).
Local Abbreviation run' := (run argpartition fft_abs iirnotch filtfilt Sound_new).
Local Abbreviation channel_loop' := (channel_loop argpartition fft_abs iirnotch filtfilt).
Local Abbreviation parse' := (parse argpartition fft_abs iirnotch filtfilt).

(** The loop over the channels prints, and writes no file. *)
Lemma channel_loop_frame (snd : @ndarray sample) (sndobj : Sound)
    (cs : list Z) (signals : list (list sample)) (w : World) :
  files (channel_loop' snd sndobj cs signals w).1 = files w
  /\ exists out, stdout (channel_loop' snd sndobj cs signals w).1 = stdout w ++ out.
Proof.
  revert signals w. induction cs as [|c cs IH]; intros signals w.
  - split; [reflexivity|]. exists []. cbn. now rewrite app_nil_r.
  - cbn [channel_loop].
    destruct (transposed_item snd c) as [[sound_data|x]|e];
      try (split; [reflexivity | now exists [PrintChannel c]]).
    destruct (parse' sound_data sndobj) as [cleaned|e];
      [|split; [reflexivity | now exists [PrintChannel c]]].
    destruct (_ =? samples sndobj);
      [|split; [reflexivity | now exists [PrintChannel c]]].
    destruct (IH (signals ++ [cleaned])
                (print (PrintSignals (signals ++ [cleaned])) (print (PrintChannel c) w)))
      as [Hf [out Ho]].
    split; [exact Hf|]. eexists. rewrite Ho. cbn [print stdout].
    rewrite <- !app_assoc. reflexivity.
Qed.

(** The channels of the result, in order, each of [sndobj.samples]
    samples. *)
Lemma channel_loop_ok (snd : @ndarray sample) (sndobj : Sound) (m a : nat)
    (signals0 signals : list (list sample)) (w w' : World) :
  channel_loop' snd sndobj (map Z.of_nat (seq a m)) signals0 w = (w', Ok signals) ->
  exists new,
    signals = signals0 ++ new
    /\ length new = m
    /\ Forall2 (fun column s =>
                  parse' column sndobj = Ok s
                  /\ Z.of_nat (length s) = samples sndobj)
         (firstn m (skipn a (columns_of snd))) new.
Proof.
  revert a signals0 w. induction m as [|m IH]; intros a signals0 w; cbn [seq map channel_loop].
  - intros [= _ <-]. exists []. split; [now rewrite app_nil_r|]. split; [reflexivity|constructor].
  - unfold transposed_item. rewrite Nat2Z.id. destruct snd as [data|columns].
    { destruct (data !! a); discriminate. }
    cbn [columns_of].
    destruct (columns !! a) as [column|] eqn:Hcol; [|discriminate].
    destruct (parse' column sndobj) as [cleaned|e] eqn:Hparse; [|discriminate].
    destruct (Z.eqb_spec (Z.of_nat (length cleaned)) (samples sndobj)) as [Hlen|];
      [|discriminate].
    intros H. apply IH in H as (new & -> & Hnew & HF).
    exists (cleaned :: new). split; [now rewrite <- app_assoc|].
    split; [simpl; now rewrite Hnew|].
    rewrite (drop_S _ _ _ Hcol). cbn [firstn]. constructor; [now split | exact HF].
Qed.

(** A one-dimensional array has no channel to clean: the loop raises at
    its first round. *)
Lemma channel_loop_one_dimensional (data : list sample) (sndobj : Sound)
    (c : Z) (cs : list Z) (signals : list (list sample)) (w : World) :
  0 < fs sndobj ->
  channel_loop' (Array1 data) sndobj (c :: cs) signals w
  = (print (PrintChannel c) w, Raise IndexError).
Proof.
  intros Hfs. cbn [channel_loop transposed_item].
  destruct (data !! Z.to_nat c); [|reflexivity].
  unfold parse_sample.
  pose proof (points_per_sample_pos (fs sndobj) Hfs).
  destruct (Z.eqb_spec (FFT_SAMPLE_SIZE * fs sndobj / 1000) 0); [lia | reflexivity].
Qed.

(** One call of [process] touches no file but its output. *)
Lemma process_frame (filename : string) (w : World) :
  (forall name, name <> gen_output_filename filename ->
     files (process' filename w).1 !! name = files w !! name)
  /\ ((process' filename w).2 <> None -> files (process' filename w).1 = files w)
  /\ exists out, stdout (process' filename w).1 = stdout w ++ out.
Proof.
  unfold process.
  destruct (files w !! filename) as [[rate columns]|];
    [|repeat split; exists []; cbn; now rewrite app_nil_r].
  cbn zeta. destruct (Sound_new rate (read_data columns)) as [sndobj|e].
  - destruct (samples sndobj <? 0);
      [repeat split; now exists [PrintInfo filename sndobj]|].
    destruct (channel_loop_frame (read_data columns) sndobj
                (py_range (channels sndobj) 1) []
                (print (PrintInfo filename sndobj) w)) as [Hf [out Ho]].
    destruct (channel_loop' (read_data columns) sndobj _ [] _) as [w' [signals|e]];
      cbn [fst snd] in *.
    + split; [|split].
      * intros name Hname. cbn [wavfile_write files print].
        rewrite lookup_insert_ne by congruence. now rewrite Hf.
      * intros H. now contradiction H.
      * eexists. cbn [wavfile_write print stdout]. rewrite Ho. cbn [print stdout].
        rewrite <- !app_assoc. reflexivity.
    + split; [|split].
      * intros name _. now rewrite Hf.
      * intros _. exact Hf.
      * eexists. rewrite Ho. cbn [print stdout]. rewrite <- app_assoc. reflexivity.
  - destruct e; try (repeat split; exists []; cbn; now rewrite app_nil_r).
    split; [|split].
    + reflexivity.
    + intros H. now contradiction H.
    + eexists. cbn [fst print stdout files]. rewrite <- app_assoc. reflexivity.
Qed.

End Writes.

(** X12: a run touches no file but the outputs of the files it is given:
    every other name holds after the run what it held before, whether the
    run ends normally or by an exception; and the run only adds lines to
    what was printed. *)
Theorem run_writes_only_outputs {sample coeffs : Type}
    (argpartition : list Q -> nat -> list nat) (fft_abs : list sample -> list Q)
    (iirnotch : Q -> Q -> result coeffs)
    (filtfilt : coeffs -> list sample -> result (list sample))
    (Sound_new : Z -> @ndarray sample -> result Sound)
    (filenames : list string) (w : World) :
  let r := run argpartition fft_abs iirnotch filtfilt Sound_new filenames w in
  (forall name, ~ In name (map gen_output_filename filenames) ->
     files r.1 !! name = files w !! name)
  /\ exists out, stdout r.1 = stdout w ++ out.
Proof.
  revert w. induction filenames as [|filename rest IH]; intros w; cbn zeta.
  - split; [reflexivity|]. exists []. cbn. now rewrite app_nil_r.
  - cbn [run map].
    destruct (process_frame argpartition fft_abs iirnotch filtfilt Sound_new filename w)
      as (Hf & _ & out & Ho).
    destruct (process _ _ _ _ _ filename w) as [w' [e|]]; cbn [fst snd] in *.
    + split; [|now exists out]. intros name Hname. apply Hf.
      intros ->. apply Hname. now left.
    + destruct (IH w') as [Hf' [out' Ho']]. split.
      * intros name Hname. rewrite Hf' by (intros H; apply Hname; now right).
        apply Hf. intros ->. apply Hname. now left.
      * exists (out ++ out'). now rewrite Ho', Ho, app_assoc.
Qed.

(** The channels of the file that the loop can have cleaned. *)
Lemma cleaned_columns {sample : Type} (P : list sample -> list sample -> Prop)
    (columns : list (list sample)) (m : nat) (new : list (list sample)) :
  length new = m ->
  Forall2 P (firstn m (columns_of (read_data columns))) new ->
  Forall2 P (firstn m columns) new.
Proof.
  intros Hlen HF. destruct columns as [|data [|column columns]]; try exact HF.
  cbn [read_data columns_of] in HF. rewrite firstn_nil in HF.
  inversion HF; subst. simpl. constructor.
Qed.

(** X13: for a file whose [Sound] is constructed, [process] either lets an
    exception escape, and then has written nothing, or returns normally, and
    then has written exactly one file: under the output name, at the rate of
    the [Sound], the cleaned channels in the order of the input, as many as
    [sndobj.channels], each [parse] of its channel and [sndobj.samples]
    samples long. *)
Theorem process_saves_cleaned_channels {sample coeffs : Type}
    (argpartition : list Q -> nat -> list nat) (fft_abs : list sample -> list Q)
    (iirnotch : Q -> Q -> result coeffs)
    (filtfilt : coeffs -> list sample -> result (list sample))
    (Sound_new : Z -> @ndarray sample -> result Sound)
    (filename : string) (w : World) (rate : Z) (columns : list (list sample))
    (sndobj : Sound) :
  files w !! filename = Some (rate, columns) ->
  Sound_new rate (read_data columns) = Ok sndobj ->
  let r := process argpartition fft_abs iirnotch filtfilt Sound_new filename w in
  match r.2 with
  | Some _ => files r.1 = files w
  | None =>
      exists signals,
        files r.1 = <[gen_output_filename filename := (fs sndobj, signals)]> (files w)
        /\ length signals = Z.to_nat (channels sndobj)
        /\ Forall2 (fun column s =>
                      parse argpartition fft_abs iirnotch filtfilt column sndobj = Ok s
                      /\ Z.of_nat (length s) = samples sndobj)
             (firstn (Z.to_nat (channels sndobj)) columns) signals
  end.
Proof.
  intros Hfile Hsound r. unfold r, process. rewrite Hfile. cbn zeta. rewrite Hsound.
  destruct (samples sndobj <? 0); [reflexivity|].
  rewrite py_range_step_one.
  destruct (channel_loop_frame argpartition fft_abs iirnotch filtfilt
              (read_data columns) sndobj
              (map Z.of_nat (seq 0 (Z.to_nat (channels sndobj)))) []
              (print (PrintInfo filename sndobj) w)) as [Hf _].
  destruct (channel_loop _ _ _ _ (read_data columns) sndobj _ [] _)
    as [w' [signals|e]] eqn:Hloop;
    cbn [fst snd] in *; [|exact Hf].
  apply channel_loop_ok in Hloop as (new & -> & Hlen & HF).
  exists new. cbn [app wavfile_write print files]. rewrite Hf.
  split; [reflexivity|]. split; [exact Hlen|].
  rewrite skipn_O in HF. exact (cleaned_columns _ _ _ _ Hlen HF).
Qed.

Lemma process_saves_cleaned_channels_witness :
  let r := process Reference.argsort Reference.constant_fft_abs
             Reference.allpass_iirnotch Reference.allpass_filtfilt
             Reference.Sound_16 "b.wav" Reference.two_files in
  let sndobj :=
    {| fs := 2; samples := 40; channels := 2; duration := 40 # 2; depth := 16 |} in
  match r.2 with
  | Some _ => files r.1 = files Reference.two_files
  | None =>
      exists signals,
        files r.1 = <[gen_output_filename "b.wav" := (fs sndobj, signals)]>
                      (files Reference.two_files)
        /\ length signals = Z.to_nat (channels sndobj)
        /\ Forall2 (fun column s =>
                      parse Reference.argsort Reference.constant_fft_abs
                        Reference.allpass_iirnotch Reference.allpass_filtfilt
                        column sndobj = Ok s
                      /\ Z.of_nat (length s) = samples sndobj)
             (firstn (Z.to_nat (channels sndobj))
                [Reference.silence_40; Reference.silence_40]) signals
  end.
Proof.
  apply (process_saves_cleaned_channels Reference.argsort Reference.constant_fft_abs
           Reference.allpass_iirnotch Reference.allpass_filtfilt Reference.Sound_16
           "b.wav" Reference.two_files 2 [Reference.silence_40; Reference.silence_40]).
  - vm_compute. reflexivity.
  - vm_compute. reflexivity.
Defined.

(** X16: a file of one channel is never saved.  [wavfile.read] returns its
    data as a one-dimensional array, [snd.T[c]] is then a sample and not a
    channel, and [parse] raises [IndexError] on it: for a [Sound] of one
    channel or more (and of a sample count that is not negative, at a
    positive rate) [process] ends by that exception, and no file is
    written. *)
Theorem one_channel_file_is_not_saved {sample coeffs : Type}
    (argpartition : list Q -> nat -> list nat) (fft_abs : list sample -> list Q)
    (iirnotch : Q -> Q -> result coeffs)
    (filtfilt : coeffs -> list sample -> result (list sample))
    (Sound_new : Z -> @ndarray sample -> result Sound)
    (filename : string) (w : World) (rate : Z) (data : list sample)
    (sndobj : Sound) :
  files w !! filename = Some (rate, [data]) ->
  Sound_new rate (Array1 data) = Ok sndobj ->
  0 < fs sndobj -> 0 <= samples sndobj -> 1 <= channels sndobj ->
  let r := process argpartition fft_abs iirnotch filtfilt Sound_new filename w in
  r.2 = Some IndexError /\ files r.1 = files w.
Proof.
  intros Hfile Hsound Hfs Hn Hc r. unfold r, process. rewrite Hfile. cbn zeta.
  cbn [read_data]. rewrite Hsound.
  destruct (Z.ltb_spec (samples sndobj) 0); [lia|].
  rewrite py_range_step_one.
  destruct (Z.to_nat (channels sndobj)) as [|k] eqn:Hk; [lia|].
  cbn [seq map]. change (Z.of_nat 0) with 0.
  rewrite (channel_loop_one_dimensional argpartition fft_abs iirnotch filtfilt
             data sndobj 0 _ [] _ Hfs).
  split; reflexivity.
Qed.

Lemma one_channel_file_is_not_saved_witness :
  let w := {| files := {["mono.wav" := (2, [Reference.silence_40])]}; stdout := [] |} in
  let r := process Reference.argsort Reference.constant_fft_abs
             Reference.allpass_iirnotch Reference.allpass_filtfilt
             Reference.Sound_16 "mono.wav" w in
  r.2 = Some IndexError /\ files r.1 = files w.
Proof.
  apply (one_channel_file_is_not_saved Reference.argsort Reference.constant_fft_abs
           Reference.allpass_iirnotch Reference.allpass_filtfilt Reference.Sound_16
           "mono.wav" _ 2 Reference.silence_40
           {| fs := 2; samples := 40; channels := 1; duration := 40 # 2; depth := 16 |}).
  - vm_compute. reflexivity.
  - vm_compute. reflexivity.
  - simpl. lia.
  - simpl. lia.
  - simpl. lia.
Defined.

(** ** The windows of [parse] *)

Lemma window_at {sample : Type} (sound_data : list sample) (points_per_sample : Z)
    (k : nat) :
  0 < points_per_sample ->
  window sound_data points_per_sample (Z.of_nat k * points_per_sample)
  = firstn (Z.to_nat points_per_sample)
      (skipn (k * Z.to_nat points_per_sample) sound_data).
Proof.
  intros Hp. unfold window, py_slice, py_index.
  set (len := Z.of_nat (length sound_data)).
  set (p := Z.to_nat points_per_sample).
  assert (Hi : Z.of_nat k * points_per_sample = Z.of_nat (k * p)) by (unfold p; nia).
  rewrite Hi. replace (Z.of_nat (k * p) + points_per_sample)
    with (Z.of_nat (k * p + p)) by (unfold p; lia).
  destruct (Z.ltb_spec (Z.of_nat (k * p)) 0); [lia|].
  destruct (Z.ltb_spec (Z.of_nat (k * p + p)) 0); [lia|].
  destruct (Nat.le_gt_cases (k * p) (length sound_data)) as [Hle|Hgt].
  - rewrite (Z.min_l (Z.of_nat (k * p))) by (unfold len; lia).
    rewrite Nat2Z.id.
    destruct (Nat.le_gt_cases (k * p + p) (length sound_data)).
    + rewrite Z.min_l by (unfold len; lia). f_equal. lia.
    + rewrite Z.min_r by (unfold len; lia).
      rewrite !firstn_all2; [reflexivity| |]; rewrite length_skipn; unfold len; lia.
  - rewrite !Z.min_r by (unfold len; lia). rewrite Z.sub_diag. cbn [Z.to_nat firstn].
    rewrite (skipn_all2 (n := k * p)) by lia. now destruct p.
Qed.

Lemma firstn_skipn_add {A} (p m : nat) (l : list A) :
  firstn p l ++ firstn m (skipn p l) = firstn (p + m) l.
Proof.
  revert l. induction p as [|p IH]; intros [|x l]; cbn; try reflexivity.
  - now rewrite firstn_nil.
  - now rewrite IH.
Qed.

Lemma windows_concat {A} (p : nat) (l : list A) (n a : nat) :
  concat (map (fun k => firstn p (skipn (k * p) l)) (seq a n))
  = firstn (n * p) (skipn (a * p) l).
Proof.
  revert a. induction n as [|n IH]; intros a; cbn [seq map concat]; [reflexivity|].
  rewrite IH. replace (S a * p)%nat with (p + a * p)%nat by lia.
  rewrite <- (skipn_skipn p (a * p) l).
  rewrite firstn_skipn_add. f_equal.
Qed.

(** X14: the windows that [parse] cuts cover the channel exactly once: put
    end to end, the slices [sound_data[i:i+points_per_sample]] for [i] in
    [range(0, len(sound_data), points_per_sample)] are the channel; none of
    them is empty or longer than [points_per_sample], and every window
    before the last is exactly [points_per_sample] long, so that only the
    last can be shorter. *)
Theorem windows_partition_channel {sample : Type} (sound_data : list sample)
    (points_per_sample : Z) :
  0 < points_per_sample ->
  let windows :=
    map (window sound_data points_per_sample)
      (py_range (Z.of_nat (length sound_data)) points_per_sample) in
  concat windows = sound_data
  /\ Forall (fun w => (0 < length w <= Z.to_nat points_per_sample)%nat) windows
  /\ forall k w, windows !! k = Some w -> (S k < length windows)%nat ->
       length w = Z.to_nat points_per_sample.
Proof.
  intros Hp windows. unfold windows, py_range.
  destruct (Z.ltb_spec 0 points_per_sample); [|lia].
  set (len := Z.of_nat (length sound_data)).
  set (n := Z.to_nat ((len + points_per_sample - 1) / points_per_sample)).
  set (p := Z.to_nat points_per_sample).
  assert (Hq : 0 <= (len + points_per_sample - 1) / points_per_sample)
    by (apply Z.div_pos; unfold len; lia).
  assert (Hcover : (length sound_data <= n * p)%nat).
  { pose proof (Z.mul_succ_div_gt (len + points_per_sample - 1) points_per_sample Hp).
    unfold n, p, len in *. nia. }
  assert (Hstart : forall k, (k < n)%nat -> (k * p < length sound_data)%nat).
  { intros k Hk.
    pose proof (Z.mul_div_le (len + points_per_sample - 1) points_per_sample Hp).
    unfold n, p, len in *. nia. }
  rewrite map_map. split; [|split].
  - rewrite (map_ext _ (fun k => firstn p (skipn (k * p) sound_data)))
      by (intros k; now apply window_at).
    rewrite windows_concat. cbn [Nat.mul skipn]. now apply firstn_all2.
  - apply List.Forall_forall. intros w Hw. apply in_map_iff in Hw as (k & <- & Hk).
    apply in_seq in Hk. rewrite window_at by exact Hp. fold p.
    rewrite length_firstn, length_skipn. specialize (Hstart k). lia.
  - intros k w Hw Hk. rewrite length_map, length_seq in Hk.
    rewrite list_lookup_fmap in Hw.
    destruct (seq 0 n !! k) as [j|] eqn:Hj; [|discriminate].
    apply lookup_seq in Hj as [-> _]. injection Hw as <-.
    rewrite window_at by exact Hp. fold p.
    rewrite length_firstn, length_skipn. specialize (Hstart (S k) Hk). lia.
Qed.

Lemma windows_partition_channel_witness :
  let windows := map (window (repeat 7%Z 25) 10) (py_range 25 10) in
  concat windows = repeat 7%Z 25
  /\ Forall (fun w => (0 < length w <= 10)%nat) windows
  /\ forall k w, windows !! k = Some w -> (S k < length windows)%nat ->
       length w = 10%nat.
Proof.
  apply (windows_partition_channel (repeat 7%Z 25) 10). lia.
Defined.
